(** * strava-autopilot: the lap merger, the workout synthesizer, the bounded
      lap poller and the weekly aggregator of [src/autopilot/run.js]

    Numbers.  A JavaScript number is modelled as the rational [Q] it
    denotes.  Where the program divides, multiplies or adds numbers that
    need not be whole (distances, paces, percentages), the operation is
    followed by [fl], the rounding to the nearest double, as IEEE 754
    prescribes for each operation.  [fl] keeps 53 significant bits and
    does not bound the exponent: the overflow and the underflow of a
    double are outside the model, except that [formatPace] tests with
    [isFinite] whether its pace has overflowed.  The arithmetic on
    durations in seconds and on minutes of the day ([formatDuration],
    [snapToMinuteIfClose], [median], the active hours) and on the retry
    budget is written as the exact one, which is what the double
    operations give on whole numbers of seconds and minutes; NaN and the
    infinities are outside the model there, except in [jsDiv], which
    keeps what a division by zero produces.  Integer fields (ids, lap
    indices, counters) are [Z].  Strings are [string], and the character
    classes and the case folding are those of ASCII text.  A field that
    may be absent or null is an [option].

    Effects.  The network is a [World] that answers requests, and a run
    leaves a [Trace] of its requests, sleeps and writes; the counters
    behind the closures of [main] are passed as state.  Loops that the
    source does not bound by a count take fuel. *)

From Stdlib Require Import ZArith QArith Qround Qabs Qpower List String Ascii Bool Lia Lqa.
From Stdlib Require Import Permutation Sorted DecimalString.
From Stdlib Require PrimFloat FloatOps SpecFloat Uint63.
Import ListNotations.

Local Open Scope Q_scope.

(** ** Numbers *)

(** The exponent of a positive rational: the [e] with
    [2^e <= q < 2^(e+1)]. *)
Definition ilog2 (q : Q) : Z :=
  let e0 := (Z.log2 (Qnum q) - Z.log2 (Zpos (Qden q)))%Z in
  if Qle_bool (2 ^ e0) q then e0 else (e0 - 1)%Z.

(** The nearest integer, a tie going to the even one. *)
Definition roundHalfEven (x : Q) : Z :=
  let f := Qfloor x in
  match Qcompare (x - inject_Z f) (1 # 2) with
  | Lt => f
  | Gt => (f + 1)%Z
  | Eq => if Z.even f then f else (f + 1)%Z
  end.

(** The double nearest to a positive rational: the multiple of
    [2^(e-52)] nearest to it, where [e] is its exponent. *)
Definition flPos (q : Q) : Q :=
  let e := ilog2 q in
  inject_Z (roundHalfEven (q * 2 ^ (52 - e))) * 2 ^ (e - 52).

(** The double nearest to a rational, a tie going to the even
    significand: what an operation on doubles returns for the exact
    result [q], and what a decimal literal denotes. *)
Definition fl (q : Q) : Q :=
  match Qcompare q 0 with
  | Eq => 0
  | Gt => flPos q
  | Lt => - flPos (- q)
  end.

(** [Number.MAX_VALUE], and [Number.isFinite] on the result of an
    operation: whether the rounded result is within the doubles. *)
Definition maxDouble : Q := inject_Z (2 ^ 53 - 1) * 2 ^ 971.

Definition isFinite (x : Q) : bool := Qle_bool (Qabs x) maxDouble.

(** [Math.round]: the nearest integer, a tie going up. *)
Definition jsRound (x : Q) : Z := Qfloor (x + (1 # 2)).

(** [Math.floor]. *)
Definition jsFloor (x : Q) : Z := Qfloor x.

(** [x % m] on numbers: the remainder has the sign of the dividend. *)
Definition jsRem (x m : Q) : Q :=
  let q := x / m in
  let t := if Qle_bool 0 q then Qfloor q else Qceiling q in
  x - m * inject_Z t.

(** [`${n}`] for an integer-valued number below [10^21]. *)
Definition string_of_Z (z : Z) : string := NilZero.string_of_int (Z.to_int z).

(** [s.padStart(2, '0')]. *)
Definition padStart2 (s : string) : string :=
  match String.length s with
  | O => "00"%string
  | S O => ("0" ++ s)%string
  | _ => s
  end.

(** ** Laps and pace *)

Record Lap := mkLap {
  lap_index : Z;
  lap_name : string;
  distance : Q;
  moving_time : Q;
  elapsed_time : Q;      (* stands for the fields the merger only copies *)
  merged : bool          (* [false]: the field is absent *)
}.

Record PaceRange := mkPaceRange { fastest : Q; slowest : Q }.

(** The literal [1609.344]. *)
Definition metersPerMile : Q := fl 1609.344.

Definition paceMinutesPerUnit (meters seconds : Q) (unitSystem : string) : option Q :=
  if Qle_bool meters 0 then None
  else
    let units := if String.eqb unitSystem "mi" then fl (meters / metersPerMile)
                 else fl (meters / 1000) in
    Some (fl (fl (seconds / 60) / units)).

(** The test of the loop of [mergeLapsByPace], the same as [isWork] of
    [generateWorkoutDescription]. *)
Definition qualifies (paceRange : PaceRange) (unitSystem : string) (lap : Lap) : bool :=
  match paceMinutesPerUnit (distance lap) (moving_time lap) unitSystem with
  | None => false
  | Some pace => Qle_bool (fastest paceRange) pace && Qle_bool pace (slowest paceRange)
  end.

(** [group.reduce((sum, lap) => sum + lap.distance, 0)] and the like. *)
Definition sumOf (f : Lap -> Q) (l : list Lap) : Q :=
  fold_left (fun sum lap => fl (sum + f lap)) l 0.

(** The object pushed for a group of two laps or more; [g0] is [group[0]]. *)
Definition mergedSegment (g0 : Lap) (group : list Lap) : Lap :=
  let distanceMeters := sumOf distance group in
  let movingTimeSeconds := sumOf moving_time group in
  let start := lap_index g0 in
  let end_ := lap_index (last group g0) in
  {| lap_index := lap_index g0;
     lap_name := ("Merged laps " ++ string_of_Z start ++ "-" ++ string_of_Z end_)%string;
     distance := distanceMeters;
     moving_time := movingTimeSeconds;
     elapsed_time := elapsed_time g0;
     merged := true |}.

(** What a group becomes when it is flushed. *)
Definition collapse (group : list Lap) : list Lap :=
  match group with
  | [] => []
  | [lap] => [lap]
  | g0 :: _ => [mergedSegment g0 group]
  end.

(** [flushGroup]: the closure over [merged] and [group], as a function of
    both that returns both. *)
Definition flushGroup (merged_ group : list Lap) : list Lap * list Lap :=
  match group with
  | [] => (merged_, group)
  | _ => (merged_ ++ collapse group, [])
  end.

Section Merge.

Variable paceRange : PaceRange.
Variable unitSystem : string.

(** The [for (const lap of laps)] loop followed by the last [flushGroup]. *)
Fixpoint mergeLoop (laps merged_ group : list Lap) : list Lap :=
  match laps with
  | [] => fst (flushGroup merged_ group)
  | lap :: rest =>
      if qualifies paceRange unitSystem lap
      then mergeLoop rest merged_ (group ++ [lap])
      else
        let '(merged', group') := flushGroup merged_ group in
        mergeLoop rest (merged' ++ [lap]) group'
  end.

Definition mergeLapsByPace (laps : list Lap) : list Lap := mergeLoop laps [] [].

(** The groups the loop forms, in order: each flushed group, and each lap
    that does not qualify on its own. *)
Fixpoint groupLoop (laps : list Lap) (groups : list (list Lap)) (group : list Lap)
  : list (list Lap) :=
  match laps with
  | [] => match group with [] => groups | _ => groups ++ [group] end
  | lap :: rest =>
      if qualifies paceRange unitSystem lap
      then groupLoop rest groups (group ++ [lap])
      else
        let groups' := match group with [] => groups | _ => groups ++ [group] end in
        groupLoop rest (groups' ++ [[lap]]) []
  end.

Definition lapGroups (laps : list Lap) : list (list Lap) := groupLoop laps [] [].

(** No two neighbours both qualify. *)
Fixpoint separated (l : list Lap) : Prop :=
  match l with
  | [] => True
  | x :: r =>
      match r with
      | [] => True
      | y :: _ =>
          (qualifies paceRange unitSystem x = false \/
           qualifies paceRange unitSystem y = false) /\ separated r
      end
  end.

End Merge.

(** ** Strings *)

(** [\s], on the ASCII characters. *)
Definition isSpace (c : ascii) : bool :=
  let n := nat_of_ascii c in
  (Nat.eqb n 32 || (Nat.leb 9 n && Nat.leb n 13))%bool.

(** [\d]. *)
Definition isDigit (c : ascii) : bool :=
  let n := nat_of_ascii c in (Nat.leb 48 n && Nat.leb n 57)%bool.

(** The lower-case form of an ASCII letter, which is what the [i] flag and
    [toLowerCase] compare on ASCII text. *)
Definition lowerChar (c : ascii) : ascii :=
  let n := nat_of_ascii c in
  if (Nat.leb 65 n && Nat.leb n 90)%bool then ascii_of_nat (n + 32) else c.

Fixpoint toLowerCase (s : string) : string :=
  match s with
  | EmptyString => EmptyString
  | String c r => String (lowerChar c) (toLowerCase r)
  end.

(** [s.startsWith(p)]. *)
Fixpoint startsWith (p s : string) : bool :=
  match p, s with
  | EmptyString, _ => true
  | String a p', String b s' => (Ascii.eqb a b && startsWith p' s')%bool
  | String _ _, EmptyString => false
  end.

(** [s.includes(sub)]. *)
Fixpoint includes (sub s : string) : bool :=
  (startsWith sub s ||
   match s with
   | EmptyString => false
   | String _ r => includes sub r
   end)%bool.

Fixpoint trimStart (s : string) : string :=
  match s with
  | EmptyString => EmptyString
  | String c r => if isSpace c then trimStart r else s
  end.

Fixpoint trimEnd (s : string) : string :=
  match s with
  | EmptyString => EmptyString
  | String c r =>
      match trimEnd r with
      | EmptyString => if isSpace c then EmptyString else String c EmptyString
      | r' => String c r'
      end
  end.

(** [s.trim()]. *)
Definition trim (s : string) : string := trimEnd (trimStart s).

(** [s.split(':')]: the pieces between the colons, at least one. *)
Fixpoint splitColon (s : string) : list string :=
  match s with
  | EmptyString => [EmptyString]
  | String c r =>
      if Ascii.eqb c ":"%char then EmptyString :: splitColon r
      else match splitColon r with
           | [] => [String c EmptyString]
           | p :: ps => String c p :: ps
           end
  end.

(** [lines.join('\n')]. *)
Definition newline : string := String (ascii_of_nat 10) EmptyString.

Fixpoint joinLines (lines : list string) : string :=
  match lines with
  | [] => EmptyString
  | [l] => l
  | l :: rest => (l ++ newline ++ joinLines rest)%string
  end.

(** ** Formatting *)

Local Open Scope Q_scope.

Definition unitIsMi (unitSystem : string) : bool := String.eqb unitSystem "mi".

(** [formatPace].  When the product [pace * 60] is infinite, so are
    [totalSeconds] and [mins], and [secs] is [NaN]. *)
Definition formatPace (meters seconds : Q) (unitSystem : string) : string :=
  match paceMinutesPerUnit meters seconds unitSystem with
  | None => "-"%string
  | Some pace =>
      if negb (isFinite pace) then "-"%string
      else
        let label := (if unitIsMi unitSystem then "min/mi" else "min/km")%string in
        let product := fl (pace * 60) in
        if negb (isFinite product)
        then ((if Qle_bool 0 product then "Infinity" else "-Infinity") ++ ":NaN " ++ label)%string
        else
          let totalSeconds := jsRound product in
          let mins := jsFloor (fl (inject_Z totalSeconds / 60)) in
          let secs := Z.rem totalSeconds 60 in
          (string_of_Z mins ++ ":" ++ padStart2 (string_of_Z secs) ++ " " ++ label)%string
  end.

Definition formatDuration (seconds : Q) : string :=
  let mins := jsFloor (seconds / 60) in
  let secs := jsFloor (jsRem seconds 60) in
  (string_of_Z mins ++ ":" ++ padStart2 (string_of_Z secs))%string.

Definition snapToMinuteIfClose (seconds toleranceSeconds : Q) : Q :=
  let nearestMinute := inject_Z (jsRound (seconds / 60)) * 60 in
  if Qle_bool (Qabs (seconds - nearestMinute)) toleranceSeconds
  then nearestMinute else seconds.

(** The default of the parameter [toleranceSeconds]. *)
Definition defaultTolerance : Q := 2.

(** ** Sorting and the median *)

(** [Array.prototype.sort(cmp)]: a stable sort; [cmp x y <= 0] keeps [x]
    before [y]. *)
Fixpoint insertBy {A : Type} (cmp : A -> A -> Q) (x : A) (l : list A) : list A :=
  match l with
  | [] => [x]
  | y :: r => if Qle_bool (cmp x y) 0 then x :: l else y :: insertBy cmp x r
  end.

Fixpoint sortBy {A : Type} (cmp : A -> A -> Q) (l : list A) : list A :=
  match l with
  | [] => []
  | x :: r => insertBy cmp x (sortBy cmp r)
  end.

(** [median], the closure of [generateWorkoutDescription].  [sorted[i]] is
    read with default [0]; only for the empty list, where JavaScript reads
    [undefined], is an index out of range. *)
Definition median (values : list Q) : Q :=
  let sorted := sortBy (fun a b => a - b) values in
  let mid := (List.length sorted / 2)%nat in
  if Nat.eqb (List.length sorted mod 2) 1
  then nth mid sorted 0
  else inject_Z (jsRound ((nth (mid - 1) sorted 0 + nth mid sorted 0) / 2)).

(** ** The workout description *)

Record Rep := mkRep { fast : Lap; restSeconds : Q }.

(** The payload of an update: [name] and [description], each possibly
    absent. *)
Record Update := mkUpdate { upd_name : option string; upd_description : option string }.

(** [segments.findIndex(p)], [None] for [-1]. *)
Fixpoint findIndex {A : Type} (p : A -> bool) (l : list A) : option nat :=
  match l with
  | [] => None
  | x :: r => if p x then Some O else option_map S (findIndex p r)
  end.

(** The scan from the end for the last index satisfying [p]. *)
Fixpoint findLastIndex {A : Type} (p : A -> bool) (l : list A) : option nat :=
  match l with
  | [] => None
  | x :: r =>
      match findLastIndex p r with
      | Some i => Some (S i)
      | None => if p x then Some O else None
      end
  end.

(** [reps[reps.length - 1].restSeconds += t]. *)
Fixpoint addRestToLast (reps : list Rep) (t : Q) : list Rep :=
  match reps with
  | [] => []
  | [r] => [mkRep (fast r) (fl (restSeconds r + t))]
  | r :: rest => r :: addRestToLast rest t
  end.

Definition repLine (unitSystem : string) (count : nat) (cooldownSeconds : Q)
  (idx : nat) (rep : Rep) : string :=
  let repSeconds := snapToMinuteIfClose (moving_time (fast rep)) defaultTolerance in
  let repPace := formatPace (distance (fast rep)) repSeconds unitSystem in
  let base := (string_of_Z (Z.of_nat (idx + 1)) ++ ") " ++ formatDuration repSeconds
               ++ " @ " ++ repPace)%string in
  if (negb (Qle_bool (restSeconds rep) 0) && Nat.ltb idx (count - 1))%bool
  then (base ++ " + rest "
        ++ formatDuration (snapToMinuteIfClose (restSeconds rep) defaultTolerance))%string
  else if (Nat.eqb idx (count - 1) && negb (Qle_bool cooldownSeconds 0))%bool
  then (base ++ " + CD")%string
  else base.

Fixpoint repLines (unitSystem : string) (count : nat) (cooldownSeconds : Q)
  (idx : nat) (reps : list Rep) : list string :=
  match reps with
  | [] => []
  | rep :: rest =>
      repLine unitSystem count cooldownSeconds idx rep
      :: repLines unitSystem count cooldownSeconds (S idx) rest
  end.

Definition sumQ (l : list Q) : Q := fold_left (fun sum s => fl (sum + s)) l 0.

Definition generateWorkoutDescription (laps : list Lap) (paceRange : PaceRange)
  (unitSystem : string) : option Update :=
  match laps with
  | [] => None
  | _ =>
    let segments := mergeLapsByPace paceRange unitSystem laps in
    let isWork := qualifies paceRange unitSystem in
    match findIndex isWork segments with
    | None => None
    | Some firstFastIdx =>
      match findLastIndex isWork segments with
      | None => None
      | Some lastFastIdx =>
        let window := firstn (lastFastIdx + 1 - firstFastIdx) (skipn firstFastIdx segments) in
        let reps :=
          fold_left
            (fun reps seg =>
               if isWork seg then reps ++ [mkRep seg 0]
               else match reps with
                    | [] => reps
                    | _ => addRestToLast reps (moving_time seg)
                    end)
            window [] in
        match reps with
        | [] => None
        | _ =>
          let cooldownSeconds := sumOf moving_time (skipn (lastFastIdx + 1) segments) in
          let repTimesRounded :=
            map (fun rep => snapToMinuteIfClose (moving_time (fast rep)) defaultTolerance) reps in
          let totalFastMeters :=
            fold_left (fun sum rep => fl (sum + distance (fast rep))) reps 0 in
          let totalFastSecondsRounded := sumQ repTimesRounded in
          let fastAvgPace := formatPace totalFastMeters totalFastSecondsRounded unitSystem in
          let typicalRepSeconds := median repTimesRounded in
          let header := (formatDuration typicalRepSeconds ++ " x "
                         ++ string_of_Z (Z.of_nat (List.length reps))
                         ++ " (avg " ++ fastAvgPace ++ ")")%string in
          let lines := repLines unitSystem (List.length reps) cooldownSeconds O reps in
          Some (mkUpdate (Some header) (Some (joinLines lines)))
        end
      end
    end
  end.

Definition formatAvgHrDescription (avgHr : Q) (maxHr : option Q) : string :=
  let rounded := jsRound avgHr in
  match maxHr with
  | None => ("Avg HR: " ++ string_of_Z rounded ++ " bpm")%string
  | Some m =>
      if Qeq_bool m 0 then ("Avg HR: " ++ string_of_Z rounded ++ " bpm")%string
      else
        let pct := jsRound (fl (fl (inject_Z rounded / m) * 100)) in
        ("Avg HR: " ++ string_of_Z rounded ++ " bpm (" ++ string_of_Z pct ++ "% max)")%string
  end.

(** ** Week totals *)

(** [x.toFixed(1)] for [|x| < 10^21]: the tenth nearest to the value of the
    double [x], a tie going away from zero, printed with one decimal. *)
Definition toFixed1 (x : Q) : string :=
  let neg := negb (Qle_bool 0 x) in
  let ax := if neg then - x else x in
  let n := Qfloor (ax * 10 + (1 # 2)) in
  ((if neg then "-" else "") ++ string_of_Z (n / 10)%Z ++ "." ++ string_of_Z (n mod 10)%Z)%string.

Definition formatWeekTotalSuffix (totalMeters : Q) (unitSystem : string) : string :=
  let units := if unitIsMi unitSystem then fl (totalMeters / metersPerMile)
               else fl (totalMeters / 1000) in
  let value := toFixed1 units in
  let label := (if unitIsMi unitSystem then "mi" else "km")%string in
  ("(Week Total: " ++ value ++ " " ++ label ++ ")")%string.

(** The longest prefix of characters other than [')'], and what follows. *)
Fixpoint spanNotParen (s : string) : string * string :=
  match s with
  | EmptyString => (EmptyString, EmptyString)
  | String c r =>
      if Ascii.eqb c ")"%char then (EmptyString, s)
      else let '(a, b) := spanNotParen r in (String c a, b)
  end.

(** Drops the first [n] characters. *)
Fixpoint dropChars (n : nat) (s : string) : string :=
  match n, s with
  | O, _ => s
  | S n', String _ r => dropChars n' r
  | S _, EmptyString => EmptyString
  end.

(** Whether [/\s*\(Week Total: [^)]+\)\s*$/i] matches the whole of [s],
    that is, matches starting at the position where [s] starts. *)
Definition matchesWeekTotalTail (s : string) : bool :=
  let t := trimStart s in
  let key := "(week total: "%string in
  if startsWith key (toLowerCase t) then
    match spanNotParen (dropChars (String.length key) t) with
    | (EmptyString, _) => false
    | (_, String c r) =>
        (Ascii.eqb c ")"%char &&
         match trimStart r with EmptyString => true | _ => false end)%bool
    | (_, EmptyString) => false
    end
  else false.

(** [name.replace(/\s*\(Week Total: [^)]+\)\s*$/i, '')]: the leftmost
    position where the pattern matches is cut off with all that follows. *)
Fixpoint stripWeekTotal (s : string) : string :=
  if matchesWeekTotalTail s then EmptyString
  else match s with
       | EmptyString => EmptyString
       | String c r => String c (stripWeekTotal r)
       end.

Definition appendWeekTotalSuffix (name suffix : string) : string :=
  let cleaned := trim (stripWeekTotal name) in
  trim (cleaned ++ " " ++ suffix)%string.

(** ** Names and types *)

Definition isDefaultName (name : option string) (defaults : list string) : bool :=
  match name with
  | None => false
  | Some n => existsb (String.eqb n) defaults
  end.

(** Pieces of a pattern: each consumes a prefix of the text and returns
    what follows, or fails.  [dropWhile p] is [p*], [some1 p] is [p+] and
    [one p] is a single [p]. *)
Fixpoint dropWhile (p : ascii -> bool) (s : string) : string :=
  match s with
  | EmptyString => EmptyString
  | String c r => if p c then dropWhile p r else s
  end.

Definition some1 (p : ascii -> bool) (s : string) : option string :=
  match s with
  | String c r => if p c then Some (dropWhile p r) else None
  | EmptyString => None
  end.

Definition one (p : ascii -> bool) (s : string) : option string :=
  match s with
  | String c r => if p c then Some r else None
  | EmptyString => None
  end.

Definition andThen (m : option string) (f : string -> option string) : option string :=
  match m with Some s => f s | None => None end.

(** [/^\d+:\d{2}\s+x\s+\d+/i]. *)
Definition looksLikeIntervalHeader (name : string) : bool :=
  match
    andThen (some1 isDigit name) (fun s =>
    andThen (one (Ascii.eqb ":"%char) s) (fun s =>
    andThen (one isDigit s) (fun s =>
    andThen (one isDigit s) (fun s =>
    andThen (some1 isSpace s) (fun s =>
    andThen (one (fun c => Ascii.eqb (lowerChar c) "x"%char) s) (fun s =>
    andThen (some1 isSpace s) (fun s =>
    some1 isDigit s)))))))
  with
  | Some _ => true
  | None => false
  end.

Definition isAlreadyRenamed (name : option string) : bool :=
  match name with
  | None => false
  | Some EmptyString => false
  | Some n =>
      if includes "easy run" (toLowerCase n) then true
      else if includes "week total:" (toLowerCase n) then true
      else looksLikeIntervalHeader n
  end.

Definition looksLikeRun (type : option string) : bool :=
  match type with
  | None => false
  | Some EmptyString => false
  | Some t => includes "run" (toLowerCase t)
  end.

(** ** Settings, clock, network *)

Record RetryPolicy := mkRetryPolicy {
  lapRetryIntervalSeconds : option Q;
  lapRetryMaxMinutes : option Q;
  maxReadsPerRun : option Q
}.

Record Settings := mkSettings {
  activeHours_start : string;
  activeHours_end : string;
  paceRange_fastest : string;
  paceRange_slowest : string;
  unitSystem_ : string;
  maxHr_ : option Q;
  retryPolicy_ : option RetryPolicy;
  defaultRunNames : option (list string);
  weekTotals : bool;        (* [settings.features?.weekTotals], as a truth value *)
  weekStart : string
}.

(** The environment variables the run reads. *)
Record Credentials := mkCredentials {
  STRAVA_CLIENT_ID : option string;
  STRAVA_CLIENT_SECRET : option string;
  STRAVA_REFRESH_TOKEN : option string
}.

(** What the run reads of a luxon [DateTime]: [dayStart] is the epoch
    second of [startOf('day')], and [daysBefore n] that of
    [startOf('day').minus({ days: n })], the start of the day [n] calendar
    days earlier in the zone of the clock. *)
Record DateTime := mkDateTime {
  hour : Z;
  minute : Z;
  weekday : Z;
  dayStart : Z;
  daysBefore : Z -> Z
}.

Record Activity := mkActivity {
  act_id : Z;
  act_name : option string;
  act_type : option string;
  sport_type : option string;
  workout_type : option Z;
  act_distance : option Q;
  average_heartrate : option Q;
  start_date : option string
}.

(** An HTTP response: [resp.ok] with its parsed body, or a status that is
    not a success. *)
Inductive Resp (A : Type) : Type :=
| Ok (body : A)
| Failed (status : Z).
Arguments Ok {A} body.
Arguments Failed {A} status.

(** The body of a laps response tested by [Array.isArray]. *)
Inductive LapsJson :=
| JArray (laps : list Lap)
| JOther.

(** A request with the response it got, a sleep, or a write with its
    [resp.ok]. *)
Inductive Event :=
| EvRefresh (r : Resp string)
| EvListToday (after : Z) (r : Resp (list Activity))
| EvDetail (id : Z) (r : Resp Activity)
| EvLaps (id : Z) (r : Resp LapsJson)
| EvSleep (ms : Q)
| EvWeekPage (page after before : Z) (r : Resp (list Activity))
| EvPut (id : Z) (payload : Update) (ok : bool).

(** The service: each answer may depend on the request and on the number of
    events that came before it. *)
Record World := mkWorld {
  w_refresh : Resp string;
  w_list : Z -> Resp (list Activity);
  w_detail : nat -> Z -> Resp Activity;
  w_laps : nat -> Z -> Resp LapsJson;
  w_week : nat -> Z -> Z -> Z -> Resp (list Activity);
  w_put : nat -> Z -> Update -> bool
}.

(** The trace of a run holds its events, the newest first. *)
Definition Trace := list Event.

Inductive Error :=
| MissingCredentials
| InvalidPaceRange
| RefreshFailed (status : Z)
| ListFailed (status : Z).

Inductive Outcome :=
| Completed
| Thrown (e : Error)
| OutOfFuel.

(** ** The bounded lap poller *)

(** A quotient of two finite numbers, where the divisor may be zero. *)
Inductive JsNum :=
| Fin (q : Q)
| PosInf
| NegInf
| NaN.

Definition jsDiv (a b : Q) : JsNum :=
  if Qeq_bool b 0 then
    (if Qeq_bool a 0 then NaN else if Qle_bool 0 a then PosInf else NegInf)
  else Fin (a / b).

(** [maxAttempts]: an integer, [Infinity] or [NaN]. *)
Inductive Attempts :=
| Bounded (n : Z)
| Unbounded
| NoNumber.

(** [Math.max(1, Math.floor(x))]. *)
Definition maxOneFloor (x : JsNum) : Attempts :=
  match x with
  | Fin q => Bounded (Z.max 1 (Qfloor q))
  | PosInf => Unbounded
  | NegInf => Bounded 1
  | NaN => NoNumber
  end.

(** [attempt <= maxAttempts] and [attempt < maxAttempts]. *)
Definition attemptLe (attempt : Z) (m : Attempts) : bool :=
  match m with Bounded n => (attempt <=? n)%Z | Unbounded => true | NoNumber => false end.

Definition attemptLt (attempt : Z) (m : Attempts) : bool :=
  match m with Bounded n => (attempt <? n)%Z | Unbounded => true | NoNumber => false end.

Definition orElse {A : Type} (x : option A) (d : A) : A :=
  match x with Some v => v | None => d end.

Definition maxAttemptsOf (retryPolicy : RetryPolicy) : Attempts :=
  let intervalMs := orElse (lapRetryIntervalSeconds retryPolicy) 60 * 1000 in
  let maxMinutes := orElse (lapRetryMaxMinutes retryPolicy) 30 in
  maxOneFloor (jsDiv (maxMinutes * 60 * 1000) intervalMs).

Inductive Poll :=
| PollLaps (laps : list Lap)
| PollNull
| PollFuel.

Section Poller.

(** The state behind the [canContinue] closure. *)
Context {B : Type}.
Variable w : World.
Variable canContinue : B -> bool * B.
Variable activityId : Z.
Variable intervalMs : Q.
Variable maxAttempts : Attempts.

(** The [for] loop of [fetchLapsWithRetry]; one unit of fuel per turn. *)
Fixpoint fetchLoop (fuel : nat) (attempt : Z) (b : B) (tr : Trace) : Poll * B * Trace :=
  if negb (attemptLe attempt maxAttempts) then (PollNull, b, tr)
  else
    match fuel with
    | O => (PollFuel, b, tr)
    | S fuel' =>
        let '(ok, b1) := canContinue b in
        if negb ok then (PollNull, b1, tr)
        else
          let resp := w_laps w (List.length tr) activityId in
          let tr1 := EvLaps activityId resp :: tr in
          match resp with
          | Ok (JArray (lap :: laps)) => (PollLaps (lap :: laps), b1, tr1)
          | _ =>
              let tr2 := if attemptLt attempt maxAttempts
                         then EvSleep intervalMs :: tr1 else tr1 in
              fetchLoop fuel' (attempt + 1)%Z b1 tr2
          end
    end.

End Poller.

Definition fetchLapsWithRetry {B : Type} (fuel : nat) (w : World) (activityId : Z)
  (retryPolicy : RetryPolicy) (canContinue : B -> bool * B) (b : B) (tr : Trace)
  : Poll * B * Trace :=
  let intervalMs := orElse (lapRetryIntervalSeconds retryPolicy) 60 * 1000 in
  fetchLoop w canContinue activityId intervalMs (maxAttemptsOf retryPolicy) fuel 1%Z b tr.

(** The number of laps requests in a trace. *)
Fixpoint countLapsFetches (tr : Trace) : nat :=
  match tr with
  | [] => O
  | EvLaps _ _ :: r => S (countLapsFetches r)
  | _ :: r => countLapsFetches r
  end.

(** ** Building the update *)

(** [settings.unitSystem === 'km' ? 'km' : 'mi']. *)
Definition settingsUnit (settings : Settings) : string :=
  (if String.eqb (unitSystem_ settings) "km" then "km" else "mi")%string.

Definition buildUpdate (activity : Activity) (laps : list Lap) (paceRange : PaceRange)
  (settings : Settings) : Update :=
  let unitSystem := settingsUnit settings in
  let maxHr := match maxHr_ settings with
               | Some m => if Qeq_bool m 0 then None else Some m
               | None => None
               end in
  match generateWorkoutDescription laps paceRange unitSystem with
  | Some workout => mkUpdate (upd_name workout) (upd_description workout)
  | None =>
      let description := match average_heartrate activity with
                         | Some avgHr => formatAvgHrDescription avgHr maxHr
                         | None => ""%string
                         end in
      mkUpdate (Some "Easy Run"%string) (Some description)
  end.

(** ** The run *)

Definition truthy (s : option string) : bool :=
  match s with
  | None => false
  | Some EmptyString => false
  | Some _ => true
  end.

(** [!STRAVA_CLIENT_ID || !STRAVA_CLIENT_SECRET || !STRAVA_REFRESH_TOKEN]. *)
Definition credentialsMissing (creds : Credentials) : bool :=
  (negb (truthy (STRAVA_CLIENT_ID creds)) || negb (truthy (STRAVA_CLIENT_SECRET creds))
   || negb (truthy (STRAVA_REFRESH_TOKEN creds)))%bool.

Definition Qmin2 (a b : Q) : Q := if Qle_bool a b then a else b.
Definition Qmax2 (a b : Q) : Q := if Qle_bool a b then b else a.

(** The [consumeRead] and [canContinue] closures of [main]: the state is
    [readsUsed]. *)
Definition readBudget (maxReads : Q) (readsUsed : Z) : bool * Z :=
  let readsUsed' := (readsUsed + 1)%Z in
  (negb (Qle_bool maxReads (inject_Z readsUsed')), readsUsed').

Inductive Pages :=
| PagesDone (activities : list Activity)
| PagesReturn
| PagesFuel.

Inductive Flow :=
| Next      (* the loop goes on with the next activity *)
| Stop      (* [break] *)
| NoFuel.

Section Program.

(** [Number(s)] when it is finite, [None] when it is [NaN] or infinite. *)
Variable toNumber : string -> option Q.
(** [new Date(s).getTime()], [None] when it is [NaN]. *)
Variable dateTime : string -> option Q.

Definition parseTimeHM (text : string) : option (Q * Q) :=
  match map toNumber (splitColon text) with
  | Some h :: Some m :: _ => Some (h, m)
  | _ => None
  end.

Definition isWithinActiveHours (settings : Settings) (now : DateTime) : bool :=
  match parseTimeHM (activeHours_start settings), parseTimeHM (activeHours_end settings) with
  | Some (sh, sm), Some (eh, em) =>
      let startMinutes := sh * 60 + sm in
      let endMinutes := eh * 60 + em in
      let nowMinutes := inject_Z (hour now * 60 + minute now) in
      (Qle_bool startMinutes nowMinutes && Qle_bool nowMinutes endMinutes)%bool
  | _, _ => true
  end.

(** [startOfWeek(dt, weekStart)]: the day it returns, given as the number
    of calendar days it lies before the day of [dt]. *)
Definition startOfWeek (dt : DateTime) (weekStart_ : string) : Z :=
  let diff := if String.eqb weekStart_ "sunday" then Z.rem (weekday dt) 7
              else (weekday dt - 1)%Z in
  diff.

Definition parsePace (value : string) : option Q :=
  let trimmed := trim value in
  match trimmed with
  | EmptyString => None
  | _ =>
      if includes ":" trimmed then
        match map toNumber (splitColon trimmed) with
        | Some m :: Some s :: _ =>
            if (negb (Qle_bool 0 s) || Qle_bool 60 s || negb (Qle_bool 0 m))%bool
            then None else Some (fl (m + fl (s / 60)))
        | _ => None
        end
      else
        match toNumber trimmed with
        | Some num => if Qle_bool num 0 then None else Some num
        | None => None
        end
  end.

Definition paceRangeFromSettings (settings : Settings) : option PaceRange :=
  match parsePace (paceRange_fastest settings), parsePace (paceRange_slowest settings) with
  | Some fastest_, Some slowest_ =>
      Some (mkPaceRange (Qmin2 fastest_ slowest_) (Qmax2 fastest_ slowest_))
  | _, _ => None
  end.

(** The [while (true)] loop of [maybeFinalizePreviousWeek]. *)
Fixpoint weekPagesLoop {B : Type} (w : World) (consumeRead : B -> bool * B)
  (after before : Z) (fuel : nat) (page : Z) (activities : list Activity)
  (b : B) (tr : Trace) : Pages * B * Trace :=
  match fuel with
  | O => (PagesFuel, b, tr)
  | S fuel' =>
      let '(ok, b1) := consumeRead b in
      if negb ok then (PagesReturn, b1, tr)
      else
        let resp := w_week w (List.length tr) page after before in
        let tr1 := EvWeekPage page after before resp :: tr in
        match resp with
        | Failed _ => (PagesReturn, b1, tr1)
        | Ok batch =>
            let activities' := (activities ++ batch)%list in
            if (List.length batch <? 200)%nat then (PagesDone activities', b1, tr1)
            else weekPagesLoop w consumeRead after before fuel' (page + 1)%Z activities' b1 tr1
        end
  end.

Definition isRun (a : Activity) : bool :=
  (looksLikeRun (act_type a) || looksLikeRun (sport_type a))%bool.

Definition isRace (a : Activity) : bool :=
  match workout_type a with Some 1%Z => true | _ => false end.

(** The comparator of the sort by start date, the latest first; a [NaN]
    difference counts as [0]. *)
Definition byStartDateDesc (a b : Activity) : Q :=
  match option_map dateTime (start_date b), option_map dateTime (start_date a) with
  | Some (Some tb), Some (Some ta) => tb - ta
  | _, _ => 0
  end.

Definition selectLastRun (runs : list Activity) : option Activity :=
  find (fun a => negb (isRace a))
       (sortBy byStartDateDesc (filter (fun a => truthy (start_date a)) runs)).

Definition weekSuffix (settings : Settings) (runs : list Activity) : string :=
  let totalMeters := fold_left (fun sum a => fl (sum + orElse (act_distance a) 0)) runs 0 in
  formatWeekTotalSuffix totalMeters (settingsUnit settings).

(** What [maybeFinalizePreviousWeek] decides once the listing is complete:
    the activity to rename and its new name, or nothing to do. *)
Definition weekTotalRename (settings : Settings) (activities : list Activity)
  : option (Z * string) :=
  match activities with
  | [] => None
  | _ =>
    let runs := filter isRun activities in
    match runs with
    | [] => None
    | _ =>
      match selectLastRun runs with
      | None => None
      | Some lastRun =>
          let suffix := weekSuffix settings runs in
          if (truthy (act_name lastRun) && includes suffix (orElse (act_name lastRun) ""%string))%bool
          then None
          else
            let newName := appendWeekTotalSuffix (orElse (act_name lastRun) "Run"%string) suffix in
            Some (act_id lastRun, newName)
      end
    end
  end.

Definition maybeFinalizePreviousWeek {B : Type} (fuel : nat) (now : DateTime)
  (settings : Settings) (w : World) (consumeRead : B -> bool * B) (b : B) (tr : Trace)
  : Outcome * B * Trace :=
  let nowMinutes := inject_Z (hour now * 60 + minute now) in
  let startMinutes := match parseTimeHM (activeHours_start settings) with
                      | Some (sh, sm) => sh * 60 + sm
                      | None => 0
                      end in
  if negb (Qle_bool nowMinutes (startMinutes + 30)) then (Completed, b, tr)
  else
    let currentWeekStart :=
      startOfWeek now (if String.eqb (weekStart settings) "sunday" then "sunday" else "monday") in
    let previousWeekStart := (currentWeekStart + 7)%Z in   (* [minus({ days: 7 })] *)
    let previousWeekEnd := currentWeekStart in
    let after := daysBefore now previousWeekStart in
    let before := daysBefore now previousWeekEnd in
    match weekPagesLoop w consumeRead after before fuel 1%Z [] b tr with
    | (PagesFuel, b1, tr1) => (OutOfFuel, b1, tr1)
    | (PagesReturn, b1, tr1) => (Completed, b1, tr1)
    | (PagesDone activities, b1, tr1) =>
        match weekTotalRename settings activities with
        | None => (Completed, b1, tr1)
        | Some (id, newName) =>
            let payload := mkUpdate (Some newName) None in
            let ok := w_put w (List.length tr1) id payload in
            (Completed, b1, EvPut id payload ok :: tr1)
        end
    end.

(** One turn of the loop over the day's activities in [main]. *)
Definition processActivity (fuel : nat) (w : World) (settings : Settings)
  (retryPolicy : RetryPolicy) (paceRange : PaceRange) (defaultNames : list string)
  (summary : Activity) (readsUsed : Z) (tr : Trace) : Flow * Z * Trace :=
  let maxReads := orElse (maxReadsPerRun retryPolicy) 90 in
  if Qle_bool maxReads (inject_Z readsUsed) then (Stop, readsUsed, tr)
  else if (negb (looksLikeRun (act_type summary)) && negb (looksLikeRun (sport_type summary)))%bool
  then (Next, readsUsed, tr)
  else if isAlreadyRenamed (act_name summary) then (Next, readsUsed, tr)
  else if negb (isDefaultName (act_name summary) defaultNames) then (Next, readsUsed, tr)
  else
    let detailResp := w_detail w (List.length tr) (act_id summary) in
    let tr1 := EvDetail (act_id summary) detailResp :: tr in
    let readsUsed1 := (readsUsed + 1)%Z in
    match detailResp with
    | Failed _ => (Next, readsUsed1, tr1)
    | Ok detail =>
        if isRace detail then (Next, readsUsed1, tr1)
        else if negb (isDefaultName (act_name detail) defaultNames) then (Next, readsUsed1, tr1)
        else
          match fetchLapsWithRetry fuel w (act_id detail) retryPolicy
                  (readBudget maxReads) readsUsed1 tr1 with
          | (PollFuel, readsUsed2, tr2) => (NoFuel, readsUsed2, tr2)
          | (PollNull, readsUsed2, tr2) => (Next, readsUsed2, tr2)
          | (PollLaps laps, readsUsed2, tr2) =>
              (* [buildUpdate] always returns an object: [!update] is false *)
              let update := buildUpdate detail laps paceRange settings in
              let ok := w_put w (List.length tr2) (act_id detail) update in
              (Next, readsUsed2, EvPut (act_id detail) update ok :: tr2)
          end
    end.

Fixpoint processActivities (fuel : nat) (w : World) (settings : Settings)
  (retryPolicy : RetryPolicy) (paceRange : PaceRange) (defaultNames : list string)
  (activities : list Activity) (readsUsed : Z) (tr : Trace) : Outcome * Z * Trace :=
  match activities with
  | [] => (Completed, readsUsed, tr)
  | summary :: rest =>
      match processActivity fuel w settings retryPolicy paceRange defaultNames
              summary readsUsed tr with
      | (Next, readsUsed', tr') =>
          processActivities fuel w settings retryPolicy paceRange defaultNames rest readsUsed' tr'
      | (Stop, readsUsed', tr') => (Completed, readsUsed', tr')
      | (NoFuel, readsUsed', tr') => (OutOfFuel, readsUsed', tr')
      end
  end.

(** [main]; [settings] is what [loadSettings] returned and [now] what
    [nowInTz] returned.  [fuel] bounds the turns of each inner loop. *)
Definition main (fuel : nat) (settings : Settings) (creds : Credentials)
  (now : DateTime) (w : World) : Outcome * Trace :=
  if negb (isWithinActiveHours settings now) then (Completed, [])
  else
    let retryPolicy :=
      mkRetryPolicy
        (Some (orElse (match retryPolicy_ settings with
                       | Some p => lapRetryIntervalSeconds p | None => None end) 60))
        (Some (orElse (match retryPolicy_ settings with
                       | Some p => lapRetryMaxMinutes p | None => None end) 30))
        (Some (orElse (match retryPolicy_ settings with
                       | Some p => maxReadsPerRun p | None => None end) 90)) in
    if credentialsMissing creds then (Thrown MissingCredentials, [])
    else
      match paceRangeFromSettings settings with
      | None => (Thrown InvalidPaceRange, [])
      | Some paceRange =>
          let tokenResp := w_refresh w in
          let tr0 := [EvRefresh tokenResp] in
          match tokenResp with
          | Failed status => (Thrown (RefreshFailed status), tr0)
          | Ok accessToken =>
              let afterEpoch := dayStart now in
              let listResp := w_list w afterEpoch in
              let tr1 := EvListToday afterEpoch listResp :: tr0 in
              let readsUsed := 1%Z in
              match listResp with
              | Failed status => (Thrown (ListFailed status), tr1)
              | Ok activities =>
                  let defaultNames := orElse (defaultRunNames settings) [] in
                  match processActivities fuel w settings retryPolicy paceRange
                          defaultNames activities readsUsed tr1 with
                  | (OutOfFuel, _, tr2) => (OutOfFuel, tr2)
                  | (_, readsUsed2, tr2) =>
                      if weekTotals settings then
                        let maxReads := orElse (maxReadsPerRun retryPolicy) 90 in
                        let '(o, _, tr3) :=
                          maybeFinalizePreviousWeek fuel now settings w
                            (readBudget maxReads) readsUsed2 tr2 in
                        (o, tr3)
                      else (Completed, tr2)
                  end
              end
          end
      end.

End Program.

(** An instance of [Number] on unsigned decimal integers, enough to read
    [H:MM] and [M:SS] texts; other texts are not numbers for it. *)
Fixpoint digitsValue (acc : Z) (s : string) : option Z :=
  match s with
  | EmptyString => Some acc
  | String c r =>
      if isDigit c then digitsValue (acc * 10 + Z.of_nat (nat_of_ascii c - 48)) r
      else None
  end.

Definition decimalNumber (s : string) : option Q :=
  match s with
  | EmptyString => Some 0
  | _ => option_map inject_Z (digitsValue 0 s)
  end.

(** ** Auxiliary definitions of the proofs and the examples *)

(** How many elements of [l] satisfy [p]. *)
Definition countIf (p : Q -> bool) (l : list Q) : nat := List.length (filter p l).

(** [x < y] as a test. *)
Definition Qltb (x y : Q) : bool := negb (Qle_bool y x).

Definition sampleLap (i : Z) (d t : Q) : Lap := mkLap i "Lap" d t t false.

(** The doubles of the machine, to compare [fl] with: the value of a
    double, [None] for NaN and the infinities; the double of a whole
    number from [0] to [2^53]; and the quotient of two such numbers as
    the machine divides them. *)
Definition doubleValue (x : PrimFloat.float) : option Q :=
  match FloatOps.Prim2SF x with
  | SpecFloat.S754_zero _ => Some 0
  | SpecFloat.S754_finite s m e =>
      Some ((if s then - inject_Z (Zpos m) else inject_Z (Zpos m)) * 2 ^ e)
  | _ => None
  end.

Definition doubleOfZ (z : Z) : PrimFloat.float := PrimFloat.of_uint63 (Uint63.of_Z z).

Definition doubleQuotient (nd : Z * Z) : PrimFloat.float :=
  PrimFloat.div (doubleOfZ (fst nd)) (doubleOfZ (snd nd)).

Definition sameValue (x : PrimFloat.float) (q : Q) : bool :=
  match doubleValue x with
  | Some v => Qeq_bool v q
  | None => false
  end.

(** The exact sum of a field over laps, and the numbers on which the sums
    of the program do not round: the whole numbers from [0] on. *)
Fixpoint exactSum (f : Lap -> Q) (l : list Lap) : Q :=
  match l with
  | [] => 0
  | lap :: rest => f lap + exactSum f rest
  end.

Definition wholeNumber (x : Q) : bool :=
  (Qle_bool 0 x && Qeq_bool x (inject_Z (Qfloor x)))%bool.

Definition sampleRange : PaceRange := mkPaceRange 5.5 7.5.

(** The number of writes in a trace. *)
Fixpoint countPuts (tr : Trace) : nat :=
  match tr with
  | [] => O
  | EvPut _ _ _ :: r => S (countPuts r)
  | _ :: r => countPuts r
  end.

(** Whether an event is a successful read of the details of activity
    [id] that shows a name among the default names. *)
Definition showsDefaultName (defaults : list string) (id : Z) (e : Event) : bool :=
  match e with
  | EvDetail _ (Ok detail) =>
      ((act_id detail =? id)%Z && isDefaultName (act_name detail) defaults)%bool
  | _ => false
  end.

(** Every write of the trace comes after such a read of the activity it
    targets. *)
Fixpoint guardedPuts (defaults : list string) (tr : Trace) : bool :=
  match tr with
  | [] => true
  | EvPut id _ _ :: earlier =>
      (existsb (showsDefaultName defaults id) earlier && guardedPuts defaults earlier)%bool
  | _ :: earlier => guardedPuts defaults earlier
  end.

(** The activity as the service holds it once the rename of [id] to
    [newName] is applied. *)
Definition renamed (id : Z) (newName : string) (a : Activity) : Activity :=
  if (act_id a =? id)%Z
  then mkActivity (act_id a) (Some newName) (act_type a) (sport_type a)
         (workout_type a) (act_distance a) (average_heartrate a) (start_date a)
  else a.

(** Whether the last character of a string is not a blank. *)
Fixpoint endsNonSpace (s : string) : bool :=
  match s with
  | EmptyString => false
  | String c EmptyString => negb (isSpace c)
  | String _ r => endsNonSpace r
  end.

Definition beginsNonSpace (s : string) : bool :=
  match s with
  | EmptyString => false
  | String c _ => negb (isSpace c)
  end.

Definition isPut (e : Event) : bool :=
  match e with EvPut _ _ _ => true | _ => false end.

(** A configuration, a clock and a service for the examples. *)
Definition sampleSettings : Settings :=
  mkSettings "06:00" "22:00" "5:30" "7:30" "mi" (Some 190) None
    (Some ["Morning Run"; "Afternoon Run"; "Evening Run"]%string) true "monday".

Definition sampleCredentials : Credentials :=
  mkCredentials (Some "id"%string) (Some "secret"%string) (Some "token"%string).


(** Monday, ten past six, and the same day at eleven at night. *)
Definition earlyMonday : DateTime :=
  mkDateTime 6 10 1 1704668400 (fun n => (1704668400 - n * 86400)%Z).

Definition sampleDate (s : string) : option Q := decimalNumber s.

(** Last week's long run, which an earlier run of the program renamed. *)
Definition lastWeekRun : Activity :=
  mkActivity 7 (Some "Easy Run"%string) (Some "Run"%string) (Some "Run"%string)
    (Some 0%Z) (Some 10000) (Some 150) (Some "1704531600"%string).

Definition todaysRun : Activity :=
  mkActivity 9 (Some "Morning Run"%string) (Some "Run"%string) (Some "Run"%string)
    (Some 0%Z) (Some 8000) (Some 151.5) (Some "1704690000"%string).

Definition easyLaps : list Lap :=
  [sampleLap 1 1000 420; sampleLap 2 1000 425].

(** No activity today; the listing of last week holds [lastWeekRun]. *)
Definition quietWorld : World :=
  mkWorld (Ok "access"%string) (fun _ => Ok [])
    (fun _ _ => Failed 404) (fun _ _ => Failed 404)
    (fun _ _ _ _ => Ok [lastWeekRun]) (fun _ _ _ => true).

(** Today's run is listed, its laps are ready, none is at work pace. *)
Definition easyWorld : World :=
  mkWorld (Ok "access"%string) (fun _ => Ok [todaysRun])
    (fun _ _ => Ok todaysRun) (fun _ _ => Ok (JArray easyLaps))
    (fun _ _ _ _ => Ok []) (fun _ _ _ => true).

(** ** Auxiliary definitions of the further properties *)

(** One turn of the loop of [generateWorkoutDescription] that builds the
    reps, and the header line it forms from them. *)
Definition repStep (isWork : Lap -> bool) (reps : list Rep) (seg : Lap) : list Rep :=
  if isWork seg then (reps ++ [mkRep seg 0])%list
  else match reps with
       | [] => reps
       | _ => addRestToLast reps (moving_time seg)
       end.

Definition repTimes (reps : list Rep) : list Q :=
  map (fun rep => snapToMinuteIfClose (moving_time (fast rep)) defaultTolerance) reps.

Definition workoutHeader (unitSystem : string) (reps : list Rep) : string :=
  (formatDuration (median (repTimes reps)) ++ " x "
   ++ string_of_Z (Z.of_nat (List.length reps))
   ++ " (avg "
   ++ formatPace (fold_left (fun sum rep => fl (sum + distance (fast rep))) reps 0)
        (sumQ (repTimes reps)) unitSystem
   ++ ")")%string.

(** Whether every character of a string is a digit. *)
Fixpoint allDigits (s : string) : bool :=
  match s with
  | EmptyString => true
  | String c r => (isDigit c && allDigits r)%bool
  end.


(** The number of reads in a trace: listings, details, laps. *)
Fixpoint countReads (tr : Trace) : nat :=
  match tr with
  | [] => O
  | EvListToday _ _ :: r => S (countReads r)
  | EvDetail _ _ :: r => S (countReads r)
  | EvLaps _ _ :: r => S (countReads r)
  | EvWeekPage _ _ _ _ :: r => S (countReads r)
  | _ :: r => countReads r
  end.

(** [settings.retryPolicy?.maxReadsPerRun ?? 90]. *)
Definition configuredMaxReads (settings : Settings) : Q :=
  orElse (match retryPolicy_ settings with
          | Some p => maxReadsPerRun p
          | None => None
          end) 90.

(** Whether every write of the trace carries a name that
    [isAlreadyRenamed] recognises. *)
Fixpoint putsMarked (tr : Trace) : bool :=
  match tr with
  | [] => true
  | EvPut _ payload _ :: r => (isAlreadyRenamed (upd_name payload) && putsMarked r)%bool
  | _ :: r => putsMarked r
  end.

(** The bound on the reads of a run, and the invariant of its loops: the
    reads of the trace are counted in [readsUsed] and are within the
    bound. *)
Definition readCap (maxReads : Q) : Z := Z.max 1 (Qceiling maxReads).

Definition withinReadBudget (maxReads : Q) (readsUsed : Z) (tr : Trace) : Prop :=
  (Z.of_nat (countReads tr) <= readsUsed)%Z /\
  (Z.of_nat (countReads tr) <= readCap maxReads)%Z.

(** The start time of an activity, where its [start_date] parses. *)
Definition startTime (dateTime : string -> option Q) (a : Activity) : option Q :=
  match start_date a with
  | Some s => dateTime s
  | None => None
  end.

Definition isRefresh (e : Event) : bool :=
  match e with EvRefresh _ => true | _ => false end.

(** The events of the poller: laps requests and sleeps. *)
Definition isPollEvent (e : Event) : bool :=
  match e with EvLaps _ _ => true | EvSleep _ => true | _ => false end.

Definition isWeekPage (e : Event) : bool :=
  match e with EvWeekPage _ _ _ _ => true | _ => false end.

(** What a part of the run adds in front of the trace: no token refresh,
    and [n] writes at most. *)
Definition addsQuietly (n : nat) (tr tr' : Trace) : Prop :=
  exists ext, tr' = (ext ++ tr)%list /\
              forallb (fun e => negb (isRefresh e)) ext = true /\
              (countPuts ext <= n)%nat.

(** Whether a listed activity has the id [id] and passes the tests of the
    loop of [main] on the listing: it looks like a run, is not already
    renamed and carries a default name. *)
Definition eligibleSummary (defaults : list string) (id : Z) (s : Activity) : bool :=
  ((act_id s =? id)%Z && isRun s && negb (isAlreadyRenamed (act_name s))
   && isDefaultName (act_name s) defaults)%bool.

(** Every details request of the trace is for such an activity of the
    listing. *)
Fixpoint detailReadsEligible (defaults : list string) (activities : list Activity)
  (tr : Trace) : bool :=
  match tr with
  | [] => true
  | EvDetail id _ :: r =>
      (existsb (eligibleSummary defaults id) activities
       && detailReadsEligible defaults activities r)%bool
  | _ :: r => detailReadsEligible defaults activities r
  end.

(** Whether an event is a successful read of the details of activity
    [id] that shows no race and a default name. *)
Definition showsVetted (defaults : list string) (id : Z) (e : Event) : bool :=
  match e with
  | EvDetail _ (Ok detail) =>
      ((act_id detail =? id)%Z && negb (isRace detail)
       && isDefaultName (act_name detail) defaults)%bool
  | _ => false
  end.

(** Every laps request and every write of the trace comes after such a
    read of the activity it targets. *)
Fixpoint pollsVetted (defaults : list string) (tr : Trace) : bool :=
  match tr with
  | [] => true
  | EvLaps id _ :: earlier =>
      (existsb (showsVetted defaults id) earlier && pollsVetted defaults earlier)%bool
  | EvPut id _ _ :: earlier =>
      (existsb (showsVetted defaults id) earlier && pollsVetted defaults earlier)%bool
  | _ :: earlier => pollsVetted defaults earlier
  end.

(** Whether a string holds no character [c]. *)
Fixpoint lacksChar (c : ascii) (s : string) : bool :=
  match s with
  | EmptyString => true
  | String a r => (negb (Ascii.eqb a c) && lacksChar c r)%bool
  end.

(** * The rounding to a double *)

Lemma pow2_pos (z : Z) : 0 < 2 ^ z.
Proof. apply Qpower_0_lt. reflexivity. Qed.

Lemma pow2_succ (z : Z) : 2 ^ (z + 1) == 2 * 2 ^ z.
Proof. rewrite Qpower_plus by discriminate. change (2 ^ 1) with 2. ring. Qed.

Lemma pow2_pred (z : Z) : 2 * 2 ^ (z - 1) == 2 ^ z.
Proof. rewrite <- pow2_succ. now replace (z - 1 + 1)%Z with z by lia. Qed.

Lemma pow2_inject (a : Z) : (0 <= a)%Z -> inject_Z (2 ^ a) == 2 ^ a.
Proof. intros Ha. now rewrite Zpower_Qpower. Qed.

Lemma pow2_cancel (a : Z) : 2 ^ a * 2 ^ (- a) == 1.
Proof.
  rewrite <- Qpower_plus by discriminate.
  now replace (a + - a)%Z with 0%Z by lia.
Qed.

(** The bounds of [Z.log2], on rationals. *)
Lemma log2_bounds (n : Z) :
  (0 < n)%Z -> 2 ^ Z.log2 n <= inject_Z n /\ inject_Z n < 2 * 2 ^ Z.log2 n.
Proof.
  intros Hn. destruct (Z.log2_spec n Hn) as [Hlo Hhi].
  pose proof (Z.log2_nonneg n) as H0.
  rewrite <- pow2_succ, <- !pow2_inject by lia.
  rewrite <- Zle_Qle, <- Zlt_Qlt. unfold Z.succ in Hhi. auto.
Qed.

Lemma ilog2_spec (q : Q) : 0 < q -> 2 ^ ilog2 q <= q /\ q < 2 ^ (ilog2 q + 1).
Proof.
  intros Hq. unfold ilog2.
  set (a := Z.log2 (Qnum q)). set (b := Z.log2 (Zpos (Qden q))).
  assert (Hn : (0 < Qnum q)%Z).
  { destruct q as [n d]. unfold Qlt in Hq. simpl in *. lia. }
  destruct (log2_bounds (Qnum q) Hn) as [Hn1 Hn2]. fold a in Hn1, Hn2.
  destruct (log2_bounds (Zpos (Qden q)) ltac:(lia)) as [Hd1 Hd2]. fold b in Hd1, Hd2.
  assert (Hqe : q == inject_Z (Qnum q) / inject_Z (Zpos (Qden q))).
  { destruct q as [n d]. apply Qmake_Qdiv. }
  set (N := inject_Z (Qnum q)) in *. set (D := inject_Z (Zpos (Qden q))) in *.
  pose proof (pow2_pos a) as Ha. pose proof (pow2_pos b) as Hb.
  assert (HD : 0 < D) by lra.
  assert (Hab : 2 ^ (a - b) == 2 ^ a / 2 ^ b) by (apply Qpower_minus; discriminate).
  destruct (Qle_bool (2 ^ (a - b)) q) eqn:Hc.
  - apply Qle_bool_iff in Hc. split; [exact Hc|].
    rewrite pow2_succ, Hab, Hqe.
    apply Qlt_shift_div_r; [exact HD|].
    setoid_replace (2 * (2 ^ a / 2 ^ b) * D) with ((2 * 2 ^ a) * (D / 2 ^ b)) by (field; lra).
    assert (H1 : 1 <= D / 2 ^ b) by (apply Qle_shift_div_l; lra).
    assert (H2 : 0 < 2 * 2 ^ a) by lra.
    nra.
  - assert (Hlt : q < 2 ^ (a - b)).
    { destruct (Qlt_le_dec q (2 ^ (a - b))) as [H | H]; [exact H|].
      apply Qle_bool_iff in H. congruence. }
    replace (a - b - 1 + 1)%Z with (a - b)%Z by lia.
    split; [|exact Hlt].
    assert (Hp : 2 ^ (a - b - 1) == 2 ^ a / (2 * 2 ^ b)).
    { pose proof (pow2_pred (a - b)) as Hp. rewrite Hab in Hp.
      setoid_replace (2 ^ (a - b - 1)) with ((2 * 2 ^ (a - b - 1)) / 2) by (field; lra).
      rewrite Hp. field. lra. }
    rewrite Hp, Hqe.
    apply Qle_shift_div_l; [exact HD|].
    setoid_replace (2 ^ a / (2 * 2 ^ b) * D) with (2 ^ a * (D / (2 * 2 ^ b))) by (field; lra).
    assert (H1 : D / (2 * 2 ^ b) <= 1) by (apply Qle_shift_div_r; lra).
    nra.
Qed.

Lemma roundHalfEven_bounds (x : Q) :
  (Qfloor x <= roundHalfEven x <= Qfloor x + 1)%Z.
Proof.
  unfold roundHalfEven.
  destruct (Qcompare (x - inject_Z (Qfloor x)) (1 # 2)); [destruct (Z.even (Qfloor x))|..]; lia.
Qed.

Lemma roundHalfEven_Z (x : Q) (z : Z) : x == inject_Z z -> roundHalfEven x = z.
Proof.
  intros Hx. unfold roundHalfEven.
  rewrite (Qfloor_comp _ _ Hx), Qfloor_Z.
  assert (Hc : Qcompare (x - inject_Z z) (1 # 2) = Lt).
  { rewrite <- Qlt_alt. lra. }
  now rewrite Hc.
Qed.

Lemma flPos_pos (q : Q) : 0 < q -> 0 < flPos q.
Proof.
  intros Hq. unfold flPos.
  destruct (ilog2_spec q Hq) as [Hlo _].
  set (e := ilog2 q) in *.
  pose proof (pow2_pos (e - 52)) as Hp.
  assert (Hx : 1 <= q * 2 ^ (52 - e)).
  { pose proof (pow2_cancel e) as Hc. pose proof (pow2_pos (- e)) as Hn.
    assert (H52 : 2 ^ (52 - e) == 2 ^ 52 * 2 ^ (- e)).
    { rewrite <- Qpower_plus by discriminate. now replace (52 + - e)%Z with (52 - e)%Z by lia. }
    rewrite H52.
    assert (H1 : 1 <= q * 2 ^ (- e)) by nra.
    assert (H2 : 1 <= 2 ^ 52) by discriminate.
    setoid_replace (q * (2 ^ 52 * 2 ^ (- e))) with ((q * 2 ^ (- e)) * 2 ^ 52) by ring.
    nra. }
  assert (Hr : (1 <= roundHalfEven (q * 2 ^ (52 - e)))%Z).
  { pose proof (roundHalfEven_bounds (q * 2 ^ (52 - e))) as Hb.
    pose proof (Qfloor_resp_le _ _ Hx) as Hf. change (Qfloor 1) with 1%Z in Hf. lia. }
  apply Qmult_lt_0_compat; [|exact Hp].
  change 0 with (inject_Z 0). rewrite <- Zlt_Qlt. lia.
Qed.

Lemma fl_zero (q : Q) : q == 0 -> fl q = 0.
Proof. intros Hq. unfold fl. apply Qeq_alt in Hq. now rewrite Hq. Qed.

Lemma fl_pos (q : Q) : 0 < q -> 0 < fl q.
Proof.
  intros Hq. unfold fl.
  assert (Hc : Qcompare q 0 = Gt) by now apply Qgt_alt.
  rewrite Hc. now apply flPos_pos.
Qed.

Lemma fl_neg (q : Q) : q < 0 -> fl q < 0.
Proof.
  intros Hq. unfold fl.
  assert (Hc : Qcompare q 0 = Lt) by now apply Qlt_alt.
  rewrite Hc. assert (H : 0 < flPos (- q)) by (apply flPos_pos; lra). lra.
Qed.

Lemma fl_nonneg (q : Q) : 0 <= q -> 0 <= fl q.
Proof.
  intros Hq. apply Qle_lt_or_eq in Hq. destruct Hq as [Hq | Hq].
  - apply Qlt_le_weak. now apply fl_pos.
  - rewrite fl_zero by (symmetry; exact Hq). apply Qle_refl.
Qed.

Lemma fl_pos_iff (q : Q) : 0 < fl q <-> 0 < q.
Proof.
  split; [|apply fl_pos].
  intros H. destruct (Qlt_le_dec 0 q) as [Hq | Hq]; [exact Hq|].
  apply Qle_lt_or_eq in Hq. destruct Hq as [Hq | Hq].
  - apply fl_neg in Hq. lra.
  - rewrite (fl_zero q Hq) in H. lra.
Qed.

Lemma fl_nonneg_iff (q : Q) : 0 <= fl q <-> 0 <= q.
Proof.
  split; [|apply fl_nonneg].
  intros H. destruct (Qlt_le_dec q 0) as [Hq | Hq]; [|exact Hq].
  apply fl_neg in Hq. lra.
Qed.

(** A whole number below [2^53] is a double. *)
Lemma fl_whole (q : Q) (k : Z) :
  q == inject_Z k -> (0 <= k < 2 ^ 53)%Z -> fl q == q.
Proof.
  intros Hq [Hk0 Hk].
  destruct (Z.eq_dec k 0) as [-> | Hne].
  - rewrite (fl_zero q Hq). now rewrite Hq.
  - assert (Hpos : 0 < q).
    { rewrite Hq. change 0 with (inject_Z 0). rewrite <- Zlt_Qlt. lia. }
    unfold fl.
    assert (Hc : Qcompare q 0 = Gt) by now apply Qgt_alt.
    rewrite Hc. unfold flPos.
    destruct (ilog2_spec q Hpos) as [Hlo Hhi].
    set (e := ilog2 q) in *.
    assert (He : (0 <= e <= 52)%Z).
    { split.
      - assert (H : 2 ^ 0 < 2 ^ (e + 1)).
        { apply Qle_lt_trans with q; [|exact Hhi].
          rewrite Hq. change (2 ^ 0) with (inject_Z 1). rewrite <- Zle_Qle. lia. }
        apply (Qpower_lt_compat_l_inv 2 0 (e + 1)) in H; [lia | reflexivity].
      - assert (H : 2 ^ e < 2 ^ 53).
        { apply Qle_lt_trans with q; [exact Hlo|].
          rewrite Hq, <- (pow2_inject 53) by lia. rewrite <- Zlt_Qlt. exact Hk. }
        apply (Qpower_lt_compat_l_inv 2 e 53) in H; [lia | reflexivity]. }
    assert (Hx : q * 2 ^ (52 - e) == inject_Z (k * 2 ^ (52 - e))).
    { rewrite inject_Z_mult, pow2_inject by lia. now rewrite Hq. }
    rewrite (roundHalfEven_Z _ _ Hx), inject_Z_mult, pow2_inject by lia.
    rewrite <- Hq, <- Qmult_assoc.
    replace (e - 52)%Z with (- (52 - e))%Z by lia.
    rewrite pow2_cancel. ring.
Qed.

Lemma roundHalfEven_error (x : Q) : Qabs (inject_Z (roundHalfEven x) - x) <= 1 # 2.
Proof.
  pose proof (Qfloor_le x) as Hlo. pose proof (Qlt_floor x) as Hhi.
  rewrite inject_Z_plus in Hhi. change (inject_Z 1) with 1 in Hhi.
  unfold roundHalfEven.
  destruct (Qcompare (x - inject_Z (Qfloor x)) (1 # 2)) eqn:Hc.
  - apply Qeq_alt in Hc.
    destruct (Z.even (Qfloor x));
      [|rewrite inject_Z_plus; change (inject_Z 1) with 1]; apply Qabs_Qle_condition; lra.
  - apply Qlt_alt in Hc. apply Qabs_Qle_condition. lra.
  - apply Qgt_alt in Hc. rewrite inject_Z_plus. change (inject_Z 1) with 1.
    apply Qabs_Qle_condition. lra.
Qed.

(** The rounding moves a number by half a unit in the last place at
    most. *)
Lemma fl_error (q : Q) : 0 < q -> Qabs (fl q - q) <= q * 2 ^ (-53).
Proof.
  intros Hq. unfold fl.
  assert (Hc : Qcompare q 0 = Gt) by now apply Qgt_alt.
  rewrite Hc. unfold flPos.
  destruct (ilog2_spec q Hq) as [Hlo _].
  set (e := ilog2 q) in *.
  set (y := q * 2 ^ (52 - e)).
  pose proof (roundHalfEven_error y) as Hr.
  apply Qabs_Qle_condition in Hr.
  pose proof (pow2_pos (e - 52)) as Hp.
  assert (Hy : y * 2 ^ (e - 52) == q).
  { unfold y. rewrite <- Qmult_assoc.
    replace (e - 52)%Z with (- (52 - e))%Z by lia. rewrite pow2_cancel. ring. }
  assert (Hh : (1 # 2) * 2 ^ (e - 52) <= q * 2 ^ (-53)).
  { assert (He : 2 ^ (e - 52) == 2 ^ e * 2 ^ (-52)).
    { rewrite <- Qpower_plus by discriminate.
      now replace (e + -52)%Z with (e - 52)%Z by lia. }
    rewrite He.
    setoid_replace ((1 # 2) * (2 ^ e * 2 ^ (-52))) with (2 ^ e * 2 ^ (-53))
      by (change (2 ^ (-52)) with (/ 2 ^ 52); change (2 ^ (-53)) with (/ 2 ^ 53);
          field; split; discriminate).
    apply Qmult_le_compat_r; [exact Hlo | discriminate]. }
  set (r := inject_Z (roundHalfEven y)) in *.
  apply Qabs_Qle_condition.
  split; nra.
Qed.

Lemma Qfloor_unique (y : Q) (n : Z) :
  inject_Z n <= y -> y < inject_Z n + 1 -> Qfloor y = n.
Proof.
  intros Hlo Hhi.
  pose proof (Qfloor_resp_le _ _ Hlo) as H1. rewrite Qfloor_Z in H1.
  pose proof (Qfloor_le y) as H2.
  assert (H3 : inject_Z (Qfloor y) < inject_Z (n + 1)).
  { rewrite inject_Z_plus. change (inject_Z 1) with 1. lra. }
  rewrite <- Zlt_Qlt in H3. lia.
Qed.

(** [Math.floor(t / 60)] on a whole number of seconds up to [2^46]: the
    rounded quotient has the floor of the exact one. *)
Lemma floor_div_60 (t : Z) :
  (0 <= t <= 2 ^ 46)%Z -> jsFloor (fl (inject_Z t / 60)) = (t / 60)%Z.
Proof.
  intros [Ht0 Ht]. unfold jsFloor.
  pose proof (Z.div_mod t 60 ltac:(lia)) as Hdiv.
  pose proof (Z.mod_pos_bound t 60 ltac:(lia)) as Hmod.
  set (n := (t / 60)%Z) in *. set (r := (t mod 60)%Z) in *.
  assert (Hx : inject_Z t / 60 == inject_Z n + inject_Z r / 60).
  { rewrite Hdiv, inject_Z_plus, inject_Z_mult. change (inject_Z 60) with 60. field. }
  assert (Hn : (0 <= n < 2 ^ 53)%Z) by lia.
  destruct (Z.eq_dec r 0) as [Hr | Hr].
  - assert (Hw : inject_Z t / 60 == inject_Z n).
    { rewrite Hx, Hr. change (inject_Z 0) with 0. field. }
    rewrite (Qfloor_comp _ _ (fl_whole _ n Hw Hn)), (Qfloor_comp _ _ Hw).
    apply Qfloor_Z.
  - assert (Hr1 : 1 <= inject_Z r).
    { change 1 with (inject_Z 1). rewrite <- Zle_Qle. lia. }
    assert (Hr2 : inject_Z r <= 59).
    { change 59 with (inject_Z 59). rewrite <- Zle_Qle. lia. }
    assert (Hn0 : 0 <= inject_Z n).
    { change 0 with (inject_Z 0). rewrite <- Zle_Qle. lia. }
    assert (Hd1 : 1 # 60 <= inject_Z r / 60) by (apply Qle_shift_div_l; lra).
    assert (Hd2 : inject_Z r / 60 <= 59 # 60) by (apply Qle_shift_div_r; lra).
    set (d := inject_Z r / 60) in *.
    assert (Hpos : 0 < inject_Z t / 60) by (rewrite Hx; lra).
    assert (Hbig : inject_Z t / 60 <= 2 ^ 46).
    { apply Qle_shift_div_r; [reflexivity|].
      apply Qle_trans with (2 ^ 46); [|discriminate].
      rewrite <- (pow2_inject 46) by lia. now rewrite <- Zle_Qle. }
    pose proof (fl_error _ Hpos) as He. apply Qabs_Qle_condition in He.
    assert (Hs : inject_Z t / 60 * 2 ^ (-53) <= 1 # 128).
    { apply Qle_trans with (2 ^ 46 * 2 ^ (-53)); [|discriminate].
      apply Qmult_le_compat_r; [exact Hbig | discriminate]. }
    apply Qfloor_unique; lra.
Qed.

Lemma fl_lower (q : Q) : 0 <= q -> (1 # 2) * q <= fl q.
Proof.
  intros Hq. apply Qle_lt_or_eq in Hq. destruct Hq as [Hq | Hq].
  - pose proof (fl_error q Hq) as He. apply Qabs_Qle_condition in He.
    assert (Hs : q * 2 ^ (-53) <= (1 # 2) * q).
    { rewrite (Qmult_comm (1 # 2)). apply Qmult_le_l; [exact Hq | discriminate]. }
    lra.
  - rewrite (fl_zero q) by (symmetry; exact Hq). rewrite <- Hq. discriminate.
Qed.

Lemma fl_upper (q : Q) : 0 <= q -> fl q <= 2 * q.
Proof.
  intros Hq. apply Qle_lt_or_eq in Hq. destruct Hq as [Hq | Hq].
  - pose proof (fl_error q Hq) as He. apply Qabs_Qle_condition in He.
    assert (Hs : q * 2 ^ (-53) <= q).
    { rewrite <- (Qmult_1_r q) at 2. apply Qmult_le_l; [exact Hq | discriminate]. }
    lra.
  - rewrite (fl_zero q) by (symmetry; exact Hq). rewrite <- Hq. discriminate.
Qed.

(** A number from [0] to [2^100] is within the doubles. *)
Lemma isFinite_small (x : Q) : 0 <= x -> x <= 2 ^ 100 -> isFinite x = true.
Proof.
  intros H0 Hx. unfold isFinite. apply Qle_bool_iff.
  rewrite Qabs_pos by exact H0.
  apply Qle_trans with (2 ^ 100); [exact Hx|].
  vm_compute. discriminate.
Qed.

(** [fl] against the doubles of the machine: the quotients of whole
    numbers, and the sums, products and quotients of those quotients. *)
Example fl_quotients :
  forallb (fun nd => sameValue (doubleQuotient nd) (fl (inject_Z (fst nd) / inject_Z (snd nd))))
    [(4001, 10); (4002, 10); (4005, 10); (1609344, 1000); (115, 200); (73, 60); (72, 60);
     (1150, 1000); (1, 3); (2, 3); (1, 10); (9007199254740993, 1); (9007199254740995, 1);
     (1, 4611686018427387903)]%Z
  = true.
Proof. vm_compute. reflexivity. Qed.

Example fl_operations :
  forallb (fun ab =>
             let x := doubleQuotient (fst ab) in
             let y := doubleQuotient (snd ab) in
             let a := fl (inject_Z (fst (fst ab)) / inject_Z (snd (fst ab))) in
             let b := fl (inject_Z (fst (snd ab)) / inject_Z (snd (snd ab))) in
             (sameValue (PrimFloat.add x y) (fl (a + b))
              && sameValue (PrimFloat.mul x y) (fl (a * b))
              && sameValue (PrimFloat.div x y) (fl (a / b)))%bool)
    [((4001, 10), (4002, 10)); ((8003, 10), (4005, 10)); ((4002, 10), (4005, 10));
     ((115, 200), (100, 1)); ((73, 60), (400, 1000)); ((36, 60), (100, 1000));
     ((126, 60), (350, 1000)); ((1, 3), (1, 10)); ((22, 60), (160, 1000));
     ((1, 10), (2, 10))]%Z
  = true.
Proof. vm_compute. reflexivity. Qed.

(** * Properties *)

(** ** The scenarios of the specification, run on the model *)

Example scenario_A :
  generateWorkoutDescription
    [sampleLap 1 400 90; sampleLap 2 400 91; sampleLap 3 400 500] sampleRange "mi"
  = Some (mkUpdate (Some "3:00 x 1 (avg 6:02 min/mi)"%string)
                   (Some "1) 3:00 @ 6:02 min/mi + CD"%string)).
Proof. vm_compute. reflexivity. Qed.

Example scenario_C :
  snapToMinuteIfClose 301 2 = 300 /\ snapToMinuteIfClose 305 2 = 305.
Proof. split; reflexivity. Qed.

Example scenario_D :
  formatWeekTotalSuffix (5000 + 3000 + 2000) "km" = "(Week Total: 10.0 km)"%string.
Proof. vm_compute. reflexivity. Qed.

(** Values on which the rounding of the double operations shows: a lap
    of 400 m in 72 s runs at [2.9999999999999996] minutes per kilometre,
    [(115 / 200) * 100] is [57.49999999999999], and [1150 / 1000] lies
    below [1.15]. *)
Example rounding_of_doubles :
  qualifies (mkPaceRange 3 4) "km" (sampleLap 1 400 72) = false /\
  formatAvgHrDescription 115 (Some 200) = "Avg HR: 115 bpm (57% max)"%string /\
  formatPace 400 73 "km" = "3:02 min/km"%string /\
  formatPace 160 22 "km" = "2:18 min/km"%string /\
  formatWeekTotalSuffix 1150 "km" = "(Week Total: 1.1 km)"%string.
Proof. vm_compute. repeat split; reflexivity. Qed.

(** Two laps within 5:00 to 6:00 per kilometre whose merged segment is
    not: its pace is [6.000000000000001]. *)
Example merged_segment_outside :
  let range := mkPaceRange 5 6 in
  let laps := [sampleLap 1 100 36; sampleLap 2 250 90] in
  forallb (qualifies range "km") laps = true /\
  forallb (qualifies range "km") (mergeLapsByPace range "km" laps) = false /\
  generateWorkoutDescription laps range "km" = None.
Proof. vm_compute. repeat split; reflexivity. Qed.

Example already_renamed_markers :
  isAlreadyRenamed (Some "6:30 x 5 (avg 6:12 min/mi)"%string) = true /\
  isAlreadyRenamed (Some "Easy Run"%string) = true /\
  isAlreadyRenamed (Some "Long one (Week Total: 40.2 km)"%string) = true /\
  isAlreadyRenamed (Some "Morning Run"%string) = false.
Proof. repeat split; reflexivity. Qed.

(** ** The lap merger *)

Section MergeFacts.

Variable paceRange : PaceRange.
Variable unitSystem : string.

Local Notation "'qual'" := (qualifies paceRange unitSystem).
Local Notation "'loop'" := (mergeLoop paceRange unitSystem).

Lemma flushGroup_fst (merged_ group : list Lap) :
  fst (flushGroup merged_ group) = (merged_ ++ collapse group)%list.
Proof.
  destruct group as [|g0 rest]; simpl.
  - now rewrite app_nil_r.
  - reflexivity.
Qed.

Lemma flushGroup_snd (merged_ group : list Lap) : snd (flushGroup merged_ group) = [].
Proof. destruct group; reflexivity. Qed.

Lemma flushGroup_eq (merged_ group : list Lap) :
  flushGroup merged_ group = ((merged_ ++ collapse group)%list, []).
Proof.
  rewrite (surjective_pairing (flushGroup merged_ group)).
  now rewrite flushGroup_fst, flushGroup_snd.
Qed.

(** What is already pushed stays in front of what the loop pushes later. *)
Lemma mergeLoop_acc (laps merged_ group : list Lap) :
  loop laps merged_ group = (merged_ ++ loop laps [] group)%list.
Proof.
  revert merged_ group.
  induction laps as [|lap rest IH]; intros merged_ group; simpl.
  - now rewrite !flushGroup_fst.
  - destruct (qual lap).
    + apply IH.
    + rewrite !flushGroup_eq. simpl.
      rewrite (IH ((merged_ ++ collapse group) ++ [lap])%list).
      rewrite (IH (collapse group ++ [lap])%list).
      now rewrite <- !app_assoc.
Qed.

(** The equations of the loop, by cases on the next lap. *)
Lemma mergeLoop_nil (group : list Lap) : loop [] [] group = collapse group.
Proof. simpl. now rewrite flushGroup_fst. Qed.

Lemma mergeLoop_qual (lap : Lap) (rest group : list Lap) :
  qual lap = true -> loop (lap :: rest) [] group = loop rest [] (group ++ [lap]).
Proof. intros H. simpl. now rewrite H. Qed.

Lemma mergeLoop_other (lap : Lap) (rest group : list Lap) :
  qual lap = false ->
  loop (lap :: rest) [] group = (collapse group ++ lap :: loop rest [] [])%list.
Proof.
  intros H. simpl. rewrite H, flushGroup_eq. simpl.
  rewrite mergeLoop_acc. now rewrite <- app_assoc.
Qed.

Lemma collapse_short (group : list Lap) :
  collapse group = [] \/ exists s, collapse group = [s].
Proof.
  destruct group as [|a [|b r]]; simpl; eauto.
Qed.

Lemma separated_after_other (lap : Lap) (l : list Lap) :
  qual lap = false -> separated paceRange unitSystem l ->
  separated paceRange unitSystem (lap :: l).
Proof.
  intros H Hl. destruct l; simpl; auto.
Qed.

Lemma mergeLoop_separated (laps group : list Lap) :
  separated paceRange unitSystem (loop laps [] group).
Proof.
  revert group.
  induction laps as [|lap rest IH]; intros group.
  - rewrite mergeLoop_nil.
    destruct (collapse_short group) as [-> | [s ->]]; simpl; auto.
  - destruct (qual lap) eqn:Hq.
    + rewrite mergeLoop_qual by assumption. apply IH.
    + rewrite mergeLoop_other by assumption.
      pose proof (separated_after_other lap _ Hq (IH [])) as Hs.
      destruct (collapse_short group) as [-> | [s ->]]; [exact Hs|].
      simpl. split; [now right | exact Hs].
Qed.

(** On a separated list the loop pushes every element as it is. *)
Lemma mergeLoop_fixed (l group : list Lap) :
  separated paceRange unitSystem (group ++ l) ->
  group = [] \/ (exists x, group = [x] /\ qual x = true) ->
  loop l [] group = (group ++ l)%list.
Proof.
  revert group.
  induction l as [|a r IH]; intros group Hs Hg.
  - rewrite mergeLoop_nil, app_nil_r.
    destruct Hg as [-> | (x & -> & _)]; reflexivity.
  - destruct (qual a) eqn:Hq.
    + rewrite mergeLoop_qual by assumption.
      destruct Hg as [-> | (x & -> & Hx)].
      * simpl. apply (IH [a]); [exact Hs | right; eauto].
      * simpl in Hs. destruct Hs as [[Hx' | Ha] _]; congruence.
    + rewrite mergeLoop_other by assumption.
      assert (Hr : separated paceRange unitSystem r).
      { destruct Hg as [-> | (x & -> & _)]; simpl in Hs.
        - destruct r; [exact I | apply Hs].
        - destruct Hs as [_ Hs]. destruct r; [exact I | apply Hs]. }
      rewrite (IH [] Hr (or_introl eq_refl)).
      destruct Hg as [-> | (x & -> & _)]; reflexivity.
Qed.

Lemma mergeLapsByPace_fixed (l : list Lap) :
  separated paceRange unitSystem l -> mergeLapsByPace paceRange unitSystem l = l.
Proof.
  intros Hs. unfold mergeLapsByPace.
  now rewrite (mergeLoop_fixed l [] Hs (or_introl eq_refl)).
Qed.

Local Notation "'gloop'" := (groupLoop paceRange unitSystem).

Lemma groupLoop_acc (laps : list Lap) (groups : list (list Lap)) (group : list Lap) :
  gloop laps groups group = (groups ++ gloop laps [] group)%list.
Proof.
  revert groups group.
  induction laps as [|lap rest IH]; intros groups group; simpl.
  - destruct group; [now rewrite app_nil_r | reflexivity].
  - destruct (qual lap).
    + apply IH.
    + rewrite (IH (_ ++ [[lap]])%list).
      rewrite (IH ((match group with [] => [] | _ => [] ++ [group] end) ++ [[lap]])%list).
      destruct group; simpl; now rewrite <- ?app_assoc.
Qed.

(** The groups, in order, are the laps: every lap is in one group, once. *)
Lemma groupLoop_concat (laps group : list Lap) :
  List.concat (gloop laps [] group) = (group ++ laps)%list.
Proof.
  revert group.
  induction laps as [|lap rest IH]; intros group; simpl.
  - destruct group; simpl; now rewrite ?app_nil_r.
  - destruct (qual lap).
    + rewrite IH. now rewrite <- app_assoc.
    + rewrite groupLoop_acc, concat_app, IH.
      destruct group; simpl; rewrite ?app_nil_r, <- ?app_assoc; reflexivity.
Qed.

(** The output is the groups, each collapsed. *)
Lemma mergeLoop_groups (laps group : list Lap) :
  loop laps [] group = flat_map collapse (gloop laps [] group).
Proof.
  revert group.
  induction laps as [|lap rest IH]; intros group.
  - rewrite mergeLoop_nil. simpl.
    destruct group; simpl; now rewrite ?app_nil_r.
  - destruct (qual lap) eqn:Hq.
    + rewrite mergeLoop_qual by assumption. simpl. rewrite Hq. apply IH.
    + rewrite mergeLoop_other by assumption. simpl. rewrite Hq.
      rewrite groupLoop_acc, flat_map_app, IH.
      destruct group as [|g0 [|g1 gs]]; simpl; rewrite ?app_nil_r; reflexivity.
Qed.

(** When every lap qualifies the loop only grows the group. *)
Lemma mergeLoop_all_qualify (laps group : list Lap) :
  Forall (fun lap => qual lap = true) laps ->
  loop laps [] group = collapse (group ++ laps).
Proof.
  revert group.
  induction laps as [|lap rest IH]; intros group Hall.
  - now rewrite mergeLoop_nil, app_nil_r.
  - inversion Hall as [|? ? Hq Hrest]; subst.
    rewrite mergeLoop_qual by assumption.
    rewrite IH by assumption. now rewrite <- app_assoc.
Qed.

Lemma groupLoop_all_qualify (laps group : list Lap) :
  Forall (fun lap => qual lap = true) laps ->
  (group ++ laps)%list <> [] ->
  gloop laps [] group = [(group ++ laps)%list].
Proof.
  revert group.
  induction laps as [|lap rest IH]; intros group Hall Hne.
  - simpl. rewrite app_nil_r in *. destruct group; [congruence | reflexivity].
  - inversion Hall as [|? ? Hq Hrest]; subst.
    simpl. rewrite Hq. rewrite IH; auto.
    + now rewrite <- app_assoc.
    + destruct group; discriminate.
Qed.

End MergeFacts.

Section MergeGroupsFixed.

Variable paceRange : PaceRange.
Variable unitSystem : string.

(** On a separated list every group the loop forms is a single element. *)
Lemma groupLoop_fixed (l group : list Lap) :
  separated paceRange unitSystem (group ++ l) ->
  group = [] \/ (exists x, group = [x] /\ qualifies paceRange unitSystem x = true) ->
  groupLoop paceRange unitSystem l [] group = map (fun seg => [seg]) (group ++ l).
Proof.
  revert group.
  induction l as [|a r IH]; intros group Hs Hg.
  - rewrite app_nil_r. destruct Hg as [-> | (x & -> & _)]; reflexivity.
  - simpl. destruct (qualifies paceRange unitSystem a) eqn:Hq.
    + destruct Hg as [-> | (x & -> & Hx)].
      * simpl. apply (IH [a]); [exact Hs | right; eauto].
      * simpl in Hs. destruct Hs as [[Hx' | Ha] _]; congruence.
    + assert (Hr : separated paceRange unitSystem r).
      { destruct Hg as [-> | (x & -> & _)]; simpl in Hs.
        - destruct r; [exact I | apply Hs].
        - destruct Hs as [_ Hs]. destruct r; [exact I | apply Hs]. }
      rewrite groupLoop_acc, (IH [] Hr (or_introl eq_refl)).
      destruct Hg as [-> | (x & -> & _)]; reflexivity.
Qed.

End MergeGroupsFixed.

(** *** Sums *)

Lemma wholeNumber_iff (x : Q) :
  wholeNumber x = true <-> exists k : Z, (0 <= k)%Z /\ x == inject_Z k.
Proof.
  unfold wholeNumber. rewrite andb_true_iff, Qle_bool_iff, Qeq_bool_iff. split.
  - intros [H0 Hx]. exists (Qfloor x). split; [|exact Hx].
    change 0%Z with (Qfloor 0). now apply Qfloor_resp_le.
  - intros (k & Hk & Hx). split.
    + rewrite Hx. change 0 with (inject_Z 0). now rewrite <- Zle_Qle.
    + now rewrite (Qfloor_comp _ _ Hx), Qfloor_Z.
Qed.

Section WholeSums.

Variable f : Lap -> Q.

Local Notation "'whole'" := (Forall (fun lap => wholeNumber (f lap) = true)).

Lemma exactSum_app (a b : list Lap) :
  exactSum f (a ++ b) == exactSum f a + exactSum f b.
Proof.
  induction a as [|x r IH]; cbn [app exactSum].
  - lra.
  - rewrite IH. lra.
Qed.

Lemma exactSum_whole (l : list Lap) :
  whole l -> exists k : Z, (0 <= k)%Z /\ exactSum f l == inject_Z k.
Proof.
  induction 1 as [|x r Hx _ (kr & Hkr & Hr)].
  - exists 0%Z. split; [lia | reflexivity].
  - apply wholeNumber_iff in Hx. destruct Hx as (kx & Hkx & Hx).
    exists (kx + kr)%Z. split; [lia|].
    cbn [exactSum].
    now rewrite inject_Z_plus, Hx, Hr.
Qed.

Lemma exactSum_nonneg (l : list Lap) : whole l -> 0 <= exactSum f l.
Proof.
  intros Hl. destruct (exactSum_whole l Hl) as (k & Hk & ->).
  change 0 with (inject_Z 0). now rewrite <- Zle_Qle.
Qed.

(** While the running total is whole and below [2^53], no addition of
    the sum rounds. *)
Lemma fold_whole (l : list Lap) :
  whole l ->
  forall (a : Q) (ka : Z),
    a == inject_Z ka -> (0 <= ka)%Z -> a + exactSum f l < 2 ^ 53 ->
    fold_left (fun sum lap => fl (sum + f lap)) l a == a + exactSum f l.
Proof.
  induction 1 as [|x r Hx Hr IH]; intros a ka Ha Hka Hb;
    cbn [fold_left exactSum] in *.
  - lra.
  - pose proof (exactSum_nonneg r Hr) as Hr0.
    apply wholeNumber_iff in Hx. destruct Hx as (kx & Hkx & Hx).
    assert (Hs : a + f x == inject_Z (ka + kx)) by now rewrite inject_Z_plus, Ha, Hx.
    assert (Hfl : fl (a + f x) == a + f x).
    { apply (fl_whole _ (ka + kx)%Z Hs). split; [lia|].
      rewrite Zlt_Qlt, pow2_inject by lia. rewrite <- Hs. lra. }
    rewrite (IH (fl (a + f x)) (ka + kx)%Z).
    + rewrite Hfl. lra.
    + now rewrite Hfl.
    + lia.
    + rewrite Hfl. lra.
Qed.

Lemma sumOf_exact (l : list Lap) :
  whole l -> exactSum f l < 2 ^ 53 -> sumOf f l == exactSum f l.
Proof.
  intros Hl Hb. unfold sumOf.
  rewrite (fold_whole l Hl 0 0%Z); [lra | reflexivity | lia | lra].
Qed.

(** The field is one of those that a merged segment carries as a sum. *)
Hypothesis merged_sum : forall g0 group, f (mergedSegment g0 group) = sumOf f group.

Lemma collapse_exact (group : list Lap) :
  whole group -> exactSum f group < 2 ^ 53 ->
  whole (collapse group) /\ exactSum f (collapse group) == exactSum f group.
Proof.
  intros Hg Hb.
  destruct group as [|g0 [|g1 r]]; [split; [constructor | reflexivity] | split; [exact Hg | reflexivity] |].
  pose proof (sumOf_exact _ Hg Hb) as Hs.
  destruct (exactSum_whole _ Hg) as (k & Hk & Hk').
  unfold collapse. split.
  - constructor; [|constructor].
    apply wholeNumber_iff. exists k. split; [exact Hk|].
    now rewrite merged_sum, Hs.
  - cbn [exactSum] in *. rewrite merged_sum, Hs. lra.
Qed.

Lemma mergeLoop_exact (paceRange : PaceRange) (unitSystem : string) (laps : list Lap) :
  whole laps ->
  forall group,
    whole group -> exactSum f group + exactSum f laps < 2 ^ 53 ->
    whole (mergeLoop paceRange unitSystem laps [] group) /\
    exactSum f (mergeLoop paceRange unitSystem laps [] group)
    == exactSum f group + exactSum f laps.
Proof.
  induction 1 as [|lap rest Hlap Hrest IH]; intros group Hg Hb.
  - rewrite mergeLoop_nil. cbn [exactSum] in *.
    destruct (collapse_exact group Hg ltac:(lra)) as [Hw He].
    split; [exact Hw | rewrite He; lra].
  - cbn [exactSum] in Hb.
    pose proof (exactSum_nonneg rest Hrest) as Hr0.
    pose proof (exactSum_nonneg group Hg) as Hg0.
    assert (Hl0 : 0 <= f lap).
    { apply wholeNumber_iff in Hlap. destruct Hlap as (k & Hk & ->).
      change 0 with (inject_Z 0). now rewrite <- Zle_Qle. }
    destruct (qualifies paceRange unitSystem lap) eqn:Hq.
    + rewrite mergeLoop_qual by assumption.
      assert (Hg' : whole (group ++ [lap])).
      { apply Forall_app. split; [exact Hg | now repeat constructor]. }
      assert (He : exactSum f (group ++ [lap]) == exactSum f group + f lap).
      { rewrite exactSum_app. cbn [exactSum]. lra. }
      destruct (IH (group ++ [lap])%list Hg') as [Hw Hs]; [rewrite He; lra|].
      split; [exact Hw|].
      rewrite Hs, He. cbn [exactSum]. lra.
    + rewrite mergeLoop_other by assumption.
      destruct (collapse_exact group Hg ltac:(lra)) as [Hw He].
      destruct (IH [] (Forall_nil _)) as [Hw' Hs'].
      { cbn [exactSum]. lra. }
      split.
      * apply Forall_app. split; [exact Hw | now constructor].
      * rewrite exactSum_app, He. cbn [exactSum].
        rewrite Hs'. cbn [exactSum]. lra.
Qed.

(** On whole numbers with a total below [2^53] the sums of the merger
    round nowhere, and the total over its output is the total over its
    input. *)
Lemma mergeLapsByPace_exact (paceRange : PaceRange) (unitSystem : string)
  (laps : list Lap) :
  whole laps -> exactSum f laps < 2 ^ 53 ->
  sumOf f (mergeLapsByPace paceRange unitSystem laps) == exactSum f laps /\
  sumOf f laps == exactSum f laps.
Proof.
  intros Hl Hb.
  destruct (mergeLoop_exact paceRange unitSystem laps Hl [] (Forall_nil _)) as [Hw Hs].
  { cbn [exactSum]. lra. }
  cbn [exactSum] in Hs.
  split; [|now apply sumOf_exact].
  unfold mergeLapsByPace. rewrite sumOf_exact; [rewrite Hs; lra | exact Hw | rewrite Hs; lra].
Qed.

End WholeSums.

(** *** Pace *)

Lemma metersPerMile_positive : 0 < metersPerMile.
Proof. unfold metersPerMile. apply fl_pos. reflexivity. Qed.

Lemma unit_positive (meters : Q) (unitSystem : string) :
  0 < meters ->
  0 < (if String.eqb unitSystem "mi" then fl (meters / metersPerMile)
       else fl (meters / 1000)).
Proof.
  intros Hm. pose proof metersPerMile_positive as Hc.
  destruct (String.eqb unitSystem "mi"); apply fl_pos; apply Qlt_shift_div_l; lra.
Qed.

Lemma quotient_sign (a b : Q) : 0 < b -> (0 <= a / b <-> 0 <= a) /\ (0 < a / b <-> 0 < a).
Proof.
  intros Hb.
  assert (Hi : 0 < / b) by now apply Qinv_lt_0_compat.
  unfold Qdiv. split; split; intros H; nra.
Qed.

Lemma pace_sign (seconds units : Q) :
  0 < units -> 0 <= seconds ->
  0 <= fl (fl (seconds / 60) / units) /\
  (0 < fl (fl (seconds / 60) / units) <-> 0 < seconds).
Proof.
  intros Hu Hs.
  destruct (quotient_sign (fl (seconds / 60)) units Hu) as [Hq0 Hq1].
  destruct (quotient_sign seconds 60 ltac:(reflexivity)) as [Hs0 Hs1].
  split.
  - apply fl_nonneg, Hq0, fl_nonneg, Hs0, Hs.
  - rewrite fl_pos_iff, Hq1, fl_pos_iff. exact Hs1.
Qed.

(** ** The claims on the merger and on the pace *)

(** C1.  Running [mergeLapsByPace] on its own output, with the same pace
    range ([0 < fastest <= slowest]) and unit, returns that output
    unchanged; and the groups it forms there are the segments of the
    output one by one, so no boundary moves. *)
Theorem mergeLapsByPace_idempotent (laps : list Lap) (paceRange : PaceRange)
  (unitSystem : string) :
  0 < fastest paceRange -> fastest paceRange <= slowest paceRange ->
  let out := mergeLapsByPace paceRange unitSystem laps in
  mergeLapsByPace paceRange unitSystem out = out /\
  lapGroups paceRange unitSystem out = map (fun seg => [seg]) out.
Proof.
  intros _ _ out.
  assert (Hs : separated paceRange unitSystem out) by apply mergeLoop_separated.
  split.
  - now apply mergeLapsByPace_fixed.
  - unfold lapGroups. now rewrite (groupLoop_fixed _ _ out [] Hs (or_introl eq_refl)).
Qed.

Lemma mergeLapsByPace_idempotent_witness :
  let laps := [sampleLap 1 400 90; sampleLap 2 400 91; sampleLap 3 400 500] in
  let out := mergeLapsByPace sampleRange "mi" laps in
  mergeLapsByPace sampleRange "mi" out = out /\
  lapGroups sampleRange "mi" out = map (fun seg => [seg]) out.
Proof.
  apply (mergeLapsByPace_idempotent
           [sampleLap 1 400 90; sampleLap 2 400 91; sampleLap 3 400 500]
           sampleRange "mi").
  - reflexivity.
  - discriminate.
Defined.

(** C5, as the claim states it, fails: the program adds doubles, the laps
    of a group first and the segments afterwards, and the distances
    [400.1], [400.2] and [400.5], of which the last two are merged, add
    up to another double in that order than one after the other. *)
Lemma double_sums_regrouped :
  ~ (forall (laps : list Lap) (paceRange : PaceRange) (unitSystem : string),
       sumOf distance (mergeLapsByPace paceRange unitSystem laps) == sumOf distance laps /\
       sumOf moving_time (mergeLapsByPace paceRange unitSystem laps)
       == sumOf moving_time laps).
Proof.
  intros H.
  destruct (H [sampleLap 1 (fl 400.1) 300; sampleLap 2 (fl 400.2) 150;
               sampleLap 3 (fl 400.5) 150] sampleRange "km"%string) as [Hd _].
  revert Hd. vm_compute. discriminate.
Qed.

(** The totals of the same doubles taken exactly differ as well: the sum
    of the merged segment is itself rounded. *)
Example regrouped_exact_totals :
  let laps := [sampleLap 1 (fl 400.1) 300; sampleLap 2 (fl 400.2) 150;
               sampleLap 3 (fl 400.5) 150] in
  ~ exactSum distance (mergeLapsByPace sampleRange "km" laps) == exactSum distance laps.
Proof. vm_compute. discriminate. Qed.

(** C5, amended.  Where the distances of the laps are whole numbers, none
    negative, with a total below [2^53], the distances of the output of
    [mergeLapsByPace] add up to the same number as the distances of the
    input laps, which is their exact total; and so do the moving times
    where they are such numbers, as moving times in whole seconds are. *)
Theorem mergeLapsByPace_conserves_whole (laps : list Lap) (paceRange : PaceRange)
  (unitSystem : string) :
  (Forall (fun lap => wholeNumber (distance lap) = true) laps ->
   exactSum distance laps < 2 ^ 53 ->
   sumOf distance (mergeLapsByPace paceRange unitSystem laps) == sumOf distance laps /\
   sumOf distance laps == exactSum distance laps) /\
  (Forall (fun lap => wholeNumber (moving_time lap) = true) laps ->
   exactSum moving_time laps < 2 ^ 53 ->
   sumOf moving_time (mergeLapsByPace paceRange unitSystem laps)
   == sumOf moving_time laps /\
   sumOf moving_time laps == exactSum moving_time laps).
Proof.
  split; intros Hw Hb.
  - destruct (mergeLapsByPace_exact distance (fun _ _ => eq_refl) paceRange unitSystem
                laps Hw Hb) as [Ho Hi].
    split; [now rewrite Ho, Hi | exact Hi].
  - destruct (mergeLapsByPace_exact moving_time (fun _ _ => eq_refl) paceRange unitSystem
                laps Hw Hb) as [Ho Hi].
    split; [now rewrite Ho, Hi | exact Hi].
Qed.

Lemma mergeLapsByPace_conserves_whole_witness :
  let laps := [sampleLap 1 400 90; sampleLap 2 400 91; sampleLap 3 400 500] in
  sumOf distance (mergeLapsByPace sampleRange "mi" laps) == 1200 /\
  sumOf moving_time (mergeLapsByPace sampleRange "mi" laps) == 681.
Proof.
  destruct (mergeLapsByPace_conserves_whole
              [sampleLap 1 400 90; sampleLap 2 400 91; sampleLap 3 400 500]
              sampleRange "mi") as [Hd Ht].
  destruct Hd as [Hd1 Hd2]; [repeat constructor | reflexivity|].
  destruct Ht as [Ht1 Ht2]; [repeat constructor | reflexivity|].
  split.
  - rewrite Hd1, Hd2. reflexivity.
  - rewrite Ht1, Ht2. reflexivity.
Defined.

(** C3, as the claim states it, fails: one qualifying lap alone is pushed
    as it is, without the [merged] flag. *)
Lemma single_lap_not_flagged :
  ~ (forall (laps : list Lap) (paceRange : PaceRange) (unitSystem : string),
       laps <> [] ->
       Forall (fun lap => qualifies paceRange unitSystem lap = true) laps ->
       exists seg, mergeLapsByPace paceRange unitSystem laps = [seg] /\ merged seg = true).
Proof.
  intros H.
  destruct (H [sampleLap 1 400 90] sampleRange "mi"%string) as (seg & Hout & Hflag).
  - discriminate.
  - repeat constructor.
  - vm_compute in Hout. injection Hout as <-. discriminate.
Qed.

(** C3, amended.  The empty sequence gives the empty output.  When every
    lap qualifies, the laps form one group with each lap in it once, and
    the output is one segment: the lap itself for a single lap, and for
    two laps or more the merged segment, which carries the [merged]
    flag. *)
Theorem mergeLapsByPace_edge_cases (laps : list Lap) (paceRange : PaceRange)
  (unitSystem : string) :
  Forall (fun lap => qualifies paceRange unitSystem lap = true) laps ->
  let out := mergeLapsByPace paceRange unitSystem laps in
  (laps = [] -> out = []) /\
  (laps <> [] -> lapGroups paceRange unitSystem laps = [laps]) /\
  (forall lap, laps = [lap] -> out = [lap]) /\
  (forall g0 g1 rest, laps = g0 :: g1 :: rest ->
     out = [mergedSegment g0 laps] /\ merged (mergedSegment g0 laps) = true).
Proof.
  intros Hall out.
  assert (Hout : out = collapse laps).
  { unfold out, mergeLapsByPace. now rewrite mergeLoop_all_qualify. }
  repeat split.
  - intros ->. exact Hout.
  - intros Hne. unfold lapGroups. now rewrite groupLoop_all_qualify.
  - intros lap ->. exact Hout.
  - subst laps. exact Hout.
Qed.

Lemma mergeLapsByPace_edge_cases_witness :
  let laps := [sampleLap 1 400 90; sampleLap 2 400 91] in
  mergeLapsByPace sampleRange "mi" laps = [mergedSegment (sampleLap 1 400 90) laps] /\
  lapGroups sampleRange "mi" laps = [laps].
Proof.
  destruct (mergeLapsByPace_edge_cases
              [sampleLap 1 400 90; sampleLap 2 400 91] sampleRange "mi")
    as (_ & Hgroups & _ & Hmany).
  - repeat constructor.
  - split.
    + apply (Hmany (sampleLap 1 400 90) (sampleLap 2 400 91) []). reflexivity.
    + apply Hgroups. discriminate.
Defined.




(** Over a distance of [2^-40] metres or more, a time of [2^40] seconds
    or less gives a pace that is within the doubles: the quotients have
    not overflowed. *)
Lemma paceMinutesPerUnit_finite (meters seconds : Q) (unitSystem : string) (pace : Q) :
  paceMinutesPerUnit meters seconds unitSystem = Some pace ->
  2 ^ (-40) <= meters -> 0 <= seconds -> seconds <= 2 ^ 40 ->
  isFinite pace = true.
Proof.
  unfold paceMinutesPerUnit. intros Hp Hm Hs0 Hs.
  destruct (Qle_bool meters 0); [discriminate|]. injection Hp as <-.
  assert (Hm0 : 0 < meters).
  { apply Qlt_le_trans with (2 ^ (-40)); [reflexivity | exact Hm]. }
  set (units := if String.eqb unitSystem "mi" then fl (meters / metersPerMile)
                else fl (meters / 1000)).
  assert (Hu : 2 ^ (-52) <= units).
  { assert (Hq : forall c, 0 < c -> c <= 2 ^ 11 -> 2 ^ (-52) <= fl (meters / c)).
    { intros c Hc0 Hc.
      assert (Hd : 2 ^ (-51) <= meters / c).
      { apply Qle_shift_div_l; [exact Hc0|].
        apply Qle_trans with (2 ^ (-51) * 2 ^ 11).
        - apply Qmult_le_l; [reflexivity | exact Hc].
        - apply Qle_trans with (2 ^ (-40)); [discriminate | exact Hm]. }
      pose proof (fl_lower (meters / c)) as Hl.
      assert (H0 : 0 <= meters / c).
      { apply Qle_trans with (2 ^ (-51)); [discriminate | exact Hd]. }
      specialize (Hl H0).
      apply Qle_trans with ((1 # 2) * (meters / c)); [|exact Hl].
      apply Qle_trans with ((1 # 2) * 2 ^ (-51)); [discriminate|].
      apply Qmult_le_l; [reflexivity | exact Hd]. }
    unfold units. destruct (String.eqb unitSystem "mi").
    - apply Hq; [exact metersPerMile_positive | vm_compute; discriminate].
    - apply Hq; [reflexivity | discriminate]. }
  assert (Hu0 : 0 < units).
  { apply Qlt_le_trans with (2 ^ (-52)); [reflexivity | exact Hu]. }
  assert (Hn0 : 0 <= seconds / 60) by (apply Qle_shift_div_l; lra).
  assert (Hn : fl (seconds / 60) <= 2 ^ 40).
  { apply Qle_trans with (2 * (seconds / 60)); [now apply fl_upper|].
    assert (H60 : seconds / 60 <= seconds * (1 # 2)).
    { apply Qle_shift_div_r; [reflexivity|]. lra. }
    lra. }
  pose proof (fl_nonneg _ Hn0) as Hf0.
  assert (Hq0 : 0 <= fl (seconds / 60) / units) by (apply Qle_shift_div_l; lra).
  assert (Hq : fl (seconds / 60) / units <= 2 ^ 92).
  { apply Qle_shift_div_r; [exact Hu0|].
    apply Qle_trans with (2 ^ 40); [exact Hn|].
    apply Qle_trans with (2 ^ 92 * 2 ^ (-52)); [discriminate|].
    apply Qmult_le_l; [reflexivity | exact Hu]. }
  apply isFinite_small; [now apply fl_nonneg|].
  apply Qle_trans with (2 * (fl (seconds / 60) / units)); [now apply fl_upper|].
  apply Qle_trans with (2 * 2 ^ 92); [|discriminate].
  apply Qmult_le_l; [reflexivity | exact Hq].
Qed.


(** ** The median *)

Lemma Qltb_iff (x y : Q) : Qltb x y = true <-> x < y.
Proof.
  unfold Qltb. destruct (Qle_bool y x) eqn:H; simpl.
  - apply Qle_bool_iff in H. split; [discriminate | lra].
  - split; [|reflexivity]. intros _.
    destruct (Qlt_le_dec x y) as [Hlt | Hle]; [exact Hlt|].
    apply Qle_bool_iff in Hle. congruence.
Qed.

Lemma insertBy_perm (x : Q) (l : list Q) :
  Permutation (insertBy (fun a b => a - b) x l) (x :: l).
Proof.
  induction l as [|y r IH]; simpl.
  - reflexivity.
  - destruct (Qle_bool (x - y) 0).
    + reflexivity.
    + rewrite IH. apply perm_swap.
Qed.

Lemma sortBy_perm (l : list Q) : Permutation (sortBy (fun a b => a - b) l) l.
Proof.
  induction l as [|x r IH]; simpl.
  - reflexivity.
  - rewrite insertBy_perm. now constructor.
Qed.

Lemma insertBy_sorted (x : Q) (l : list Q) :
  StronglySorted Qle l -> StronglySorted Qle (insertBy (fun a b => a - b) x l).
Proof.
  induction 1 as [|y r Hr IH Hy]; simpl.
  - repeat constructor.
  - destruct (Qle_bool (x - y) 0) eqn:Hc.
    + apply Qle_bool_iff in Hc.
      constructor; [now constructor|].
      constructor; [lra|].
      eapply Forall_impl; [|exact Hy]. simpl. intros z Hz. lra.
    + constructor; [exact IH|].
      assert (Hxy : y <= x).
      { destruct (Qlt_le_dec x y) as [Hlt | Hle]; [|exact Hle].
        assert (Hle : x - y <= 0) by lra.
        apply Qle_bool_iff in Hle. congruence. }
      rewrite (insertBy_perm x r). now constructor.
Qed.

Lemma sortBy_sorted (l : list Q) : StronglySorted Qle (sortBy (fun a b => a - b) l).
Proof.
  induction l as [|x r IH]; simpl.
  - constructor.
  - now apply insertBy_sorted.
Qed.

Lemma countIf_perm (p : Q -> bool) (l1 l2 : list Q) :
  Permutation l1 l2 -> countIf p l1 = countIf p l2.
Proof.
  unfold countIf. induction 1; simpl; try congruence.
  - destruct (p x); simpl; congruence.
  - destruct (p x), (p y); reflexivity.
Qed.

Lemma countIf_mono (p q : Q -> bool) (l : list Q) :
  (forall x, p x = true -> q x = true) -> (countIf p l <= countIf q l)%nat.
Proof.
  intros Hpq. unfold countIf.
  induction l as [|x r IH]; simpl; [lia|].
  destruct (p x) eqn:Hp.
  - rewrite (Hpq x Hp). simpl. lia.
  - destruct (q x); simpl; lia.
Qed.

Lemma countIf_none (p : Q -> bool) (l : list Q) :
  Forall (fun x => p x = false) l -> countIf p l = O.
Proof.
  unfold countIf. induction 1 as [|x r Hx _ IH]; simpl; [reflexivity|].
  now rewrite Hx.
Qed.

(** In a sorted list fewer than [i + 1] elements are below the one at
    index [i], and at least [i + 1] are not above it. *)
Lemma sorted_below (l : list Q) (i : nat) :
  StronglySorted Qle l -> (i < List.length l)%nat ->
  (countIf (fun y => Qltb y (nth i l 0%Q)) l <= i)%nat.
Proof.
  intros Hs. revert i.
  induction Hs as [|x r Hr IH Hx]; intros i Hi; simpl in Hi; [lia|].
  destruct i as [|j]; cbn [nth].
  - rewrite countIf_none; [lia|].
    constructor.
    + destruct (Qltb x x) eqn:H; [|reflexivity]. apply Qltb_iff in H. lra.
    + eapply Forall_impl; [|exact Hx]. simpl. intros z Hz.
      destruct (Qltb z x) eqn:H; [|reflexivity]. apply Qltb_iff in H. lra.
  - specialize (IH j ltac:(lia)). unfold countIf in *. simpl.
    destruct (Qltb x (nth j r 0)); simpl; lia.
Qed.

Lemma sorted_not_above (l : list Q) (i : nat) :
  StronglySorted Qle l -> (i < List.length l)%nat ->
  (i + 1 <= countIf (fun y => Qle_bool y (nth i l 0%Q)) l)%nat.
Proof.
  intros Hs. revert i.
  induction Hs as [|x r Hr IH Hx]; intros i Hi; simpl in Hi; [lia|].
  destruct i as [|j]; cbn [nth].
  - unfold countIf. simpl.
    assert (H : Qle_bool x x = true) by (apply Qle_bool_iff; lra).
    rewrite H. simpl. lia.
  - specialize (IH j ltac:(lia)). unfold countIf in *. simpl.
    assert (H : Qle_bool x (nth j r 0) = true).
    { apply Qle_bool_iff. rewrite Forall_forall in Hx. apply Hx. apply nth_In. lia. }
    rewrite H. simpl. lia.
Qed.

Lemma sorted_nth_le (l1 l2 : list Q) (i : nat) :
  StronglySorted Qle l1 -> StronglySorted Qle l2 -> Permutation l1 l2 ->
  (i < List.length l1)%nat -> nth i l1 0 <= nth i l2 0.
Proof.
  intros H1 H2 Hp Hi.
  destruct (Qlt_le_dec (nth i l2 0) (nth i l1 0)) as [Hlt | Hle]; [|exact Hle].
  exfalso.
  assert (Hi2 : (i < List.length l2)%nat) by now rewrite <- (Permutation_length Hp).
  pose proof (sorted_not_above l2 i H2 Hi2) as Ha.
  pose proof (sorted_below l1 i H1 Hi) as Hb.
  rewrite (countIf_perm _ l1 l2 Hp) in Hb.
  pose proof (countIf_mono (fun y => Qle_bool y (nth i l2 0))
                (fun y => Qltb y (nth i l1 0)) l2) as Hm.
  simpl in Hm. specialize (Hm ltac:(intros x Hx; apply Qle_bool_iff in Hx;
                                     apply Qltb_iff; lra)).
  lia.
Qed.

(** Two sorted arrangements of the same values agree at every index. *)
Lemma sorted_nth_unique (l1 l2 : list Q) (i : nat) :
  StronglySorted Qle l1 -> StronglySorted Qle l2 -> Permutation l1 l2 ->
  (i < List.length l1)%nat -> nth i l1 0 == nth i l2 0.
Proof.
  intros H1 H2 Hp Hi.
  apply Qle_antisym.
  - now apply sorted_nth_le.
  - apply sorted_nth_le; auto.
    + now symmetry.
    + now rewrite <- (Permutation_length Hp).
Qed.

(** [Math.round] gives an integer nearest to its argument. *)
Lemma jsRound_nearest (x : Q) (k : Z) :
  Qabs (x - inject_Z (jsRound x)) <= Qabs (x - inject_Z k).
Proof.
  unfold jsRound.
  pose proof (Qfloor_le (x + (1 # 2))) as Hlo.
  pose proof (Qlt_floor (x + (1 # 2))) as Hhi.
  set (r := Qfloor (x + (1 # 2))) in *.
  rewrite inject_Z_plus in Hhi. change (inject_Z 1) with 1 in Hhi.
  assert (Hr : Qabs (x - inject_Z r) <= 1 # 2) by (apply Qabs_Qle_condition; lra).
  destruct (Z.eq_dec k r) as [-> | Hne]; [lra|].
  assert (Hk : 1 # 2 <= Qabs (x - inject_Z k)).
  { destruct (Z_lt_le_dec k r) as [Hlt | Hge].
    - assert (Hk1 : inject_Z k <= inject_Z r - 1).
      { rewrite <- (Qplus_le_l _ _ 1).
        setoid_replace (inject_Z r - 1 + 1) with (inject_Z r) by ring.
        change 1 with (inject_Z 1). rewrite <- inject_Z_plus.
        rewrite <- Zle_Qle. lia. }
      eapply Qle_trans; [|apply Qle_Qabs]. lra.
    - assert (Hk1 : inject_Z r + 1 <= inject_Z k).
      { change 1 with (inject_Z 1). rewrite <- inject_Z_plus.
        rewrite <- Zle_Qle. lia. }
      rewrite <- Qabs_opp. eapply Qle_trans; [|apply Qle_Qabs]. lra. }
  lra.
Qed.

(** C6.  The typical rep duration is the median: for an odd number of
    values the middle one of the values sorted in ascending order, for an
    even number the mean of the two central ones rounded to a nearest
    integer ([Math.round]). *)
Theorem median_correct (values sorted : list Q) :
  values <> [] ->
  Permutation sorted values -> Sorted Qle sorted ->
  let mid := (List.length values / 2)%nat in
  (Nat.odd (List.length values) = true -> median values == nth mid sorted 0) /\
  (Nat.even (List.length values) = true ->
   let mean := (nth (mid - 1) sorted 0 + nth mid sorted 0) / 2 in
   median values == inject_Z (jsRound mean) /\
   forall k : Z, Qabs (mean - inject_Z (jsRound mean)) <= Qabs (mean - inject_Z k)).
Proof.
  intros Hne Hp Hs mid.
  assert (Hss : StronglySorted Qle sorted).
  { apply Sorted_StronglySorted; [|exact Hs]. intros x y z. apply Qle_trans. }
  set (mine := sortBy (fun a b => a - b) values).
  assert (Hlen : List.length mine = List.length values)
    by (apply Permutation_length, sortBy_perm).
  assert (Hlen' : List.length sorted = List.length values)
    by (now apply Permutation_length).
  assert (Hpos : (0 < List.length values)%nat)
    by (destruct values; [congruence | simpl; lia]).
  assert (Hagree : forall i, (i < List.length values)%nat ->
                             nth i mine 0 == nth i sorted 0).
  { intros i Hi. apply sorted_nth_unique.
    - apply sortBy_sorted.
    - exact Hss.
    - unfold mine. rewrite sortBy_perm. now symmetry.
    - lia. }
  assert (Hmid : (mid < List.length values)%nat)
    by (apply Nat.div_lt; lia).
  unfold median. fold mine. rewrite Hlen. fold mid.
  split.
  - intros Hodd.
    rewrite <- Nat.negb_even in Hodd. apply negb_true_iff in Hodd.
    assert (Hmod : (List.length values mod 2 = 1)%nat).
    { pose proof (Nat.mod_upper_bound (List.length values) 2 ltac:(lia)).
      destruct (List.length values mod 2)%nat as [|[|m]] eqn:E; try lia.
      apply Nat.Div0.mod_divides in E. destruct E as [c Hc].
      rewrite Hc, Nat.even_mul in Hodd. discriminate. }
    rewrite Hmod. cbn [Nat.eqb]. now apply Hagree.
  - intros Heven. cbv zeta.
    assert (Hmod : (List.length values mod 2 = 0)%nat).
    { apply Nat.even_spec in Heven. destruct Heven as [c Hc].
      rewrite Hc, Nat.mul_comm. apply Nat.Div0.mod_mul. }
    rewrite Hmod. cbn [Nat.eqb]. split; [|intros k; apply jsRound_nearest].
    unfold jsRound.
    rewrite (Hagree mid Hmid), (Hagree (mid - 1)%nat ltac:(lia)). reflexivity.
Qed.

Lemma median_correct_witness :
  median [240; 181; 300; 180] == inject_Z (jsRound ((181 + 240) / 2)).
Proof.
  apply (median_correct [240; 181; 300; 180] [180; 181; 240; 300]).
  - discriminate.
  - apply (perm_trans (l' := [240; 181; 180; 300])).
    + apply (perm_trans (l' := [181; 180; 240; 300])).
      * apply perm_swap.
      * apply (perm_trans (l' := [181; 240; 180; 300])).
        -- apply perm_skip, perm_swap.
        -- apply perm_swap.
    + apply perm_skip, perm_skip, perm_swap.
  - repeat constructor; discriminate.
  - reflexivity.
Defined.

(** ** The bounded lap poller *)

Section PollerFacts.

Context {B : Type}.
Variable w : World.
Variable canContinue : B -> bool * B.
Variable activityId : Z.
Variable intervalMs : Q.

Local Notation "'loopTo' m" := (fetchLoop w canContinue activityId intervalMs m)
  (at level 10).




End PollerFacts.





(** What the assumption on the interval excludes: with a zero interval
    the quotient is no integer, and [maxAttempts] is [Infinity], or [NaN]
    when the budget is zero too. *)
Lemma maxAttemptsOf_zero_interval :
  maxAttemptsOf (mkRetryPolicy (Some 0) (Some 30) None) = Unbounded /\
  maxAttemptsOf (mkRetryPolicy (Some 0) (Some 0) None) = NoNumber.
Proof. split; reflexivity. Qed.

(** With [maxAttempts] at [Infinity] only a response with laps or the
    read budget ends the loop: where neither does, every unit of fuel is
    spent on a laps request. *)
Lemma fetchLoop_unbounded (intervalMs : Q) (fuel : nat) (attempt : Z) (b : unit)
  (tr : Trace) :
  fetchLoop quietWorld (fun b => (true, b)) 9 intervalMs Unbounded fuel attempt b tr
  = (PollFuel, b,
     snd (fetchLoop quietWorld (fun b => (true, b)) 9 intervalMs Unbounded fuel attempt b tr))
  /\
  countLapsFetches
    (snd (fetchLoop quietWorld (fun b => (true, b)) 9 intervalMs Unbounded fuel attempt b tr))
  = (countLapsFetches tr + fuel)%nat.
Proof.
  revert attempt b tr.
  induction fuel as [|fuel IH]; intros attempt b tr.
  - simpl. split; [reflexivity | lia].
  - cbn [fetchLoop attemptLe attemptLt negb quietWorld w_laps].
    destruct (IH (attempt + 1)%Z b (EvSleep intervalMs :: EvLaps 9 (Failed 404) :: tr))
      as [Hres Hcount].
    split; [exact Hres|].
    rewrite Hcount. simpl. lia.
Qed.

(** ** The run: configuration errors, guarded writes, the easy-run update *)




(** *** Writes and the default-name check *)

Lemma guardedPuts_app (defaults : list string) (ext tr : Trace) :
  forallb (fun e => negb (isPut e)) ext = true ->
  guardedPuts defaults (ext ++ tr) = guardedPuts defaults tr.
Proof.
  induction ext as [|e ext IH]; simpl; [reflexivity|].
  intros H. apply andb_true_iff in H. destruct H as [He Hext].
  destruct e; simpl in He; try discriminate; now apply IH.
Qed.

Lemma existsb_app_keep {A : Type} (p : A -> bool) (ext l : list A) :
  existsb p l = true -> existsb p (ext ++ l) = true.
Proof.
  intros H. rewrite existsb_app, H. apply orb_true_r.
Qed.

(** The poller only adds laps requests and sleeps in front of the trace. *)
Lemma fetchLoop_extends {B : Type} (w : World) (canContinue : B -> bool * B)
  (activityId : Z) (intervalMs : Q) (m : Attempts) (fuel : nat) (attempt : Z)
  (b : B) (tr : Trace) :
  exists ext,
    snd (fetchLoop w canContinue activityId intervalMs m fuel attempt b tr) = (ext ++ tr)%list /\
    forallb (fun e => negb (isPut e)) ext = true.
Proof.
  revert attempt b tr.
  induction fuel as [|fuel IH]; intros attempt b tr; simpl.
  - exists []. destruct (attemptLe attempt m); split; reflexivity.
  - destruct (attemptLe attempt m); simpl; [|exists []; split; reflexivity].
    destruct (canContinue b) as [ok b1].
    destruct ok; simpl; [|exists []; split; reflexivity].
    set (resp := w_laps w (List.length tr) activityId).
    assert (Hgo : forall tr2 pre,
               tr2 = (pre ++ tr)%list -> forallb (fun e => negb (isPut e)) pre = true ->
               exists ext,
                 snd (fetchLoop w canContinue activityId intervalMs m fuel
                        (attempt + 1)%Z b1 tr2) = (ext ++ tr)%list /\
                 forallb (fun e => negb (isPut e)) ext = true).
    { intros tr2 pre -> Hpre.
      destruct (IH (attempt + 1)%Z b1 (pre ++ tr)%list) as (ext & Hext & Hno).
      exists (ext ++ pre)%list. split.
      - rewrite Hext. now rewrite app_assoc.
      - rewrite forallb_app, Hno, Hpre. reflexivity. }
    destruct resp as [[[|lap laps]|]|status];
      try (exists [EvLaps activityId (Ok (JArray (lap :: laps)))]; split; reflexivity);
      (destruct (attemptLt attempt m);
       [eapply (Hgo _ [EvSleep intervalMs; EvLaps activityId _]); reflexivity
       |eapply (Hgo _ [EvLaps activityId _]); reflexivity]).
Qed.

Lemma processActivity_guarded (fuel : nat) (w : World) (settings : Settings)
  (retryPolicy : RetryPolicy) (paceRange : PaceRange) (defaultNames : list string)
  (summary : Activity) (readsUsed : Z) (tr : Trace) :
  guardedPuts defaultNames tr = true ->
  guardedPuts defaultNames
    (snd (processActivity fuel w settings retryPolicy paceRange defaultNames
            summary readsUsed tr)) = true.
Proof.
  intros Hg. unfold processActivity.
  destruct (Qle_bool _ _); [exact Hg|].
  destruct (_ && _)%bool; [exact Hg|].
  destruct (isAlreadyRenamed _); [exact Hg|].
  destruct (negb (isDefaultName (act_name summary) defaultNames)); [exact Hg|].
  destruct (w_detail w (List.length tr) (act_id summary)) as [detail|status] eqn:Hd;
    [|exact Hg].
  destruct (isRace detail); [exact Hg|].
  destruct (isDefaultName (act_name detail) defaultNames) eqn:Hname; simpl; [|exact Hg].
  unfold fetchLapsWithRetry.
  match goal with
  | |- context [fetchLoop ?w0 ?cc ?id ?iv ?m ?f ?a ?b0 ?t0] =>
      destruct (fetchLoop_extends w0 cc id iv m f a b0 t0) as (ext & Hext & Hno);
      destruct (fetchLoop w0 cc id iv m f a b0 t0) as [[res b2] tr2]
  end.
  simpl in Hext. subst tr2.
  assert (Hg2 : guardedPuts defaultNames
                  (ext ++ EvDetail (act_id summary) (Ok detail) :: tr) = true)
    by (rewrite guardedPuts_app by exact Hno; exact Hg).
  destruct res; simpl; try exact Hg2.
  rewrite Hg2, andb_true_r.
  apply existsb_app_keep. simpl.
  now rewrite Z.eqb_refl, Hname.
Qed.

Lemma processActivities_guarded (fuel : nat) (w : World) (settings : Settings)
  (retryPolicy : RetryPolicy) (paceRange : PaceRange) (defaultNames : list string)
  (activities : list Activity) (readsUsed : Z) (tr : Trace) :
  guardedPuts defaultNames tr = true ->
  guardedPuts defaultNames
    (snd (processActivities fuel w settings retryPolicy paceRange defaultNames
            activities readsUsed tr)) = true.
Proof.
  revert readsUsed tr.
  induction activities as [|summary rest IH]; intros readsUsed tr Hg; simpl.
  - exact Hg.
  - pose proof (processActivity_guarded fuel w settings retryPolicy paceRange
                  defaultNames summary readsUsed tr Hg) as Hone.
    destruct (processActivity fuel w settings retryPolicy paceRange defaultNames
                summary readsUsed tr) as [[flow r1] tr1].
    simpl in Hone. destruct flow; simpl; auto.
Qed.

(** C4, as the claim states it, fails: the weekly aggregator renames the
    last run of the week whatever its name is, here one named "Easy Run",
    whose details the run never read. *)
Lemma weekly_rename_unguarded :
  ~ (forall (toNumber dateTime : string -> option Q) (fuel : nat) (settings : Settings)
            (creds : Credentials) (now : DateTime) (w : World),
       guardedPuts (orElse (defaultRunNames settings) [])
         (snd (main toNumber dateTime fuel settings creds now w)) = true).
Proof.
  intros H.
  specialize (H decimalNumber sampleDate 40%nat sampleSettings sampleCredentials
                earlyMonday quietWorld).
  vm_compute in H. discriminate.
Qed.

(** C4, amended.  Every write issued by the loop of [main] over the day's
    activities targets an activity whose details the run has read with a
    name that is one of the default names; so it is for every write of a
    run in which the weekly totals are switched off.  The rename of the
    weekly aggregator is not subject to that check. *)
Theorem loop_writes_guarded (toNumber dateTime : string -> option Q) (fuel : nat)
  (settings : Settings) (creds : Credentials) (now : DateTime) (w : World) :
  (forall retryPolicy paceRange defaultNames activities readsUsed tr,
     guardedPuts defaultNames tr = true ->
     guardedPuts defaultNames
       (snd (processActivities fuel w settings retryPolicy paceRange defaultNames
               activities readsUsed tr)) = true) /\
  (weekTotals settings = false ->
   guardedPuts (orElse (defaultRunNames settings) [])
     (snd (main toNumber dateTime fuel settings creds now w)) = true).
Proof.
  split.
  - intros. now apply processActivities_guarded.
  - intros Hoff. unfold main.
    destruct (isWithinActiveHours toNumber settings now); simpl; [|reflexivity].
    destruct (credentialsMissing creds); [reflexivity|].
    destruct (paceRangeFromSettings toNumber settings) as [paceRange|]; [|reflexivity].
    destruct (w_refresh w) as [token|status]; [|reflexivity].
    destruct (w_list w (dayStart now)) as [activities|status]; [|reflexivity].
    rewrite Hoff.
    match goal with
    | |- context [processActivities ?f ?w0 ?s ?rp ?pr ?dn ?acts ?r ?t] =>
        pose proof (processActivities_guarded f w0 s rp pr dn acts r t eq_refl) as Hloop;
        destruct (processActivities f w0 s rp pr dn acts r t) as [[o r2] tr2]
    end.
    simpl in Hloop. destruct o; exact Hloop.
Qed.

Lemma loop_writes_guarded_witness :
  guardedPuts ["Morning Run"%string]
    (snd (main decimalNumber sampleDate 40
            (mkSettings "06:00" "22:00" "5:30" "7:30" "mi" None None
               (Some ["Morning Run"%string]) false "monday")
            sampleCredentials earlyMonday easyWorld)) = true.
Proof.
  apply (loop_writes_guarded decimalNumber sampleDate 40
           (mkSettings "06:00" "22:00" "5:30" "7:30" "mi" None None
              (Some ["Morning Run"%string]) false "monday")
           sampleCredentials earlyMonday easyWorld).
  reflexivity.
Defined.

(** *** The update of a run that is no workout *)

Lemma buildUpdate_no_workout (activity : Activity) (laps : list Lap)
  (paceRange : PaceRange) (settings : Settings) :
  generateWorkoutDescription laps paceRange (settingsUnit settings) = None ->
  buildUpdate activity laps paceRange settings
  = mkUpdate (Some "Easy Run"%string)
      (Some match average_heartrate activity with
            | Some avgHr =>
                formatAvgHrDescription avgHr
                  match maxHr_ settings with
                  | Some m => if Qeq_bool m 0 then None else Some m
                  | None => None
                  end
            | None => ""%string
            end).
Proof.
  intros Hnone. unfold buildUpdate. now rewrite Hnone.
Qed.

Lemma formatAvgHrDescription_plain (avgHr : Q) :
  formatAvgHrDescription avgHr None
  = ("Avg HR: " ++ string_of_Z (jsRound avgHr) ++ " bpm")%string.
Proof. reflexivity. Qed.

Lemma formatAvgHrDescription_percent (avgHr m : Q) :
  ~ m == 0 ->
  formatAvgHrDescription avgHr (Some m)
  = ("Avg HR: " ++ string_of_Z (jsRound avgHr) ++ " bpm ("
     ++ string_of_Z (jsRound (fl (fl (inject_Z (jsRound avgHr) / m) * 100)))
     ++ "% max)")%string.
Proof.
  intros Hm. unfold formatAvgHrDescription.
  destruct (Qeq_bool m 0) eqn:Hz; [|reflexivity].
  apply Qeq_bool_iff in Hz. contradiction.
Qed.

(** C10.  For a run with a default name that is no race, whose laps were
    fetched and in which the synthesizer finds no workout, the loop of
    [main] issues a write to the activity with the name "Easy Run"; the
    description is empty when the activity has no average heart rate,
    and otherwise the heart-rate line: with the percentage of the maximum
    when a maximal heart rate other than zero is configured, the
    percentage being the quotient and the product of doubles rounded to
    a whole number, and without a percentage when no maximal heart rate
    is configured or when it is zero. *)
Theorem easy_run_rewrite (fuel : nat) (w : World) (settings : Settings)
  (retryPolicy : RetryPolicy) (paceRange : PaceRange) (defaultNames : list string)
  (summary detail : Activity) (laps : list Lap) (readsUsed readsUsed2 : Z)
  (tr tr2 : Trace) :
  let maxReads := orElse (maxReadsPerRun retryPolicy) 90 in
  Qle_bool maxReads (inject_Z readsUsed) = false ->
  (looksLikeRun (act_type summary) || looksLikeRun (sport_type summary))%bool = true ->
  isAlreadyRenamed (act_name summary) = false ->
  isDefaultName (act_name summary) defaultNames = true ->
  w_detail w (List.length tr) (act_id summary) = Ok detail ->
  isRace detail = false ->
  isDefaultName (act_name detail) defaultNames = true ->
  fetchLapsWithRetry fuel w (act_id detail) retryPolicy (readBudget maxReads)
    (readsUsed + 1)%Z (EvDetail (act_id summary) (Ok detail) :: tr)
  = (PollLaps laps, readsUsed2, tr2) ->
  generateWorkoutDescription laps paceRange (settingsUnit settings) = None ->
  exists description ok,
    processActivity fuel w settings retryPolicy paceRange defaultNames summary readsUsed tr
    = (Next, readsUsed2,
       EvPut (act_id detail) (mkUpdate (Some "Easy Run"%string) (Some description)) ok :: tr2) /\
    (average_heartrate detail = None -> description = ""%string) /\
    (forall avgHr, average_heartrate detail = Some avgHr ->
       (forall m, maxHr_ settings = Some m -> ~ m == 0 ->
          description
          = ("Avg HR: " ++ string_of_Z (jsRound avgHr) ++ " bpm ("
             ++ string_of_Z (jsRound (fl (fl (inject_Z (jsRound avgHr) / m) * 100)))
             ++ "% max)")%string) /\
       (maxHr_ settings = None \/ (exists m, maxHr_ settings = Some m /\ m == 0) ->
          description = ("Avg HR: " ++ string_of_Z (jsRound avgHr) ++ " bpm")%string)).
Proof.
  intros maxReads Hcap Hrun Hnew Hdef Hdetail Hrace Hdef' Hlaps Hnone.
  eexists. eexists. split.
  - unfold processActivity. fold maxReads. rewrite Hcap.
    apply orb_true_iff in Hrun.
    assert (Hskip : (negb (looksLikeRun (act_type summary))
                     && negb (looksLikeRun (sport_type summary)))%bool = false).
    { destruct Hrun as [-> | ->]; simpl; [reflexivity | apply andb_false_r]. }
    rewrite Hskip, Hnew, Hdef. simpl.
    rewrite Hdetail, Hrace, Hdef'. simpl.
    rewrite Hlaps.
    rewrite (buildUpdate_no_workout detail laps paceRange settings Hnone).
    reflexivity.
  - split.
    + intros ->. reflexivity.
    + intros avgHr ->. split.
      * intros m -> Hm.
        destruct (Qeq_bool m 0) eqn:Hz.
        -- apply Qeq_bool_iff in Hz. contradiction.
        -- now apply formatAvgHrDescription_percent.
      * intros [-> | (m & -> & Hm)]; [apply formatAvgHrDescription_plain|].
        apply Qeq_bool_iff in Hm. rewrite Hm. apply formatAvgHrDescription_plain.
Qed.

Lemma easy_run_rewrite_witness :
  exists description ok,
    processActivity 40 easyWorld sampleSettings
      (mkRetryPolicy (Some 60) (Some 30) (Some 90)) sampleRange
      ["Morning Run"%string] todaysRun 1 []
    = (Next, 3%Z,
       EvPut 9 (mkUpdate (Some "Easy Run"%string) (Some description)) ok
       :: [EvLaps 9 (Ok (JArray easyLaps)); EvDetail 9 (Ok todaysRun)]) /\
    description = "Avg HR: 152 bpm (80% max)"%string.
Proof.
  destruct (easy_run_rewrite 40 easyWorld sampleSettings
              (mkRetryPolicy (Some 60) (Some 30) (Some 90)) sampleRange
              ["Morning Run"%string] todaysRun todaysRun easyLaps 1 3 []
              [EvLaps 9 (Ok (JArray easyLaps)); EvDetail 9 (Ok todaysRun)])
    as (description & ok & Hput & _ & Hhr); try reflexivity.
  exists description, ok. split; [exact Hput|].
  destruct (Hhr 151.5 eq_refl) as [Hpct _].
  rewrite (Hpct 190 eq_refl); [reflexivity | discriminate].
Defined.

(** ** The weekly aggregator *)

(** *** Strings *)

Lemma startsWith_app (s t : string) : startsWith s (s ++ t)%string = true.
Proof.
  induction s as [|c s IH]; simpl; [reflexivity|].
  now rewrite Ascii.eqb_refl, IH.
Qed.

Lemma includes_startsWith (sub s : string) :
  startsWith sub s = true -> includes sub s = true.
Proof.
  intros H. destruct s; simpl in *; rewrite H; reflexivity.
Qed.

Lemma includes_app (sub p : string) : includes sub (p ++ sub)%string = true.
Proof.
  induction p as [|c p IH]; simpl.
  - apply includes_startsWith.
    rewrite <- (startsWith_app sub EmptyString) at 1.
    f_equal. induction sub as [|a r IHr]; simpl; [reflexivity | now rewrite <- IHr].
  - rewrite IH. apply orb_true_r.
Qed.

Lemma trimStart_keeps_suffix (x s : string) :
  beginsNonSpace s = true -> exists p, trimStart (x ++ s)%string = (p ++ s)%string.
Proof.
  intros Hs. induction x as [|c x IH]; simpl.
  - exists EmptyString. destruct s as [|a r]; [discriminate|].
    simpl in *. destruct (isSpace a); [discriminate | reflexivity].
  - destruct (isSpace c).
    + exact IH.
    + exists (String c x). reflexivity.
Qed.

Lemma endsNonSpace_app (p s : string) :
  endsNonSpace s = true -> endsNonSpace (p ++ s)%string = true.
Proof.
  intros Hs. induction p as [|c p IH]; simpl; [exact Hs|].
  destruct (p ++ s)%string eqn:E; [|exact IH].
  simpl in IH. discriminate.
Qed.

Lemma trimEnd_ends_nonspace (s : string) : endsNonSpace s = true -> trimEnd s = s.
Proof.
  induction s as [|c r IH]; simpl; [discriminate|].
  destruct r as [|c' r'].
  - simpl. intros H. apply negb_true_iff in H. now rewrite H.
  - intros H. rewrite (IH H). reflexivity.
Qed.

Lemma suffix_begins (totalMeters : Q) (unitSystem : string) :
  beginsNonSpace (formatWeekTotalSuffix totalMeters unitSystem) = true.
Proof. reflexivity. Qed.

Lemma suffix_ends (totalMeters : Q) (unitSystem : string) :
  endsNonSpace (formatWeekTotalSuffix totalMeters unitSystem) = true.
Proof.
  unfold formatWeekTotalSuffix.
  repeat (apply endsNonSpace_app). reflexivity.
Qed.

Lemma string_app_assoc (a b c : string) :
  (a ++ b ++ c)%string = ((a ++ b) ++ c)%string.
Proof.
  induction a as [|x r IH]; simpl; [reflexivity | now rewrite IH].
Qed.

(** The new name ends with the suffix as it is. *)
Lemma appendWeekTotalSuffix_shape (name suffix : string) :
  beginsNonSpace suffix = true -> endsNonSpace suffix = true ->
  exists p, appendWeekTotalSuffix name suffix = (p ++ suffix)%string.
Proof.
  intros Hb He. unfold appendWeekTotalSuffix, trim at 1.
  set (cleaned := trim (stripWeekTotal name)).
  rewrite string_app_assoc.
  destruct (trimStart_keeps_suffix (cleaned ++ " ") suffix Hb) as [p Hp].
  exists p. rewrite Hp. apply trimEnd_ends_nonspace. now apply endsNonSpace_app.
Qed.

(** *** The rename does not change what the aggregator selects *)

Lemma insertBy_map {A : Type} (cmp : A -> A -> Q) (u : A -> A) (x : A) (l : list A) :
  (forall a b, cmp (u a) (u b) = cmp a b) ->
  insertBy cmp (u x) (map u l) = map u (insertBy cmp x l).
Proof.
  intros Hc. induction l as [|y r IH]; simpl; [reflexivity|].
  rewrite Hc. destruct (Qle_bool (cmp x y) 0); simpl; [reflexivity | now rewrite IH].
Qed.

Lemma sortBy_map {A : Type} (cmp : A -> A -> Q) (u : A -> A) (l : list A) :
  (forall a b, cmp (u a) (u b) = cmp a b) ->
  sortBy cmp (map u l) = map u (sortBy cmp l).
Proof.
  intros Hc. induction l as [|x r IH]; simpl; [reflexivity|].
  now rewrite IH, insertBy_map.
Qed.

Lemma filter_map_same {A : Type} (p : A -> bool) (u : A -> A) (l : list A) :
  (forall a, p (u a) = p a) -> filter p (map u l) = map u (filter p l).
Proof.
  intros Hp. induction l as [|x r IH]; simpl; [reflexivity|].
  rewrite Hp. destruct (p x); simpl; now rewrite IH.
Qed.

Lemma find_map_same {A : Type} (p : A -> bool) (u : A -> A) (l : list A) :
  (forall a, p (u a) = p a) -> find p (map u l) = option_map u (find p l).
Proof.
  intros Hp. induction l as [|x r IH]; simpl; [reflexivity|].
  rewrite Hp. destruct (p x); simpl; [reflexivity | exact IH].
Qed.

Section Renamed.

Variable dateTime : string -> option Q.
Variable id : Z.
Variable newName : string.

Local Notation "'u'" := (renamed id newName).

Lemma renamed_fields (a : Activity) :
  act_id (u a) = act_id a /\ act_type (u a) = act_type a /\
  sport_type (u a) = sport_type a /\ workout_type (u a) = workout_type a /\
  act_distance (u a) = act_distance a /\ start_date (u a) = start_date a.
Proof.
  unfold renamed. destruct (act_id a =? id)%Z; simpl; repeat split; reflexivity.
Qed.

Lemma renamed_isRun (a : Activity) : isRun (u a) = isRun a.
Proof.
  unfold isRun. destruct (renamed_fields a) as (_ & -> & -> & _). reflexivity.
Qed.

Lemma renamed_isRace (a : Activity) : isRace (u a) = isRace a.
Proof.
  unfold isRace. destruct (renamed_fields a) as (_ & _ & _ & -> & _). reflexivity.
Qed.

Lemma renamed_byStartDateDesc (a b : Activity) :
  byStartDateDesc dateTime (u a) (u b) = byStartDateDesc dateTime a b.
Proof.
  unfold byStartDateDesc.
  destruct (renamed_fields a) as (_ & _ & _ & _ & _ & ->).
  destruct (renamed_fields b) as (_ & _ & _ & _ & _ & ->). reflexivity.
Qed.

Lemma renamed_selectLastRun (runs : list Activity) :
  selectLastRun dateTime (map u runs) = option_map u (selectLastRun dateTime runs).
Proof.
  unfold selectLastRun.
  rewrite filter_map_same.
  - rewrite sortBy_map by apply renamed_byStartDateDesc.
    apply find_map_same. intros a. now rewrite renamed_isRace.
  - intros a. destruct (renamed_fields a) as (_ & _ & _ & _ & _ & ->). reflexivity.
Qed.

Lemma renamed_total (runs : list Activity) (a0 : Q) :
  fold_left (fun sum a => fl (sum + orElse (act_distance a) 0)) (map u runs) a0
  = fold_left (fun sum a => fl (sum + orElse (act_distance a) 0)) runs a0.
Proof.
  revert a0. induction runs as [|x r IH]; intros a0; simpl; [reflexivity|].
  destruct (renamed_fields x) as (_ & _ & _ & _ & -> & _). apply IH.
Qed.

Lemma renamed_weekSuffix (settings : Settings) (runs : list Activity) :
  weekSuffix settings (map u runs) = weekSuffix settings runs.
Proof.
  unfold weekSuffix. now rewrite renamed_total.
Qed.

End Renamed.

(** *** The writes of the aggregator *)

Lemma weekPagesLoop_no_put {B : Type} (w : World) (consumeRead : B -> bool * B)
  (after before : Z) (fuel : nat) (page : Z) (activities : list Activity)
  (b : B) (tr : Trace) :
  countPuts (snd (weekPagesLoop w consumeRead after before fuel page activities b tr))
  = countPuts tr.
Proof.
  revert page activities b tr.
  induction fuel as [|fuel IH]; intros page activities b tr; simpl; [reflexivity|].
  destruct (consumeRead b) as [ok b1]. destruct ok; simpl; [|reflexivity].
  destruct (w_week w (List.length tr) page after before) as [batch|status]; [|reflexivity].
  destruct (List.length batch <? 200)%nat; [reflexivity|].
  rewrite IH. reflexivity.
Qed.

(** The aggregator writes only the rename that [weekTotalRename] decides
    on the activities its listing returned. *)
Lemma maybeFinalizePreviousWeek_puts {B : Type} (toNumber dateTime : string -> option Q)
  (fuel : nat) (now : DateTime) (settings : Settings) (w : World)
  (consumeRead : B -> bool * B) (b : B) (tr : Trace) :
  let run := maybeFinalizePreviousWeek toNumber dateTime fuel now settings w consumeRead b tr in
  countPuts (snd run) = countPuts tr \/
  exists after before activities b1 tr1 id newName ok,
    weekPagesLoop w consumeRead after before fuel 1 [] b tr = (PagesDone activities, b1, tr1) /\
    weekTotalRename dateTime settings activities = Some (id, newName) /\
    snd run = EvPut id (mkUpdate (Some newName) None) ok :: tr1.
Proof.
  unfold maybeFinalizePreviousWeek.
  destruct (negb (Qle_bool _ _)); [left; reflexivity|].
  match goal with
  | |- context [weekPagesLoop w consumeRead ?a ?bf fuel 1 [] b tr] =>
      pose proof (weekPagesLoop_no_put w consumeRead a bf fuel 1 [] b tr) as Hno;
      destruct (weekPagesLoop w consumeRead a bf fuel 1 [] b tr) as [[pages b1] tr1] eqn:Hloop
  end.
  simpl in Hno.
  destruct pages as [activities| |]; simpl; try (left; exact Hno).
  destruct (weekTotalRename dateTime settings activities) as [[id newName]|] eqn:Hre;
    simpl; [|left; exact Hno].
  right. repeat eexists; eauto.
Qed.

(** C8.  When the name of the selected activity already contains the
    computed suffix, the aggregator decides on no rename; and once the
    rename it decided on is applied to the activity, the aggregator run
    on the same activities decides on no rename.  The aggregator writes
    nothing but the rename so decided. *)
Theorem weekly_suffix_idempotent (dateTime : string -> option Q) (settings : Settings) :
  (forall activities lastRun name,
     selectLastRun dateTime (filter isRun activities) = Some lastRun ->
     act_name lastRun = Some name ->
     includes (weekSuffix settings (filter isRun activities)) name = true ->
     weekTotalRename dateTime settings activities = None) /\
  (forall activities id newName,
     weekTotalRename dateTime settings activities = Some (id, newName) ->
     weekTotalRename dateTime settings (map (renamed id newName) activities) = None) /\
  (forall (B : Type) toNumber fuel now w (consumeRead : B -> bool * B) b tr,
     let run := maybeFinalizePreviousWeek toNumber dateTime fuel now settings w
                  consumeRead b tr in
     countPuts (snd run) = countPuts tr \/
     exists after before activities b1 tr1 id newName ok,
       weekPagesLoop w consumeRead after before fuel 1 [] b tr
       = (PagesDone activities, b1, tr1) /\
       weekTotalRename dateTime settings activities = Some (id, newName) /\
       snd run = EvPut id (mkUpdate (Some newName) None) ok :: tr1).
Proof.
  split; [|split].
  - intros activities lastRun name Hsel Hname Hinc.
    unfold weekTotalRename.
    destruct activities as [|a0 rest]; [reflexivity|].
    destruct (filter isRun (a0 :: rest)) as [|r0 runs]; [reflexivity|].
    rewrite Hsel, Hname. simpl orElse. rewrite Hinc.
    destruct name as [|c name']; [|reflexivity].
    exfalso. unfold weekSuffix, formatWeekTotalSuffix in Hinc. simpl in Hinc. discriminate.
  - intros activities id newName Hre.
    unfold weekTotalRename in *.
    destruct activities as [|a0 rest]; [discriminate|].
    rewrite filter_map_same by apply renamed_isRun.
    destruct (filter isRun (a0 :: rest)) as [|r0 runs] eqn:Hruns; [discriminate|].
    rewrite renamed_selectLastRun, renamed_weekSuffix.
    destruct (selectLastRun dateTime (r0 :: runs)) as [lastRun|]; [|discriminate].
    set (suffix := weekSuffix settings (r0 :: runs)) in *.
    destruct (truthy (act_name lastRun) && includes suffix (orElse (act_name lastRun) ""%string))%bool;
      [discriminate|].
    injection Hre as Hid Hnew.
    destruct (appendWeekTotalSuffix_shape (orElse (act_name lastRun) "Run"%string) suffix)
      as [p Hp]; [apply suffix_begins | apply suffix_ends |].
    simpl. unfold renamed. rewrite Hid, Z.eqb_refl. simpl.
    rewrite <- Hnew, Hp, includes_app.
    destruct (p ++ suffix)%string eqn:E; [|reflexivity].
    exfalso. destruct p; simpl in E; [|discriminate].
    subst suffix. unfold weekSuffix, formatWeekTotalSuffix in E. discriminate.
  - intros. apply maybeFinalizePreviousWeek_puts.
Qed.

Lemma weekly_suffix_idempotent_witness :
  weekTotalRename sampleDate sampleSettings [lastWeekRun]
  = Some (7%Z, "Easy Run (Week Total: 6.2 mi)"%string) /\
  weekTotalRename sampleDate sampleSettings
    (map (renamed 7 "Easy Run (Week Total: 6.2 mi)") [lastWeekRun]) = None /\
  weekTotalRename sampleDate sampleSettings
    [renamed 7 "Easy Run (Week Total: 6.2 mi)" lastWeekRun] = None.
Proof.
  destruct (weekly_suffix_idempotent sampleDate sampleSettings) as (Hguard & Htwice & _).
  split; [reflexivity|]. split.
  - apply Htwice. reflexivity.
  - apply (Hguard [renamed 7 "Easy Run (Week Total: 6.2 mi)" lastWeekRun]
                  (renamed 7 "Easy Run (Week Total: 6.2 mi)" lastWeekRun)
                  "Easy Run (Week Total: 6.2 mi)"%string); reflexivity.
Defined.

(** * Further properties *)


Section MergeShape.

Variable paceRange : PaceRange.
Variable unitSystem : string.

Local Notation "'qual'" := (qualifies paceRange unitSystem).
Local Notation "'other'" := (fun lap => negb (qualifies paceRange unitSystem lap)).

Lemma filter_other_qualifying (l : list Lap) :
  Forall (fun lap => qual lap = true) l -> filter other l = [].
Proof.
  induction 1 as [|x r Hx _ IH]; simpl; [reflexivity|]. now rewrite Hx.
Qed.

Lemma existsb_qualifying (l : list Lap) :
  l <> [] -> Forall (fun lap => qual lap = true) l -> existsb qual l = true.
Proof.
  intros Hne Hall. destruct Hall as [|x r Hx _]; [congruence|]. simpl. now rewrite Hx.
Qed.

Lemma collapse_nil_iff (group : list Lap) : collapse group = [] <-> group = [].
Proof.
  destruct group as [|a [|b r]]; simpl; split; intros H; congruence.
Qed.

Lemma collapse_length (group : list Lap) :
  (List.length (collapse group) <= List.length group)%nat.
Proof. destruct group as [|a [|b r]]; simpl; lia. Qed.

(** A lap outside the range is pushed as it is. *)
Lemma mergeLoop_keeps_other (laps group : list Lap) (lap : Lap) :
  In lap laps -> qual lap = false ->
  In lap (mergeLoop paceRange unitSystem laps [] group).
Proof.
  revert group.
  induction laps as [|x rest IH]; intros group Hin Hq; [destruct Hin|].
  destruct (qual x) eqn:Hx.
  - rewrite mergeLoop_qual by assumption.
    destruct Hin as [-> | Hin]; [congruence | now apply IH].
  - rewrite mergeLoop_other by assumption.
    apply in_or_app. right.
    destruct Hin as [-> | Hin]; [now left | right; now apply IH].
Qed.

(** Each group is one lap outside the range or a run of laps within
    it. *)
Lemma groupLoop_kinds (laps group : list Lap) :
  Forall (fun lap => qual lap = true) group ->
  Forall (fun g => (exists lap, g = [lap] /\ qual lap = false) \/
                   (g <> [] /\ Forall (fun lap => qual lap = true) g))
    (groupLoop paceRange unitSystem laps [] group).
Proof.
  revert group.
  induction laps as [|x rest IH]; intros group Hg.
  - simpl. destruct group as [|g0 g]; [constructor|].
    constructor; [|constructor]. right. split; [discriminate | exact Hg].
  - simpl. destruct (qual x) eqn:Hx.
    + apply IH. apply Forall_app. split; [exact Hg | now repeat constructor].
    + rewrite groupLoop_acc. apply Forall_app. split; [|apply IH; constructor].
      destruct group as [|g0 g]; simpl.
      * constructor; [|constructor]. left. eauto.
      * constructor; [right; split; [discriminate | exact Hg]|].
        constructor; [|constructor]. left. eauto.
Qed.

Lemma mergeLoop_length (laps group : list Lap) :
  (List.length (mergeLoop paceRange unitSystem laps [] group)
   <= List.length group + List.length laps)%nat.
Proof.
  revert group.
  induction laps as [|lap rest IH]; intros group.
  - rewrite mergeLoop_nil. pose proof (collapse_length group). simpl. lia.
  - destruct (qual lap) eqn:Hq.
    + rewrite mergeLoop_qual by assumption.
      specialize (IH (group ++ [lap])%list). rewrite length_app in IH. simpl in *. lia.
    + rewrite mergeLoop_other by assumption.
      rewrite length_app. pose proof (collapse_length group).
      specialize (IH []). simpl in *. lia.
Qed.

End MergeShape.

(** X2.  The output of [mergeLapsByPace] is the groups of its loop, each
    collapsed; the groups, in order, are the laps; each group is one lap
    outside the pace range or a run of laps within it; a lap outside the
    range is a segment of the output as it is; the output is never longer
    than the input, and it is the input itself when no lap is within the
    range. *)
Theorem mergeLapsByPace_shape (paceRange : PaceRange) (unitSystem : string)
  (laps : list Lap) :
  let out := mergeLapsByPace paceRange unitSystem laps in
  let groups := lapGroups paceRange unitSystem laps in
  out = flat_map collapse groups /\
  List.concat groups = laps /\
  Forall (fun g => (exists lap, g = [lap] /\ qualifies paceRange unitSystem lap = false) \/
                   (g <> [] /\
                    Forall (fun lap => qualifies paceRange unitSystem lap = true) g))
    groups /\
  (forall lap, In lap laps -> qualifies paceRange unitSystem lap = false -> In lap out) /\
  (List.length out <= List.length laps)%nat /\
  (existsb (qualifies paceRange unitSystem) laps = false -> out = laps).
Proof.
  intros out groups. unfold out, groups, mergeLapsByPace, lapGroups.
  split; [apply mergeLoop_groups|].
  split; [apply (groupLoop_concat paceRange unitSystem laps [])|].
  split; [apply groupLoop_kinds; constructor|].
  split; [intros lap; apply mergeLoop_keeps_other|].
  split; [apply (mergeLoop_length paceRange unitSystem laps [])|].
  intros Hnone.
  induction laps as [|lap rest IH]; [reflexivity|].
  simpl in Hnone. apply orb_false_iff in Hnone. destruct Hnone as [Hq Hrest].
  rewrite mergeLoop_other by assumption. simpl. f_equal. now apply IH.
Qed.

Lemma mergeLapsByPace_shape_witness :
  mergeLapsByPace sampleRange "mi" [sampleLap 1 1000 420; sampleLap 2 1000 425]
  = [sampleLap 1 1000 420; sampleLap 2 1000 425].
Proof.
  apply (mergeLapsByPace_shape sampleRange "mi"
           [sampleLap 1 1000 420; sampleLap 2 1000 425]).
  reflexivity.
Defined.

(** ** The workout description *)

Lemma findIndex_none {A : Type} (p : A -> bool) (l : list A) :
  findIndex p l = None <-> existsb p l = false.
Proof.
  induction l as [|x r IH]; simpl; [tauto|].
  destruct (p x); simpl.
  - split; discriminate.
  - rewrite <- IH. destruct (findIndex p r); simpl; split; congruence.
Qed.

Lemma findIndex_some {A : Type} (p : A -> bool) (l : list A) (i : nat) :
  findIndex p l = Some i ->
  existsb p (firstn i l) = false /\
  exists x post, skipn i l = x :: post /\ p x = true.
Proof.
  revert i. induction l as [|x r IH]; intros i; simpl; [discriminate|].
  destruct (p x) eqn:Hx.
  - intros [= <-]. simpl. eauto.
  - destruct (findIndex p r) as [k|]; simpl; [|discriminate].
    intros [= <-]. destruct (IH k eq_refl) as (Hpre & y & post & Hskip & Hy).
    simpl. rewrite Hx, Hpre. eauto.
Qed.

Lemma findLastIndex_none {A : Type} (p : A -> bool) (l : list A) :
  findLastIndex p l = None <-> existsb p l = false.
Proof.
  induction l as [|x r IH]; simpl; [tauto|].
  destruct (findLastIndex p r) as [j|].
  - split; [discriminate|]. intros H. apply orb_false_iff in H.
    destruct H as [_ H]. apply IH in H. discriminate.
  - rewrite (proj1 IH eq_refl). destruct (p x); simpl; split; congruence.
Qed.

Lemma findLastIndex_some {A : Type} (p : A -> bool) (l : list A) (j : nat) :
  findLastIndex p l = Some j -> existsb p (skipn (j + 1) l) = false.
Proof.
  revert j. induction l as [|x r IH]; intros j; simpl; [discriminate|].
  destruct (findLastIndex p r) as [k|] eqn:Hr.
  - intros [= <-]. simpl. now apply IH.
  - destruct (p x); [|discriminate]. intros [= <-]. simpl.
    now apply findLastIndex_none.
Qed.

Lemma findIndex_le_last {A : Type} (p : A -> bool) (l : list A) (i j : nat) :
  findIndex p l = Some i -> findLastIndex p l = Some j -> (i <= j)%nat.
Proof.
  revert i j. induction l as [|x r IH]; intros i j; simpl; [discriminate|].
  destruct (p x) eqn:Hx.
  - intros [= <-] _. lia.
  - destruct (findIndex p r) as [k|] eqn:Hk; simpl; [|discriminate].
    intros [= <-].
    destruct (findLastIndex p r) as [m|] eqn:Hm; [|discriminate].
    intros [= <-]. specialize (IH k m eq_refl eq_refl). lia.
Qed.

Lemma filter_none {A : Type} (p : A -> bool) (l : list A) :
  existsb p l = false -> filter p l = [].
Proof.
  induction l as [|x r IH]; simpl; [reflexivity|].
  destruct (p x); simpl; [discriminate | exact IH].
Qed.

(** The qualifying segments all lie between the first and the last one. *)
Lemma window_filter {A : Type} (p : A -> bool) (l : list A) (i j : nat) :
  findIndex p l = Some i -> findLastIndex p l = Some j ->
  filter p (firstn (j + 1 - i) (skipn i l)) = filter p l.
Proof.
  intros Hi Hj.
  pose proof (findIndex_le_last p l i j Hi Hj) as Hle.
  destruct (findIndex_some p l i Hi) as (Hpre & _).
  pose proof (findLastIndex_some p l j Hj) as Hpost.
  rewrite <- (firstn_skipn i l) at 2.
  rewrite filter_app, (filter_none p _ Hpre). simpl.
  rewrite <- (firstn_skipn (j + 1 - i) (skipn i l)) at 2.
  rewrite filter_app, skipn_skipn.
  replace (j + 1 - i + i)%nat with (j + 1)%nat by lia.
  now rewrite (filter_none p _ Hpost), app_nil_r.
Qed.

Section Reps.

Variable isWork : Lap -> bool.

Lemma addRestToLast_length (reps : list Rep) (t : Q) :
  List.length (addRestToLast reps t) = List.length reps.
Proof.
  induction reps as [|r rest IH]; simpl; [reflexivity|].
  destruct rest; simpl in *; [reflexivity | now rewrite IH].
Qed.

Lemma addRestToLast_fast (reps : list Rep) (t : Q) :
  map fast (addRestToLast reps t) = map fast reps.
Proof.
  induction reps as [|r rest IH]; simpl; [reflexivity|].
  destruct rest; simpl in *; [reflexivity | now rewrite IH].
Qed.

Lemma repStep_fast (reps : list Rep) (seg : Lap) :
  map fast (repStep isWork reps seg)
  = (map fast reps ++ (if isWork seg then [seg] else []))%list.
Proof.
  unfold repStep. destruct (isWork seg).
  - now rewrite map_app.
  - rewrite app_nil_r. destruct reps; [reflexivity | apply addRestToLast_fast].
Qed.

(** The reps are the qualifying segments of the window, in order. *)
Lemma reps_fast (window : list Lap) (reps : list Rep) :
  map fast (fold_left (repStep isWork) window reps)
  = (map fast reps ++ filter isWork window)%list.
Proof.
  revert reps. induction window as [|seg rest IH]; intros reps; simpl.
  - now rewrite app_nil_r.
  - rewrite IH, repStep_fast, <- app_assoc. destruct (isWork seg); reflexivity.
Qed.

End Reps.

Lemma generateWorkoutDescription_eq (laps : list Lap) (paceRange : PaceRange)
  (unitSystem : string) :
  generateWorkoutDescription laps paceRange unitSystem =
  match laps with
  | [] => None
  | _ =>
    let segments := mergeLapsByPace paceRange unitSystem laps in
    match findIndex (qualifies paceRange unitSystem) segments with
    | None => None
    | Some i =>
      match findLastIndex (qualifies paceRange unitSystem) segments with
      | None => None
      | Some j =>
        let reps := fold_left (repStep (qualifies paceRange unitSystem))
                      (firstn (j + 1 - i) (skipn i segments)) [] in
        match reps with
        | [] => None
        | _ =>
          Some (mkUpdate (Some (workoutHeader unitSystem reps))
                  (Some (joinLines
                           (repLines unitSystem (List.length reps)
                              (sumOf moving_time (skipn (j + 1) segments)) O reps))))
        end
      end
    end
  end.
Proof. destruct laps; reflexivity. Qed.

Lemma filter_nonempty {A : Type} (p : A -> bool) (l : list A) :
  existsb p l = true -> filter p l <> [].
Proof.
  induction l as [|x r IH]; simpl; [discriminate|].
  destruct (p x); simpl; [discriminate | exact IH].
Qed.

(** The cases of [generateWorkoutDescription]: no segment of the merged
    output within the range and no workout, or the reps built on the
    segments that are within it. *)
Lemma generateWorkoutDescription_cases (laps : list Lap) (paceRange : PaceRange)
  (unitSystem : string) :
  (existsb (qualifies paceRange unitSystem) (mergeLapsByPace paceRange unitSystem laps)
   = false /\
   generateWorkoutDescription laps paceRange unitSystem = None) \/
  (existsb (qualifies paceRange unitSystem) (mergeLapsByPace paceRange unitSystem laps)
   = true /\
   exists reps cooldownSeconds,
     map fast reps
     = filter (qualifies paceRange unitSystem) (mergeLapsByPace paceRange unitSystem laps) /\
     reps <> [] /\
     generateWorkoutDescription laps paceRange unitSystem
     = Some (mkUpdate (Some (workoutHeader unitSystem reps))
               (Some (joinLines (repLines unitSystem (List.length reps)
                                   cooldownSeconds O reps))))).
Proof.
  rewrite generateWorkoutDescription_eq.
  destruct laps as [|lap0 laps0]; [left; split; reflexivity|].
  set (laps := lap0 :: laps0).
  cbv zeta.
  set (segments := mergeLapsByPace paceRange unitSystem laps).
  destruct (findIndex (qualifies paceRange unitSystem) segments) as [i|] eqn:Hi.
  - assert (Hsome : existsb (qualifies paceRange unitSystem) segments = true).
    { destruct (existsb (qualifies paceRange unitSystem) segments) eqn:E; [reflexivity|].
      apply findIndex_none in E. congruence. }
    destruct (findLastIndex (qualifies paceRange unitSystem) segments) as [j|] eqn:Hj.
    + right. split; [exact Hsome|].
      pose proof (reps_fast (qualifies paceRange unitSystem)
                    (firstn (j + 1 - i) (skipn i segments)) []) as Hfast.
      rewrite (window_filter _ _ i j Hi Hj) in Hfast. simpl in Hfast.
      set (reps := fold_left (repStep (qualifies paceRange unitSystem))
                     (firstn (j + 1 - i) (skipn i segments)) []) in *.
      assert (Hne : reps <> []).
      { intros E. rewrite E in Hfast. simpl in Hfast.
        symmetry in Hfast. revert Hfast. now apply filter_nonempty. }
      exists reps, (sumOf moving_time (skipn (j + 1) segments)).
      split; [exact Hfast|]. split; [exact Hne|].
      destruct reps; [congruence | reflexivity].
    + apply findLastIndex_none in Hj. congruence.
  - left. split; [|reflexivity].
    now apply findIndex_none in Hi.
Qed.

Lemma repLines_length (unitSystem : string) (count : nat) (cooldownSeconds : Q)
  (idx : nat) (reps : list Rep) :
  List.length (repLines unitSystem count cooldownSeconds idx reps) = List.length reps.
Proof.
  revert idx. induction reps as [|r rest IH]; intros idx; simpl; [reflexivity|].
  now rewrite IH.
Qed.

(** X3.  [generateWorkoutDescription] reports no workout exactly when no
    segment of the merged output is within the pace range, as is the case
    when no lap is.  Otherwise the reps are the segments of the merged
    output that are within the range, in their order: the title is the
    header over them, with their number, and the body has one line for
    each. *)
Theorem generateWorkoutDescription_reps (laps : list Lap) (paceRange : PaceRange)
  (unitSystem : string) :
  (generateWorkoutDescription laps paceRange unitSystem = None <->
   existsb (qualifies paceRange unitSystem) (mergeLapsByPace paceRange unitSystem laps)
   = false) /\
  (existsb (qualifies paceRange unitSystem) laps = false ->
   generateWorkoutDescription laps paceRange unitSystem = None) /\
  (forall update,
     generateWorkoutDescription laps paceRange unitSystem = Some update ->
     exists reps lines,
       map fast reps
       = filter (qualifies paceRange unitSystem)
           (mergeLapsByPace paceRange unitSystem laps) /\
       reps <> [] /\
       List.length lines = List.length reps /\
       update = mkUpdate (Some (workoutHeader unitSystem reps)) (Some (joinLines lines))).
Proof.
  assert (Hsame : existsb (qualifies paceRange unitSystem) laps = false ->
                  mergeLapsByPace paceRange unitSystem laps = laps).
  { unfold mergeLapsByPace. induction laps as [|lap rest IH]; intros Hnone; [reflexivity|].
    simpl in Hnone. apply orb_false_iff in Hnone. destruct Hnone as [Hq Hrest].
    rewrite mergeLoop_other by assumption. simpl. f_equal. now apply IH. }
  destruct (generateWorkoutDescription_cases laps paceRange unitSystem)
    as [[Hnone Hres] | [Hsome (reps & cd & Hfast & Hne & Hres)]]; rewrite Hres.
  - split; [tauto|]. split; [reflexivity | discriminate].
  - split; [split; [discriminate | congruence]|].
    split.
    + intros Hnone. rewrite (Hsame Hnone) in Hsome. congruence.
    + intros update [= <-].
      exists reps, (repLines unitSystem (List.length reps) cd O reps).
      repeat split; try assumption.
      apply repLines_length.
Qed.

Lemma generateWorkoutDescription_reps_witness :
  exists reps lines,
    map fast reps
    = filter (qualifies sampleRange "mi")
        (mergeLapsByPace sampleRange "mi"
           [sampleLap 1 400 90; sampleLap 2 400 91; sampleLap 3 400 500]) /\
    reps <> [] /\
    List.length lines = List.length reps /\
    mkUpdate (Some "3:00 x 1 (avg 6:02 min/mi)"%string)
      (Some "1) 3:00 @ 6:02 min/mi + CD"%string)
    = mkUpdate (Some (workoutHeader "mi" reps)) (Some (joinLines lines)).
Proof.
  apply (generateWorkoutDescription_reps
           [sampleLap 1 400 90; sampleLap 2 400 91; sampleLap 3 400 500]
           sampleRange "mi").
  vm_compute. reflexivity.
Defined.

(** ** The configured pace range *)

Lemma parsePace_nonneg (toNumber : string -> option Q) (value : string) (pace : Q) :
  parsePace toNumber value = Some pace -> 0 <= pace.
Proof.
  unfold parsePace.
  destruct (trim value) as [|c r]; [discriminate|].
  destruct (includes ":" (String c r)).
  - destruct (map toNumber (splitColon (String c r))) as [|[m|] [|[s|] rest]];
      try discriminate.
    destruct (negb (Qle_bool 0 s) || Qle_bool 60 s || negb (Qle_bool 0 m))%bool eqn:Hbad;
      [discriminate|].
    intros [= <-].
    apply orb_false_iff in Hbad. destruct Hbad as [Hbad Hm].
    apply orb_false_iff in Hbad. destruct Hbad as [Hs _].
    apply negb_false_iff, Qle_bool_iff in Hm.
    apply negb_false_iff, Qle_bool_iff in Hs.
    assert (H60 : 0 <= fl (s / 60)) by (apply fl_nonneg, Qle_shift_div_l; lra).
    apply fl_nonneg. lra.
  - destruct (toNumber (String c r)) as [num|]; [|discriminate].
    destruct (Qle_bool num 0) eqn:Hle; [discriminate|].
    intros [= <-].
    destruct (Qlt_le_dec 0 num) as [H | H]; [lra|].
    apply Qle_bool_iff in H. congruence.
Qed.

Lemma paceRangeFromSettings_bounds (toNumber : string -> option Q)
  (settings : Settings) (paceRange : PaceRange) :
  paceRangeFromSettings toNumber settings = Some paceRange ->
  0 <= fastest paceRange /\ fastest paceRange <= slowest paceRange.
Proof.
  unfold paceRangeFromSettings.
  destruct (parsePace toNumber (paceRange_fastest settings)) as [a|] eqn:Ha; [|discriminate].
  destruct (parsePace toNumber (paceRange_slowest settings)) as [b|] eqn:Hb; [|discriminate].
  intros [= <-]. simpl.
  apply parsePace_nonneg in Ha. apply parsePace_nonneg in Hb.
  unfold Qmin2, Qmax2.
  destruct (Qle_bool a b) eqn:Hab.
  - apply Qle_bool_iff in Hab. split; assumption.
  - split; [assumption|].
    destruct (Qlt_le_dec b a) as [H | H]; [lra|].
    apply Qle_bool_iff in H. congruence.
Qed.

(** X4.  The pace range read from the settings is defined exactly when
    both pace texts parse, and then it is ordered, whatever the order of
    the two texts, and its fastest pace is not negative. *)
Theorem paceRangeFromSettings_ordered (toNumber : string -> option Q)
  (settings : Settings) :
  (paceRangeFromSettings toNumber settings = None <->
   parsePace toNumber (paceRange_fastest settings) = None \/
   parsePace toNumber (paceRange_slowest settings) = None) /\
  (forall paceRange,
     paceRangeFromSettings toNumber settings = Some paceRange ->
     0 <= fastest paceRange /\ fastest paceRange <= slowest paceRange).
Proof.
  split; [|apply paceRangeFromSettings_bounds].
  unfold paceRangeFromSettings.
  destruct (parsePace toNumber (paceRange_fastest settings)) as [a|];
    [destruct (parsePace toNumber (paceRange_slowest settings)) as [b|]|].
  - split; [discriminate | intros [H | H]; discriminate].
  - split; [now right | reflexivity].
  - split; [now left | reflexivity].
Qed.

Lemma paceRangeFromSettings_ordered_witness :
  exists paceRange,
    paceRangeFromSettings decimalNumber
      (mkSettings "06:00" "22:00" "7:30" "5:30" "mi" None None None false "monday")
    = Some paceRange /\
    0 <= fastest paceRange /\ fastest paceRange <= slowest paceRange.
Proof.
  eexists. split; [reflexivity|].
  apply (proj2 (paceRangeFromSettings_ordered decimalNumber
                  (mkSettings "06:00" "22:00" "7:30" "5:30" "mi" None None None
                     false "monday"))).
  reflexivity.
Defined.

(** ** Snapping and the clock format *)

Lemma jsRound_inject_Z (k : Z) : jsRound (inject_Z k) = k.
Proof.
  unfold jsRound.
  pose proof (Qfloor_le (inject_Z k + (1 # 2))) as Hlo.
  pose proof (Qlt_floor (inject_Z k + (1 # 2))) as Hhi.
  set (r := Qfloor (inject_Z k + (1 # 2))) in *.
  rewrite inject_Z_plus in Hhi. change (inject_Z 1) with 1 in Hhi.
  assert (H1 : inject_Z r < inject_Z (k + 1)).
  { rewrite inject_Z_plus. change (inject_Z 1) with 1. lra. }
  assert (H2 : inject_Z k < inject_Z (r + 1)).
  { rewrite inject_Z_plus. change (inject_Z 1) with 1. lra. }
  rewrite <- Zlt_Qlt in H1, H2. lia.
Qed.

Lemma snapToMinuteIfClose_cases (seconds toleranceSeconds : Q) :
  (snapToMinuteIfClose seconds toleranceSeconds = inject_Z (jsRound (seconds / 60)) * 60 /\
   Qabs (seconds - inject_Z (jsRound (seconds / 60)) * 60) <= toleranceSeconds) \/
  (snapToMinuteIfClose seconds toleranceSeconds = seconds /\
   Qle_bool (Qabs (seconds - inject_Z (jsRound (seconds / 60)) * 60)) toleranceSeconds
   = false).
Proof.
  unfold snapToMinuteIfClose.
  destruct (Qle_bool _ toleranceSeconds) eqn:Hc.
  - left. split; [reflexivity | now apply Qle_bool_iff].
  - right. split; reflexivity.
Qed.

Lemma snapToMinuteIfClose_minute (minutes : Z) (toleranceSeconds : Q) :
  0 <= toleranceSeconds ->
  snapToMinuteIfClose (inject_Z minutes * 60) toleranceSeconds = inject_Z minutes * 60.
Proof.
  intros Htol. unfold snapToMinuteIfClose.
  assert (Hk : jsRound (inject_Z minutes * 60 / 60) = minutes).
  { rewrite <- (jsRound_inject_Z minutes) at 2. unfold jsRound.
    apply Qfloor_comp. field. }
  rewrite Hk.
  assert (Hz : Qle_bool (Qabs (inject_Z minutes * 60 - inject_Z minutes * 60))
                 toleranceSeconds = true).
  { apply Qle_bool_iff.
    setoid_replace (inject_Z minutes * 60 - inject_Z minutes * 60) with 0 by ring.
    exact Htol. }
  now rewrite Hz.
Qed.

(** X5.  [snapToMinuteIfClose] moves a duration by no more than the
    tolerance, gives either the duration itself or a whole number of
    minutes, and snapping its result again changes nothing. *)
Theorem snapToMinuteIfClose_stable (seconds toleranceSeconds : Q) :
  let snapped := snapToMinuteIfClose seconds toleranceSeconds in
  (0 <= toleranceSeconds -> Qabs (seconds - snapped) <= toleranceSeconds) /\
  (snapped = seconds \/ exists minutes : Z, snapped = inject_Z minutes * 60) /\
  snapToMinuteIfClose snapped toleranceSeconds = snapped.
Proof.
  intros snapped. unfold snapped.
  destruct (snapToMinuteIfClose_cases seconds toleranceSeconds)
    as [[Heq Hle] | [Heq Hfar]]; rewrite !Heq.
  - split; [intros _; exact Hle|]. split; [right; eauto|].
    apply snapToMinuteIfClose_minute.
    eapply Qle_trans; [apply Qabs_nonneg | exact Hle].
  - split.
    + intros Htol. setoid_replace (seconds - seconds) with 0 by ring. exact Htol.
    + split; [now left | reflexivity].
Qed.

Lemma snapToMinuteIfClose_stable_witness :
  Qabs (301 - snapToMinuteIfClose 301 2) <= 2.
Proof.
  apply (snapToMinuteIfClose_stable 301 2). discriminate.
Defined.

Lemma string_of_uint_digits (d : Decimal.uint) :
  allDigits (NilEmpty.string_of_uint d) = true.
Proof. induction d; simpl; auto. Qed.

(** The decimal text of a number that is not negative: digits, one at least. *)
Lemma string_of_Z_digits (z : Z) :
  (0 <= z)%Z -> allDigits (string_of_Z z) = true /\ string_of_Z z <> EmptyString.
Proof.
  intros Hz. unfold string_of_Z.
  assert (Hpos : exists d, Z.to_int z = Decimal.Pos d).
  { destruct z as [|p|p]; simpl; eauto. lia. }
  destruct Hpos as [d ->]. simpl.
  unfold NilZero.string_of_uint.
  destruct d; simpl; try (split; [|discriminate]);
    try reflexivity; apply string_of_uint_digits.
Qed.

(** The seconds field: two digits. *)
Lemma padStart2_seconds (s : Z) :
  (0 <= s < 60)%Z ->
  exists d1 d2, padStart2 (string_of_Z s) = String d1 (String d2 EmptyString) /\
                isDigit d1 = true /\ isDigit d2 = true.
Proof.
  intros Hs.
  rewrite <- (Z2Nat.id s) by lia.
  assert (Hn : (Z.to_nat s < 60)%nat) by lia.
  revert Hn. generalize (Z.to_nat s). intros n Hn.
  do 60 (destruct n as [|n]; [vm_compute; eauto|]).
  lia.
Qed.

Lemma jsRem_nonneg (seconds : Q) :
  0 <= seconds ->
  jsRem seconds 60 == seconds - 60 * inject_Z (Qfloor (seconds / 60)) /\
  0 <= jsRem seconds 60 < 60.
Proof.
  intros Hs. unfold jsRem.
  assert (Hq : 0 <= seconds / 60) by (apply Qle_shift_div_l; lra).
  assert (Hb : Qle_bool 0 (seconds / 60) = true) by now apply Qle_bool_iff.
  rewrite Hb.
  pose proof (Qfloor_le (seconds / 60)) as Hlo.
  pose proof (Qlt_floor (seconds / 60)) as Hhi.
  rewrite inject_Z_plus in Hhi. change (inject_Z 1) with 1 in Hhi.
  set (m := inject_Z (Qfloor (seconds / 60))) in *.
  assert (Hsec : seconds == seconds / 60 * 60) by (field; lra).
  split; [reflexivity|]. lra.
Qed.

(** The fields that [formatDuration] prints. *)
Lemma formatDuration_parts (seconds : Q) :
  0 <= seconds ->
  let m := Qfloor (seconds / 60) in
  let s := Qfloor (jsRem seconds 60) in
  exists d1 d2 : ascii,
    (0 <= m)%Z /\ (0 <= s < 60)%Z /\
    formatDuration seconds
    = (string_of_Z m ++ ":" ++ String d1 (String d2 EmptyString))%string /\
    String d1 (String d2 EmptyString) = padStart2 (string_of_Z s) /\
    isDigit d1 = true /\ isDigit d2 = true.
Proof.
  intros Hs m s.
  destruct (jsRem_nonneg seconds Hs) as (Hrem & Hr0 & Hr60).
  assert (Hm : (0 <= m)%Z).
  { change 0%Z with (Qfloor 0). apply Qfloor_resp_le. apply Qle_shift_div_l; lra. }
  assert (Hs0 : (0 <= s)%Z).
  { change 0%Z with (Qfloor 0). now apply Qfloor_resp_le. }
  assert (Hs60 : (s < 60)%Z).
  { pose proof (Qfloor_le (jsRem seconds 60)) as H. fold s in H.
    assert (H' : inject_Z s < inject_Z 60) by (change (inject_Z 60) with 60; lra).
    now rewrite <- Zlt_Qlt in H'. }
  destruct (padStart2_seconds s (conj Hs0 Hs60)) as (d1 & d2 & Hpad & Hd1 & Hd2).
  exists d1, d2.
  repeat split; try assumption; try lia.
  - unfold formatDuration, jsFloor. fold m s. now rewrite Hpad.
  - now rewrite Hpad.
Qed.

(** X6.  [formatDuration] of a duration that is not negative prints its
    whole seconds as minutes and seconds: [M:SS] with [0 <= SS < 60], in
    two digits, and [60 * M + SS] the duration rounded down. *)
Theorem formatDuration_clock (seconds : Q) :
  0 <= seconds ->
  exists (m s : Z) (d1 d2 : ascii),
    (0 <= m)%Z /\ (0 <= s < 60)%Z /\
    (60 * m + s)%Z = Qfloor seconds /\
    formatDuration seconds
    = (string_of_Z m ++ ":" ++ String d1 (String d2 EmptyString))%string /\
    String d1 (String d2 EmptyString) = padStart2 (string_of_Z s) /\
    isDigit d1 = true /\ isDigit d2 = true.
Proof.
  intros Hs.
  destruct (formatDuration_parts seconds Hs) as (d1 & d2 & Hm & Hs60 & Hfmt & Hpad & Hd).
  destruct (jsRem_nonneg seconds Hs) as (Hrem & _).
  set (m := Qfloor (seconds / 60)) in *.
  set (s := Qfloor (jsRem seconds 60)) in *.
  exists m, s, d1, d2.
  repeat split; try assumption; try lia; try apply Hd.
  pose proof (Qfloor_le (jsRem seconds 60)) as Hlo.
  pose proof (Qlt_floor (jsRem seconds 60)) as Hhi.
  fold s in Hlo, Hhi.
  rewrite inject_Z_plus in Hhi. change (inject_Z 1) with 1 in Hhi.
  assert (H1 : inject_Z (60 * m + s) <= seconds).
  { rewrite inject_Z_plus, inject_Z_mult. change (inject_Z 60) with 60. lra. }
  assert (H2 : seconds < inject_Z (60 * m + s + 1)).
  { rewrite !inject_Z_plus, inject_Z_mult.
    change (inject_Z 60) with 60. change (inject_Z 1) with 1. lra. }
  pose proof (Qfloor_le seconds) as H3.
  pose proof (Qlt_floor seconds) as H4.
  assert (H5 : inject_Z (60 * m + s) < inject_Z (Qfloor seconds + 1)) by lra.
  assert (H6 : inject_Z (Qfloor seconds) < inject_Z (60 * m + s + 1)) by lra.
  rewrite <- Zlt_Qlt in H5, H6. lia.
Qed.

Lemma formatDuration_clock_witness :
  exists (m s : Z) (d1 d2 : ascii),
    (0 <= m)%Z /\ (0 <= s < 60)%Z /\
    (60 * m + s)%Z = Qfloor 181.5 /\
    formatDuration 181.5
    = (string_of_Z m ++ ":" ++ String d1 (String d2 EmptyString))%string /\
    String d1 (String d2 EmptyString) = padStart2 (string_of_Z s) /\
    isDigit d1 = true /\ isDigit d2 = true.
Proof.
  apply (formatDuration_clock 181.5). discriminate.
Defined.

(** ** The median, again *)

(** X7.  The typical rep duration does not depend on the order of the
    reps: [median] gives equal values on two arrangements of the same
    durations. *)
Theorem median_permutation (l1 l2 : list Q) :
  Permutation l1 l2 -> median l1 == median l2.
Proof.
  intros Hp.
  pose proof (Permutation_length Hp) as Hlen.
  unfold median.
  set (s1 := sortBy (fun a b => a - b) l1).
  set (s2 := sortBy (fun a b => a - b) l2).
  assert (Hl1 : List.length s1 = List.length l1) by apply Permutation_length, sortBy_perm.
  assert (Hl2 : List.length s2 = List.length l2) by apply Permutation_length, sortBy_perm.
  assert (Hp12 : Permutation s1 s2).
  { unfold s1, s2. rewrite !sortBy_perm. exact Hp. }
  assert (Hnth : forall i, nth i s1 0 == nth i s2 0).
  { intros i. destruct (Nat.lt_ge_cases i (List.length s1)) as [Hi | Hi].
    - apply sorted_nth_unique; auto; apply sortBy_sorted.
    - rewrite !nth_overflow by lia. reflexivity. }
  rewrite Hl1, Hl2, <- Hlen.
  destruct (Nat.eqb (List.length l1 mod 2) 1).
  - apply Hnth.
  - unfold jsRound. rewrite (Hnth (List.length l1 / 2)%nat),
      (Hnth (List.length l1 / 2 - 1)%nat). reflexivity.
Qed.

Lemma median_permutation_witness : median [240; 181; 300] == median [300; 240; 181].
Proof.
  apply (median_permutation [240; 181; 300] [300; 240; 181]).
  apply (perm_trans (l' := [240; 300; 181])).
  - apply perm_skip, perm_swap.
  - apply perm_swap.
Defined.

(** ** The poller: sleeps and outcomes *)

Section PollerSleeps.

Context {B : Type}.
Variable w : World.
Variable canContinue : B -> bool * B.
Variable activityId : Z.
Variable intervalMs : Q.


(** A poll that succeeds returns the laps of its last request, which are
    not empty. *)
Lemma fetchLoop_success (m : Attempts) (fuel : nat) (attempt : Z) (b : B) (tr : Trace)
  (laps : list Lap) :
  fst (fst (fetchLoop w canContinue activityId intervalMs m fuel attempt b tr))
  = PollLaps laps ->
  laps <> [] /\
  exists rest,
    snd (fetchLoop w canContinue activityId intervalMs m fuel attempt b tr)
    = EvLaps activityId (Ok (JArray laps)) :: rest.
Proof.
  revert attempt b tr.
  induction fuel as [|fuel IH]; intros attempt b tr; simpl.
  - destruct (attemptLe attempt m); discriminate.
  - destruct (attemptLe attempt m); simpl; [|discriminate].
    destruct (canContinue b) as [ok b1]. destruct ok; simpl; [|discriminate].
    destruct (w_laps w (List.length tr) activityId) as [[[|lap ls]|]|status];
      try apply IH.
    simpl. intros [= <-]. split; [discriminate | eauto].
Qed.

End PollerSleeps.



(** X9.  A poll that succeeds returns the laps of its last request, and
    they are not empty; a poll whose budget test fails at once issues no
    request. *)
Theorem fetchLapsWithRetry_outcomes {B : Type} (w : World) (activityId : Z)
  (retryPolicy : RetryPolicy) (canContinue : B -> bool * B) (b : B) (tr : Trace)
  (fuel : nat) :
  let run := fetchLapsWithRetry (S fuel) w activityId retryPolicy canContinue b tr in
  (forall laps,
     fst (fst run) = PollLaps laps ->
     laps <> [] /\ exists rest, snd run = EvLaps activityId (Ok (JArray laps)) :: rest) /\
  (fst (canContinue b) = false -> fst (fst run) = PollNull /\ snd run = tr).
Proof.
  intros run. split.
  - intros laps. apply fetchLoop_success.
  - intros Hdeny. unfold run, fetchLapsWithRetry. simpl.
    destruct (attemptLe 1 (maxAttemptsOf retryPolicy)); simpl; [|split; reflexivity].
    destruct (canContinue b) as [ok b1]. simpl in Hdeny. subst ok.
    split; reflexivity.
Qed.

Lemma fetchLapsWithRetry_outcomes_witness :
  easyLaps <> [] /\
  exists rest,
    snd (fetchLapsWithRetry 30 easyWorld 9 (mkRetryPolicy (Some 60) (Some 30) (Some 90))
           (readBudget 90) 2%Z [])
    = EvLaps 9 (Ok (JArray easyLaps)) :: rest.
Proof.
  apply (fetchLapsWithRetry_outcomes easyWorld 9
           (mkRetryPolicy (Some 60) (Some 30) (Some 90)) (readBudget 90) 2%Z [] 29).
  reflexivity.
Defined.

(** ** The read budget of a run *)

Lemma countReads_app (a b : Trace) :
  countReads (a ++ b) = (countReads a + countReads b)%nat.
Proof.
  induction a as [|e a IH]; simpl; [reflexivity|].
  destruct e; simpl; now rewrite IH.
Qed.

Section ReadBudget.

Variable maxReads : Q.

Local Notation "'cap'" := (readCap maxReads).
Local Notation "'withinBudget'" := (withinReadBudget maxReads).

Lemma below_cap (r : Z) : inject_Z r < maxReads -> (r + 1 <= cap)%Z.
Proof.
  intros Hr.
  pose proof (Qle_ceiling maxReads) as Hc.
  assert (H : inject_Z r < inject_Z (Qceiling maxReads)) by lra.
  rewrite <- Zlt_Qlt in H. unfold readCap. lia.
Qed.

Lemma readBudget_permits (r : Z) :
  fst (readBudget maxReads r) = true -> inject_Z (r + 1) < maxReads.
Proof.
  unfold readBudget. simpl. intros H. apply negb_true_iff in H.
  destruct (Qlt_le_dec (inject_Z (r + 1)) maxReads) as [Hlt | Hle]; [exact Hlt|].
  apply Qle_bool_iff in Hle. congruence.
Qed.

Lemma readBudget_denies (r : Z) :
  (cap <= r)%Z -> fst (readBudget maxReads r) = false.
Proof.
  intros Hr. destruct (fst (readBudget maxReads r)) eqn:E; [|reflexivity].
  apply readBudget_permits, below_cap in E. lia.
Qed.

Variable w : World.

Lemma fetchLoop_budget (activityId : Z) (intervalMs : Q) (m : Attempts)
  (fuel : nat) (attempt r : Z) (tr : Trace) :
  withinBudget r tr ->
  let run := fetchLoop w (readBudget maxReads) activityId intervalMs m fuel attempt r tr in
  withinBudget (snd (fst run)) (snd run) /\ (r <= snd (fst run))%Z /\
  ((Z.to_nat (cap - r) + 1 <= fuel)%nat -> fst (fst run) <> PollFuel).
Proof.
  revert attempt r tr.
  induction fuel as [|fuel IH]; intros attempt r tr Hin; simpl.
  - destruct (attemptLe attempt m); simpl; repeat split; try apply Hin; try lia;
      try discriminate.
  - destruct (attemptLe attempt m); simpl;
      [|repeat split; try apply Hin; try lia; discriminate].
    destruct (negb (Qle_bool maxReads (inject_Z (r + 1)))) eqn:Hok; simpl.
    + assert (Hlt : inject_Z (r + 1) < maxReads)
        by (apply readBudget_permits; exact Hok).
      pose proof (below_cap _ Hlt) as Hcap.
      destruct Hin as [Hc1 Hc2].
      assert (Hin1 : forall resp pre,
                 countReads pre = O ->
                 withinBudget (r + 1) (pre ++ EvLaps activityId resp :: tr)).
      { intros resp pre Hpre. unfold withinReadBudget.
        assert (Hcount : countReads (pre ++ EvLaps activityId resp :: tr)
                         = S (countReads tr)).
        { rewrite countReads_app, Hpre. reflexivity. }
        rewrite Hcount. lia. }
      assert (Hgo : forall resp,
                 let run := fetchLoop w (readBudget maxReads) activityId intervalMs m fuel
                              (attempt + 1)%Z (r + 1)%Z
                              (if attemptLt attempt m
                               then EvSleep intervalMs :: EvLaps activityId resp :: tr
                               else EvLaps activityId resp :: tr) in
                 withinBudget (snd (fst run)) (snd run) /\ (r <= snd (fst run))%Z /\
                 ((Z.to_nat (cap - r) + 1 <= S fuel)%nat -> fst (fst run) <> PollFuel)).
      { intros resp.
        assert (Hin2 : withinBudget (r + 1)
                         (if attemptLt attempt m
                          then EvSleep intervalMs :: EvLaps activityId resp :: tr
                          else EvLaps activityId resp :: tr)).
        { destruct (attemptLt attempt m).
          - apply (Hin1 resp [EvSleep intervalMs]). reflexivity.
          - apply (Hin1 resp []). reflexivity. }
        destruct (IH (attempt + 1)%Z (r + 1)%Z _ Hin2) as (Hi & Hr & Hf).
        split; [exact Hi|]. split; [lia|].
        intros Hfuel. apply Hf. lia. }
      destruct (w_laps w (List.length tr) activityId) as [[[|lap laps]|]|status];
        try apply Hgo.
      simpl. split; [apply (Hin1 _ []); reflexivity|]. split; [lia | discriminate].
    + destruct Hin as [Hc1 Hc2]. repeat split; try lia; try assumption. discriminate.
Qed.

Lemma weekPagesLoop_budget (after before : Z) (fuel : nat) (page : Z)
  (activities : list Activity) (r : Z) (tr : Trace) :
  withinBudget r tr ->
  let run := weekPagesLoop w (readBudget maxReads) after before fuel page activities r tr in
  withinBudget (snd (fst run)) (snd run) /\
  ((Z.to_nat (cap - r) + 1 <= fuel)%nat -> fst (fst run) <> PagesFuel).
Proof.
  revert page activities r tr.
  induction fuel as [|fuel IH]; intros page activities r tr Hin; simpl.
  - split; [exact Hin | lia].
  - destruct (negb (Qle_bool maxReads (inject_Z (r + 1)))) eqn:Hok; simpl.
    + assert (Hlt : inject_Z (r + 1) < maxReads)
        by (apply readBudget_permits; exact Hok).
      pose proof (below_cap _ Hlt) as Hcap.
      destruct Hin as [Hc1 Hc2].
      assert (Hin1 : forall resp,
                 withinBudget (r + 1) (EvWeekPage page after before resp :: tr)).
      { intros resp. unfold withinReadBudget. simpl countReads. lia. }
      destruct (w_week w (List.length tr) page after before) as [batch|status]; simpl.
      * destruct (List.length batch <? 200)%nat; simpl;
          [split; [apply Hin1 | discriminate]|].
        destruct (IH (page + 1)%Z (activities ++ batch)%list (r + 1)%Z _
                    (Hin1 (Ok batch))) as (Hi & Hf).
        split; [exact Hi|]. intros Hfuel. apply Hf. lia.
      * split; [apply Hin1 | discriminate].
    + destruct Hin as [Hc1 Hc2]. split; [split; lia | discriminate].
Qed.

End ReadBudget.

Lemma processActivity_budget (fuel : nat) (w : World) (settings : Settings)
  (retryPolicy : RetryPolicy) (paceRange : PaceRange) (defaultNames : list string)
  (summary : Activity) (r : Z) (tr : Trace) :
  let maxReads := orElse (maxReadsPerRun retryPolicy) 90 in
  withinReadBudget maxReads r tr -> (1 <= r)%Z ->
  let run := processActivity fuel w settings retryPolicy paceRange defaultNames
               summary r tr in
  withinReadBudget maxReads (snd (fst run)) (snd run) /\ (r <= snd (fst run))%Z /\
  ((Z.to_nat (readCap maxReads) <= fuel)%nat -> fst (fst run) <> NoFuel).
Proof.
  intros maxReads Hin Hr. unfold processActivity. fold maxReads.
  assert (Hkeep : withinReadBudget maxReads r tr /\ (r <= r)%Z /\
                  ((Z.to_nat (readCap maxReads) <= fuel)%nat -> Next <> NoFuel))
    by (repeat split; try apply Hin; try lia; discriminate).
  destruct (Qle_bool maxReads (inject_Z r)) eqn:Hcap; simpl.
  { repeat split; try apply Hin; try lia; discriminate. }
  destruct (_ && _)%bool; [exact Hkeep|].
  destruct (isAlreadyRenamed _); [exact Hkeep|].
  destruct (negb (isDefaultName (act_name summary) defaultNames)); [exact Hkeep|].
  assert (Hlt : inject_Z r < maxReads).
  { destruct (Qlt_le_dec (inject_Z r) maxReads) as [H | H]; [exact H|].
    apply Qle_bool_iff in H. congruence. }
  pose proof (below_cap maxReads r Hlt) as Hroom.
  assert (Hin1 : forall resp,
             withinReadBudget maxReads (r + 1) (EvDetail (act_id summary) resp :: tr)).
  { intros resp. destruct Hin as [H1 H2]. unfold withinReadBudget. simpl countReads. lia. }
  assert (Hkeep1 : forall resp,
             withinReadBudget maxReads (r + 1) (EvDetail (act_id summary) resp :: tr) /\
             (r <= r + 1)%Z /\
             ((Z.to_nat (readCap maxReads) <= fuel)%nat -> Next <> NoFuel))
    by (intros resp; repeat split; try apply Hin1; try lia; discriminate).
  destruct (w_detail w (List.length tr) (act_id summary)) as [detail|status];
    [|apply Hkeep1].
  destruct (isRace detail); [apply Hkeep1|].
  destruct (negb (isDefaultName (act_name detail) defaultNames)); [apply Hkeep1|].
  unfold fetchLapsWithRetry.
  match goal with
  | |- context [fetchLoop ?w0 ?cc ?id ?iv ?m ?f ?a ?b0 ?t0] =>
      destruct (fetchLoop_budget maxReads w0 id iv m f a b0 t0 (Hin1 _))
        as (Hin2 & Hmono & Hfuel);
      destruct (fetchLoop w0 cc id iv m f a b0 t0) as [[res r2] tr2]
  end.
  simpl in Hin2, Hmono, Hfuel.
  assert (Hnofuel : (Z.to_nat (readCap maxReads) <= fuel)%nat -> res <> PollFuel).
  { intros Hf. apply Hfuel. unfold readCap in *. lia. }
  destruct res; simpl.
  - split; [|split; [lia | discriminate]].
    destruct Hin2 as [H1 H2]. unfold withinReadBudget. simpl countReads. lia.
  - split; [exact Hin2 | split; [lia | discriminate]].
  - split; [exact Hin2 | split; [lia|]]. intros Hf. now apply Hnofuel in Hf.
Qed.

Lemma processActivities_budget (fuel : nat) (w : World) (settings : Settings)
  (retryPolicy : RetryPolicy) (paceRange : PaceRange) (defaultNames : list string)
  (activities : list Activity) (r : Z) (tr : Trace) :
  let maxReads := orElse (maxReadsPerRun retryPolicy) 90 in
  withinReadBudget maxReads r tr -> (1 <= r)%Z ->
  let run := processActivities fuel w settings retryPolicy paceRange defaultNames
               activities r tr in
  withinReadBudget maxReads (snd (fst run)) (snd run) /\ (1 <= snd (fst run))%Z /\
  ((Z.to_nat (readCap maxReads) <= fuel)%nat -> fst (fst run) <> OutOfFuel).
Proof.
  intros maxReads. revert r tr.
  induction activities as [|summary rest IH]; intros r tr Hin Hr; simpl.
  - repeat split; try apply Hin; try lia. discriminate.
  - destruct (processActivity_budget fuel w settings retryPolicy paceRange defaultNames
                summary r tr Hin Hr) as (Hin1 & Hmono & Hfuel).
    destruct (processActivity fuel w settings retryPolicy paceRange defaultNames
                summary r tr) as [[flow r1] tr1].
    simpl in Hin1, Hmono, Hfuel.
    destruct flow; simpl.
    + apply IH; [exact Hin1 | lia].
    + split; [exact Hin1 | split; [lia | discriminate]].
    + split; [exact Hin1 | split; [lia|]]. intros Hf. now apply Hfuel in Hf.
Qed.

Lemma maybeFinalizePreviousWeek_budget (toNumber dateTime : string -> option Q)
  (fuel : nat) (now : DateTime) (settings : Settings) (w : World) (maxReads : Q)
  (r : Z) (tr : Trace) :
  withinReadBudget maxReads r tr -> (1 <= r)%Z ->
  let run := maybeFinalizePreviousWeek toNumber dateTime fuel now settings w
               (readBudget maxReads) r tr in
  (Z.of_nat (countReads (snd run)) <= readCap maxReads)%Z /\
  ((Z.to_nat (readCap maxReads) <= fuel)%nat -> fst (fst run) <> OutOfFuel).
Proof.
  intros Hin Hr. unfold maybeFinalizePreviousWeek.
  destruct (negb (Qle_bool _ _)); simpl; [split; [apply Hin | discriminate]|].
  match goal with
  | |- context [weekPagesLoop w ?cc ?a ?bf fuel 1 [] r tr] =>
      destruct (weekPagesLoop_budget maxReads w a bf fuel 1 [] r tr Hin) as (Hin1 & Hfuel);
      destruct (weekPagesLoop w cc a bf fuel 1 [] r tr) as [[pages r1] tr1]
  end.
  simpl in Hin1, Hfuel.
  destruct pages as [activities| |]; simpl.
  - destruct (weekTotalRename dateTime settings activities) as [[id newName]|]; simpl;
      (split; [apply Hin1 | discriminate]).
  - split; [apply Hin1 | discriminate].
  - split; [apply Hin1|]. intros Hf. exfalso.
    apply Hfuel; [unfold readCap in *; lia | reflexivity].
Qed.

Lemma main_budget (toNumber dateTime : string -> option Q) (fuel : nat)
  (settings : Settings) (creds : Credentials) (now : DateTime) (w : World) :
  let run := main toNumber dateTime fuel settings creds now w in
  (Z.of_nat (countReads (snd run)) <= readCap (configuredMaxReads settings))%Z /\
  ((Z.to_nat (readCap (configuredMaxReads settings)) <= fuel)%nat ->
   fst run <> OutOfFuel).
Proof.
  assert (Hcap : (1 <= readCap (configuredMaxReads settings))%Z) by apply Z.le_max_l.
  unfold main.
  destruct (isWithinActiveHours toNumber settings now); simpl;
    [|split; [lia | discriminate]].
  destruct (credentialsMissing creds); [split; [simpl; lia | discriminate]|].
  destruct (paceRangeFromSettings toNumber settings) as [paceRange|];
    [|split; [simpl; lia | discriminate]].
  destruct (w_refresh w) as [token|status]; [|split; [simpl; lia | discriminate]].
  destruct (w_list w (dayStart now)) as [activities|status];
    [|split; [simpl; lia | discriminate]].
  match goal with
  | |- context [processActivities fuel w settings ?rp ?pr ?dn activities 1 ?t] =>
      destruct (processActivities_budget fuel w settings rp pr dn activities 1 t)
        as (Hin & Hr & Hfuel);
      [unfold withinReadBudget, readCap; cbn [countReads]; lia | lia |];
      destruct (processActivities fuel w settings rp pr dn activities 1 t) as [[o r2] tr2]
  end.
  simpl in Hin, Hr, Hfuel. fold (configuredMaxReads settings) in *.
  assert (Hdone : forall o' tr',
             (o', tr') = (match o with OutOfFuel => (OutOfFuel, tr2)
                          | _ => (Completed, tr2) end) ->
             (Z.of_nat (countReads tr') <= readCap (configuredMaxReads settings))%Z /\
             ((Z.to_nat (readCap (configuredMaxReads settings)) <= fuel)%nat ->
              o' <> OutOfFuel)).
  { intros o' tr' E. destruct o; injection E as -> ->;
      (split; [apply Hin|]); try discriminate. exact Hfuel. }
  destruct (weekTotals settings).
  - destruct o; try (apply (Hdone _ _ eq_refl));
      (destruct (maybeFinalizePreviousWeek_budget toNumber dateTime fuel now settings w
                   (configuredMaxReads settings) r2 tr2 Hin Hr) as (Hc & Hf);
       destruct (maybeFinalizePreviousWeek toNumber dateTime fuel now settings w
                   (readBudget (configuredMaxReads settings)) r2 tr2) as [[o3 r3] tr3];
       simpl in *; split; assumption).
  - destruct o; apply (Hdone _ _ eq_refl).
Qed.

(** X10.  A run issues at most [max(1, ceil(maxReadsPerRun))] reads
    (listings, details, laps), whatever the activities and the answers of
    the service. *)
Theorem main_read_budget (toNumber dateTime : string -> option Q) (fuel : nat)
  (settings : Settings) (creds : Credentials) (now : DateTime) (w : World) :
  (Z.of_nat (countReads (snd (main toNumber dateTime fuel settings creds now w)))
   <= Z.max 1 (Qceiling (configuredMaxReads settings)))%Z.
Proof.
  apply (main_budget toNumber dateTime fuel settings creds now w).
Qed.

(** X11.  A run ends, whatever the retry policy: every turn of its inner
    loops uses the read budget, so with [max(1, ceil(maxReadsPerRun))]
    units of fuel or more [main] does not run out of fuel. *)
Theorem main_terminates (toNumber dateTime : string -> option Q) (fuel : nat)
  (settings : Settings) (creds : Credentials) (now : DateTime) (w : World) :
  (Z.to_nat (Z.max 1 (Qceiling (configuredMaxReads settings))) <= fuel)%nat ->
  fst (main toNumber dateTime fuel settings creds now w) <> OutOfFuel.
Proof.
  apply (main_budget toNumber dateTime fuel settings creds now w).
Qed.

Lemma main_terminates_witness :
  fst (main decimalNumber sampleDate 10
         (mkSettings "06:00" "22:00" "5:30" "7:30" "mi" None
            (Some (mkRetryPolicy (Some 0) (Some 30) (Some 10)))
            (Some ["Morning Run"%string]) true "monday")
         sampleCredentials earlyMonday
         (mkWorld (Ok "access"%string) (fun _ => Ok [todaysRun])
            (fun _ _ => Ok todaysRun) (fun _ _ => Ok (JArray []))
            (fun _ _ _ _ => Ok []) (fun _ _ _ => true)))
  <> OutOfFuel.
Proof.
  apply (main_terminates decimalNumber sampleDate 10
           (mkSettings "06:00" "22:00" "5:30" "7:30" "mi" None
              (Some (mkRetryPolicy (Some 0) (Some 30) (Some 10)))
              (Some ["Morning Run"%string]) true "monday")).
  vm_compute. lia.
Defined.

(** ** The names a run writes *)

Lemma qualifies_time_nonneg (paceRange : PaceRange) (unitSystem : string) (lap : Lap) :
  0 <= fastest paceRange ->
  qualifies paceRange unitSystem lap = true -> 0 <= moving_time lap.
Proof.
  intros Hf Hq. unfold qualifies, paceMinutesPerUnit in Hq.
  destruct (Qle_bool (distance lap) 0) eqn:Hd; [discriminate|].
  assert (Hpos : 0 < distance lap).
  { destruct (Qlt_le_dec 0 (distance lap)) as [H | H]; [exact H|].
    apply Qle_bool_iff in H. congruence. }
  pose proof (unit_positive (distance lap) unitSystem Hpos) as Hu.
  apply andb_true_iff in Hq. destruct Hq as [Hlo _]. apply Qle_bool_iff in Hlo.
  destruct (quotient_sign (fl (moving_time lap / 60)) _ Hu) as [Hq0 _].
  destruct (quotient_sign (moving_time lap) 60 ltac:(reflexivity)) as [Hs0 _].
  apply Hs0, fl_nonneg_iff, Hq0, fl_nonneg_iff. lra.
Qed.

Lemma jsRound_nonneg (x : Q) : 0 <= x -> (0 <= jsRound x)%Z.
Proof.
  intros Hx. unfold jsRound. change 0%Z with (Qfloor 0). apply Qfloor_resp_le. lra.
Qed.

Lemma snapToMinuteIfClose_nonneg (seconds toleranceSeconds : Q) :
  0 <= seconds -> 0 <= snapToMinuteIfClose seconds toleranceSeconds.
Proof.
  intros Hs.
  destruct (snapToMinuteIfClose_cases seconds toleranceSeconds) as [[-> _] | [-> _]];
    [|exact Hs].
  assert (Hk : (0 <= jsRound (seconds / 60))%Z)
    by (apply jsRound_nonneg, Qle_shift_div_l; lra).
  rewrite Zle_Qle in Hk. change (inject_Z 0) with 0 in Hk.
  apply Qmult_le_0_compat; lra.
Qed.

Lemma median_nonneg (values : list Q) :
  Forall (fun v => 0 <= v) values -> 0 <= median values.
Proof.
  intros Hall. unfold median.
  set (sorted := sortBy (fun a b => a - b) values).
  assert (Hs : Forall (fun v => 0 <= v) sorted).
  { eapply Permutation_Forall; [|exact Hall].
    symmetry. apply sortBy_perm. }
  assert (Hnth : forall i, 0 <= nth i sorted 0).
  { intros i. destruct (Nat.lt_ge_cases i (List.length sorted)) as [Hi | Hi].
    - rewrite Forall_forall in Hs. apply Hs, nth_In, Hi.
    - rewrite nth_overflow by lia. lra. }
  destruct (Nat.eqb (List.length sorted mod 2) 1); [apply Hnth|].
  pose proof (Hnth (List.length sorted / 2 - 1)%nat) as Ha.
  pose proof (Hnth (List.length sorted / 2)%nat) as Hb.
  assert (Hm : (0 <= jsRound ((nth (List.length sorted / 2 - 1) sorted 0%Q
                               + nth (List.length sorted / 2) sorted 0%Q) / 2))%Z)
    by (apply jsRound_nonneg, Qle_shift_div_l; lra).
  rewrite Zle_Qle in Hm. exact Hm.
Qed.

(** *** The pattern of the interval header *)

Lemma dropWhile_digits (ds rest : string) :
  allDigits ds = true ->
  dropWhile isDigit (ds ++ rest)%string = dropWhile isDigit rest.
Proof.
  induction ds as [|c r IH]; simpl; [reflexivity|].
  intros H. apply andb_true_iff in H. destruct H as [Hc Hr]. rewrite Hc. now apply IH.
Qed.

Lemma some1_digits (ds rest : string) :
  allDigits ds = true -> ds <> EmptyString ->
  some1 isDigit (ds ++ rest)%string = Some (dropWhile isDigit rest).
Proof.
  destruct ds as [|c r]; [congruence|]. simpl.
  intros H _. apply andb_true_iff in H. destruct H as [Hc Hr].
  rewrite Hc. now rewrite dropWhile_digits.
Qed.

Lemma digits_begin (ds rest : string) :
  allDigits ds = true -> ds <> EmptyString ->
  dropWhile isSpace (ds ++ rest)%string = (ds ++ rest)%string.
Proof.
  destruct ds as [|c r]; [congruence|]. simpl.
  intros H _. apply andb_true_iff in H. destruct H as [Hc _].
  assert (Hs : isSpace c = false).
  { unfold isDigit, isSpace in *.
    apply andb_true_iff in Hc. destruct Hc as [H1 H2].
    apply Nat.leb_le in H1. apply Nat.leb_le in H2.
    apply orb_false_iff. split.
    - apply Nat.eqb_neq. lia.
    - apply andb_false_iff. right. apply Nat.leb_gt. lia. }
  now rewrite Hs.
Qed.

Lemma one_hit (p : ascii -> bool) (c : ascii) (r : string) :
  p c = true -> one p (String c r) = Some r.
Proof. intros H. simpl. now rewrite H. Qed.

Lemma some1_hit (p : ascii -> bool) (c : ascii) (r : string) :
  p c = true -> some1 p (String c r) = Some (dropWhile p r).
Proof. intros H. simpl. now rewrite H. Qed.

Lemma dropWhile_stop (p : ascii -> bool) (c : ascii) (r : string) :
  p c = false -> dropWhile p (String c r) = String c r.
Proof. intros H. simpl. now rewrite H. Qed.

Lemma andThen_some (s : string) (f : string -> option string) :
  andThen (Some s) f = f s.
Proof. reflexivity. Qed.

Lemma header_matches (mins count tail : string) (d1 d2 : ascii) :
  allDigits mins = true -> mins <> EmptyString ->
  isDigit d1 = true -> isDigit d2 = true ->
  allDigits count = true -> count <> EmptyString ->
  looksLikeIntervalHeader
    ((mins ++ ":" ++ String d1 (String d2 EmptyString)) ++ " x " ++ count ++ tail)%string
  = true.
Proof.
  intros Hm Hm' Hd1 Hd2 Hc Hc'.
  assert (E : ((mins ++ ":" ++ String d1 (String d2 EmptyString))
               ++ " x " ++ count ++ tail)%string
              = (mins ++ String ":" (String d1 (String d2
                   (String " " (String "x" (String " " (count ++ tail)))))))%string).
  { rewrite <- string_app_assoc. reflexivity. }
  rewrite E. unfold looksLikeIntervalHeader.
  rewrite (some1_digits mins _ Hm Hm'), andThen_some.
  rewrite (dropWhile_stop isDigit ":" _ eq_refl).
  rewrite (one_hit (Ascii.eqb ":") ":" _ eq_refl), andThen_some.
  rewrite (one_hit isDigit d1 _ Hd1), andThen_some.
  rewrite (one_hit isDigit d2 _ Hd2), andThen_some.
  rewrite (some1_hit isSpace " " _ eq_refl), andThen_some.
  rewrite (dropWhile_stop isSpace "x" _ eq_refl).
  rewrite (one_hit (fun c => Ascii.eqb (lowerChar c) "x") "x" _ eq_refl), andThen_some.
  rewrite (some1_hit isSpace " " _ eq_refl), andThen_some.
  rewrite (digits_begin count tail Hc Hc').
  now rewrite (some1_digits count tail Hc Hc').
Qed.

Lemma workoutHeader_matches (unitSystem : string) (reps : list Rep) :
  Forall (fun rep => 0 <= moving_time (fast rep)) reps ->
  looksLikeIntervalHeader (workoutHeader unitSystem reps) = true.
Proof.
  intros Hall. unfold workoutHeader.
  assert (Htimes : Forall (fun v => 0 <= v) (repTimes reps)).
  { unfold repTimes. induction Hall as [|rep rest Hrep _ IH]; simpl; constructor.
    - now apply snapToMinuteIfClose_nonneg.
    - exact IH. }
  destruct (formatDuration_parts _ (median_nonneg _ Htimes))
    as (d1 & d2 & Hm & _ & -> & _ & Hd1 & Hd2).
  destruct (string_of_Z_digits _ Hm) as [Hmd Hmne].
  destruct (string_of_Z_digits (Z.of_nat (List.length reps)) (Nat2Z.is_nonneg _))
    as [Hcd Hcne].
  now apply header_matches.
Qed.

Lemma isAlreadyRenamed_header (name : string) :
  looksLikeIntervalHeader name = true -> isAlreadyRenamed (Some name) = true.
Proof.
  intros H. destruct name as [|c r]; [discriminate|].
  unfold isAlreadyRenamed.
  destruct (includes "easy run" _); [reflexivity|].
  destruct (includes "week total:" _); [reflexivity | exact H].
Qed.

(** The name that [buildUpdate] gives is one that [isAlreadyRenamed]
    recognises. *)
Lemma buildUpdate_marked (activity : Activity) (laps : list Lap)
  (paceRange : PaceRange) (settings : Settings) :
  0 <= fastest paceRange ->
  isAlreadyRenamed (upd_name (buildUpdate activity laps paceRange settings)) = true.
Proof.
  intros Hf. unfold buildUpdate.
  destruct (generateWorkoutDescription_cases laps paceRange (settingsUnit settings))
    as [[_ ->] | [_ (reps & cd & Hfast & _ & ->)]]; [reflexivity|].
  simpl. apply isAlreadyRenamed_header, workoutHeader_matches.
  assert (Hq : Forall (fun seg => qualifies paceRange (settingsUnit settings) seg = true)
                 (map fast reps)).
  { rewrite Hfast. apply Forall_forall. intros seg Hin.
    apply filter_In in Hin. apply Hin. }
  rewrite Forall_map in Hq.
  eapply Forall_impl; [|exact Hq].
  intros rep Hrep. simpl in Hrep. eapply qualifies_time_nonneg; eauto.
Qed.

Lemma toLowerCase_app (a b : string) :
  toLowerCase (a ++ b) = (toLowerCase a ++ toLowerCase b)%string.
Proof.
  induction a as [|c r IH]; simpl; [reflexivity | now rewrite IH].
Qed.

Lemma includes_middle (sub a b : string) : includes sub (a ++ sub ++ b)%string = true.
Proof.
  induction a as [|c r IH]; simpl.
  - apply includes_startsWith, startsWith_app.
  - rewrite IH. apply orb_true_r.
Qed.

(** The name that the weekly aggregator gives is one too. *)
Lemma weekly_name_marked (name : string) (totalMeters : Q) (unitSystem : string) :
  isAlreadyRenamed
    (Some (appendWeekTotalSuffix name (formatWeekTotalSuffix totalMeters unitSystem)))
  = true.
Proof.
  destruct (appendWeekTotalSuffix_shape name (formatWeekTotalSuffix totalMeters unitSystem))
    as [p ->]; [apply suffix_begins | apply suffix_ends |].
  assert (Hinc : includes "week total:"
                   (toLowerCase (p ++ formatWeekTotalSuffix totalMeters unitSystem)) = true).
  { rewrite toLowerCase_app. unfold formatWeekTotalSuffix.
    set (rest := (toFixed1 _ ++ _)%string).
    change (toLowerCase ("(Week Total: " ++ rest))
      with ("(" ++ "week total:" ++ " " ++ toLowerCase rest)%string.
    rewrite string_app_assoc. apply includes_middle. }
  unfold isAlreadyRenamed.
  destruct (p ++ formatWeekTotalSuffix totalMeters unitSystem)%string as [|c r] eqn:E.
  - destruct p; simpl in E; discriminate.
  - rewrite Hinc. destruct (includes "easy run" _); reflexivity.
Qed.

(** *** The writes of a run *)

Lemma putsMarked_app (ext tr : Trace) :
  forallb (fun e => negb (isPut e)) ext = true ->
  putsMarked (ext ++ tr) = putsMarked tr.
Proof.
  induction ext as [|e ext IH]; simpl; [reflexivity|].
  intros H. apply andb_true_iff in H. destruct H as [He Hext].
  destruct e; simpl in He; try discriminate; now apply IH.
Qed.

Lemma weekPagesLoop_marked {B : Type} (w : World) (consumeRead : B -> bool * B)
  (after before : Z) (fuel : nat) (page : Z) (activities : list Activity)
  (b : B) (tr : Trace) :
  putsMarked (snd (weekPagesLoop w consumeRead after before fuel page activities b tr))
  = putsMarked tr.
Proof.
  revert page activities b tr.
  induction fuel as [|fuel IH]; intros page activities b tr; simpl; [reflexivity|].
  destruct (consumeRead b) as [ok b1]. destruct ok; simpl; [|reflexivity].
  destruct (w_week w (List.length tr) page after before) as [batch|status]; [|reflexivity].
  destruct (List.length batch <? 200)%nat; [reflexivity|].
  now rewrite IH.
Qed.

Lemma weekTotalRename_marked (dateTime : string -> option Q) (settings : Settings)
  (activities : list Activity) (id : Z) (newName : string) :
  weekTotalRename dateTime settings activities = Some (id, newName) ->
  isAlreadyRenamed (Some newName) = true.
Proof.
  unfold weekTotalRename.
  destruct activities as [|a0 rest]; [discriminate|].
  destruct (filter isRun (a0 :: rest)) as [|r0 runs]; [discriminate|].
  destruct (selectLastRun dateTime (r0 :: runs)) as [lastRun|]; [|discriminate].
  destruct (_ && _)%bool; [discriminate|].
  intros [= _ <-]. apply weekly_name_marked.
Qed.

Lemma maybeFinalizePreviousWeek_marked {B : Type} (toNumber dateTime : string -> option Q)
  (fuel : nat) (now : DateTime) (settings : Settings) (w : World)
  (consumeRead : B -> bool * B) (b : B) (tr : Trace) :
  putsMarked tr = true ->
  putsMarked (snd (maybeFinalizePreviousWeek toNumber dateTime fuel now settings w
                     consumeRead b tr)) = true.
Proof.
  intros Hm. unfold maybeFinalizePreviousWeek.
  destruct (negb (Qle_bool _ _)); [exact Hm|].
  match goal with
  | |- context [weekPagesLoop w consumeRead ?a ?bf fuel 1 [] b tr] =>
      pose proof (weekPagesLoop_marked w consumeRead a bf fuel 1 [] b tr) as Hsame;
      destruct (weekPagesLoop w consumeRead a bf fuel 1 [] b tr) as [[pages b1] tr1]
  end.
  simpl in Hsame. rewrite Hm in Hsame.
  destruct pages as [activities| |]; simpl; try exact Hsame.
  destruct (weekTotalRename dateTime settings activities) as [[id newName]|] eqn:Hre;
    [|exact Hsame].
  cbn [snd putsMarked upd_name].
  now rewrite (weekTotalRename_marked _ _ _ _ _ Hre), Hsame.
Qed.

Lemma processActivity_marked (fuel : nat) (w : World) (settings : Settings)
  (retryPolicy : RetryPolicy) (paceRange : PaceRange) (defaultNames : list string)
  (summary : Activity) (readsUsed : Z) (tr : Trace) :
  0 <= fastest paceRange ->
  putsMarked tr = true ->
  putsMarked (snd (processActivity fuel w settings retryPolicy paceRange defaultNames
                     summary readsUsed tr)) = true.
Proof.
  intros Hf Hm. unfold processActivity.
  destruct (Qle_bool _ _); [exact Hm|].
  destruct (_ && _)%bool; [exact Hm|].
  destruct (isAlreadyRenamed _); [exact Hm|].
  destruct (negb (isDefaultName (act_name summary) defaultNames)); [exact Hm|].
  destruct (w_detail w (List.length tr) (act_id summary)) as [detail|status];
    [|exact Hm].
  destruct (isRace detail); [exact Hm|].
  destruct (negb (isDefaultName (act_name detail) defaultNames)); [exact Hm|].
  unfold fetchLapsWithRetry.
  match goal with
  | |- context [fetchLoop ?w0 ?cc ?id ?iv ?m ?f ?a ?b0 ?t0] =>
      destruct (fetchLoop_extends w0 cc id iv m f a b0 t0) as (ext & Hext & Hno);
      destruct (fetchLoop w0 cc id iv m f a b0 t0) as [[res b2] tr2]
  end.
  simpl in Hext. subst tr2.
  assert (Hm2 : putsMarked (ext ++ EvDetail (act_id summary) (Ok detail) :: tr) = true)
    by (rewrite putsMarked_app by exact Hno; exact Hm).
  destruct res; cbn [snd putsMarked]; try exact Hm2.
  now rewrite Hm2, buildUpdate_marked.
Qed.

Lemma processActivities_marked (fuel : nat) (w : World) (settings : Settings)
  (retryPolicy : RetryPolicy) (paceRange : PaceRange) (defaultNames : list string)
  (activities : list Activity) (readsUsed : Z) (tr : Trace) :
  0 <= fastest paceRange ->
  putsMarked tr = true ->
  putsMarked (snd (processActivities fuel w settings retryPolicy paceRange defaultNames
                     activities readsUsed tr)) = true.
Proof.
  intros Hf. revert readsUsed tr.
  induction activities as [|summary rest IH]; intros readsUsed tr Hm; simpl.
  - exact Hm.
  - pose proof (processActivity_marked fuel w settings retryPolicy paceRange
                  defaultNames summary readsUsed tr Hf Hm) as Hone.
    destruct (processActivity fuel w settings retryPolicy paceRange defaultNames
                summary readsUsed tr) as [[flow r1] tr1].
    simpl in Hone. destruct flow; simpl; auto.
Qed.

(** X12.  Every name a run writes, in the loop over the day's activities
    and in the weekly aggregator, is one that [isAlreadyRenamed]
    recognises: the loop of a later run skips what this run renamed. *)
Theorem main_writes_marked (toNumber dateTime : string -> option Q) (fuel : nat)
  (settings : Settings) (creds : Credentials) (now : DateTime) (w : World) :
  putsMarked (snd (main toNumber dateTime fuel settings creds now w)) = true.
Proof.
  unfold main.
  destruct (isWithinActiveHours toNumber settings now); simpl; [|reflexivity].
  destruct (credentialsMissing creds); [reflexivity|].
  destruct (paceRangeFromSettings toNumber settings) as [paceRange|] eqn:Hpr;
    [|reflexivity].
  destruct (paceRangeFromSettings_bounds _ _ _ Hpr) as [Hf _].
  destruct (w_refresh w) as [token|status]; [|reflexivity].
  destruct (w_list w (dayStart now)) as [activities|status]; [|reflexivity].
  match goal with
  | |- context [processActivities ?f ?w0 ?s ?rp ?pr ?dn ?acts ?r ?t] =>
      pose proof (processActivities_marked f w0 s rp pr dn acts r t Hf eq_refl) as Hloop;
      destruct (processActivities f w0 s rp pr dn acts r t) as [[o r2] tr2]
  end.
  simpl in Hloop.
  destruct (weekTotals settings).
  - destruct o; try exact Hloop;
      (match goal with
       | |- context [maybeFinalizePreviousWeek ?tn ?dt ?f ?n ?s ?w0 ?cc ?r ?t] =>
           pose proof (maybeFinalizePreviousWeek_marked tn dt f n s w0 cc r t Hloop) as Hw;
           destruct (maybeFinalizePreviousWeek tn dt f n s w0 cc r t) as [[o3 r3] tr3]
       end; exact Hw).
  - destruct o; exact Hloop.
Qed.

(** ** The target of the weekly aggregator *)

Lemma insertBy_perm_any {A : Type} (cmp : A -> A -> Q) (x : A) (l : list A) :
  Permutation (insertBy cmp x l) (x :: l).
Proof.
  induction l as [|y r IH]; simpl; [reflexivity|].
  destruct (Qle_bool (cmp x y) 0); [reflexivity|].
  rewrite IH. apply perm_swap.
Qed.

Lemma sortBy_perm_any {A : Type} (cmp : A -> A -> Q) (l : list A) :
  Permutation (sortBy cmp l) l.
Proof.
  induction l as [|x r IH]; simpl; [reflexivity|].
  rewrite insertBy_perm_any. now constructor.
Qed.

(** A sort by a comparator [cmp x y <= 0 <-> key y <= key x] orders the
    keys downwards. *)
Lemma insertBy_sorted_desc {A : Type} (cmp : A -> A -> Q) (key : A -> Q)
  (x : A) (l : list A) :
  (forall y, In y l -> (cmp x y <= 0 <-> key y <= key x)) ->
  StronglySorted (fun a b => key b <= key a) l ->
  StronglySorted (fun a b => key b <= key a) (insertBy cmp x l).
Proof.
  intros Hc Hs. induction Hs as [|y r Hr IH Hy]; simpl.
  - repeat constructor.
  - destruct (Qle_bool (cmp x y) 0) eqn:E.
    + apply Qle_bool_iff in E. apply (Hc y (or_introl eq_refl)) in E.
      constructor; [now constructor|].
      constructor; [exact E|].
      eapply Forall_impl; [|exact Hy]. simpl. intros z Hz. lra.
    + assert (Hxy : key x <= key y).
      { destruct (Qlt_le_dec (key y) (key x)) as [Hlt | Hle]; [|exact Hle].
        assert (H : key y <= key x) by lra.
        apply (Hc y (or_introl eq_refl)), Qle_bool_iff in H. congruence. }
      constructor.
      * apply IH. intros z Hz. apply Hc. now right.
      * eapply Permutation_Forall; [symmetry; apply insertBy_perm_any|].
        constructor; assumption.
Qed.

Lemma sortBy_sorted_desc {A : Type} (cmp : A -> A -> Q) (key : A -> Q) (l : list A) :
  (forall x y, In x l -> In y l -> (cmp x y <= 0 <-> key y <= key x)) ->
  StronglySorted (fun a b => key b <= key a) (sortBy cmp l).
Proof.
  induction l as [|x r IH]; intros Hc; simpl; [constructor|].
  apply insertBy_sorted_desc.
  - intros y Hy. apply Hc; [now left | right].
    eapply Permutation_in; [apply sortBy_perm_any | exact Hy].
  - apply IH. intros a b Ha Hb. apply Hc; now right.
Qed.

(** The first element found in a list sorted downwards has the greatest
    key among those that pass the test. *)
Lemma find_sorted_desc {A : Type} (key : A -> Q) (p : A -> bool) (l : list A) (a : A) :
  StronglySorted (fun x y => key y <= key x) l ->
  find p l = Some a ->
  forall b, In b l -> p b = true -> key b <= key a.
Proof.
  intros Hs. induction Hs as [|x r Hr IH Hx]; simpl; [discriminate|].
  destruct (p x) eqn:Hp.
  - intros [= <-] b [<- | Hb] _; [lra|].
    rewrite Forall_forall in Hx. now apply Hx.
  - intros Hf b [<- | Hb] Hpb; [congruence|]. now apply IH.
Qed.

(** X13.  The activity the weekly aggregator renames is one of the
    listed activities: a run that is no race and has a start date; when
    the start dates parse, no other such run started later.  The new
    name ends with the suffix computed over all the listed runs. *)
Theorem weekTotalRename_target (dateTime : string -> option Q) (settings : Settings)
  (activities : list Activity) (id : Z) (newName : string) :
  weekTotalRename dateTime settings activities = Some (id, newName) ->
  exists lastRun,
    In lastRun activities /\ act_id lastRun = id /\
    isRun lastRun = true /\ isRace lastRun = false /\
    truthy (start_date lastRun) = true /\
    (exists prefix,
       newName = (prefix ++ weekSuffix settings (filter isRun activities))%string) /\
    ((forall a, In a activities -> truthy (start_date a) = true ->
                startTime dateTime a <> None) ->
     forall other t t',
       In other activities -> isRun other = true -> isRace other = false ->
       truthy (start_date other) = true ->
       startTime dateTime other = Some t' -> startTime dateTime lastRun = Some t ->
       t' <= t).
Proof.
  unfold weekTotalRename.
  destruct activities as [|a0 rest]; [discriminate|].
  set (activities := a0 :: rest).
  destruct (filter isRun activities) as [|r0 runs0] eqn:Hruns; [discriminate|].
  rewrite <- Hruns.
  set (runs := filter isRun activities) in *.
  destruct (selectLastRun dateTime runs) as [lastRun|] eqn:Hsel; [|discriminate].
  destruct (_ && _)%bool; [discriminate|].
  intros [= <- <-].
  unfold selectLastRun in Hsel.
  set (dated := filter (fun a => truthy (start_date a)) runs) in *.
  assert (Hin : In lastRun (sortBy (byStartDateDesc dateTime) dated))
    by (apply find_some in Hsel; apply Hsel).
  assert (Hnr : isRace lastRun = false)
    by (apply find_some in Hsel; destruct Hsel as [_ H]; now apply negb_true_iff in H).
  apply (Permutation_in _ (sortBy_perm_any _ _)) in Hin.
  apply filter_In in Hin. destruct Hin as [Hin Hdated].
  apply filter_In in Hin. destruct Hin as [Hin Hrun].
  exists lastRun. repeat split; try assumption.
  - apply appendWeekTotalSuffix_shape; [apply suffix_begins | apply suffix_ends].
  - intros Hparse other t t' Ho Horun Horace Hodated Ht' Ht.
    set (key := fun a => orElse (startTime dateTime a) 0).
    assert (Hsorted : StronglySorted (fun x y => key y <= key x)
                        (sortBy (byStartDateDesc dateTime) dated)).
    { apply sortBy_sorted_desc. intros x y Hx Hy.
      apply filter_In in Hx. destruct Hx as [Hx Hxd].
      apply filter_In in Hx. destruct Hx as [Hx _].
      apply filter_In in Hy. destruct Hy as [Hy Hyd].
      apply filter_In in Hy. destruct Hy as [Hy _].
      pose proof (Hparse x Hx Hxd) as Hpx. pose proof (Hparse y Hy Hyd) as Hpy.
      unfold key, byStartDateDesc, startTime in *.
      destruct (start_date x) as [sx|]; [|discriminate].
      destruct (start_date y) as [sy|]; [|discriminate].
      simpl. destruct (dateTime sx) as [tx|]; [|congruence].
      destruct (dateTime sy) as [ty|]; [|congruence].
      simpl. split; intros H; lra. }
    assert (Hle : key other <= key lastRun).
    { apply (find_sorted_desc key _ _ _ Hsorted Hsel).
      - eapply Permutation_in; [symmetry; apply sortBy_perm_any|].
        apply filter_In. split; [apply filter_In; split; assumption | exact Hodated].
      - now rewrite Horace. }
    unfold key in Hle. now rewrite Ht, Ht' in Hle.
Qed.

Lemma weekTotalRename_target_witness :
  exists lastRun,
    In lastRun [todaysRun; lastWeekRun] /\ act_id lastRun = 9%Z /\
    isRun lastRun = true /\ isRace lastRun = false /\
    truthy (start_date lastRun) = true.
Proof.
  destruct (weekTotalRename_target sampleDate sampleSettings [todaysRun; lastWeekRun]
              9 "Morning Run (Week Total: 11.2 mi)") as (a & H1 & H2 & H3 & H4 & H5 & _).
  - reflexivity.
  - exists a. repeat split; assumption.
Defined.

(** ** The shape of the trace of a run *)

Lemma countPuts_app (a b : Trace) : countPuts (a ++ b) = (countPuts a + countPuts b)%nat.
Proof.
  induction a as [|e a IH]; simpl; [reflexivity|].
  destruct e; simpl; now rewrite IH.
Qed.

Lemma fetchLoop_poll_events {B : Type} (w : World) (canContinue : B -> bool * B)
  (activityId : Z) (intervalMs : Q) (m : Attempts) (fuel : nat) (attempt : Z)
  (b : B) (tr : Trace) :
  exists ext,
    snd (fetchLoop w canContinue activityId intervalMs m fuel attempt b tr) = (ext ++ tr)%list /\
    forallb isPollEvent ext = true.
Proof.
  revert attempt b tr.
  induction fuel as [|fuel IH]; intros attempt b tr; simpl.
  - exists []. destruct (attemptLe attempt m); split; reflexivity.
  - destruct (attemptLe attempt m); simpl; [|exists []; split; reflexivity].
    destruct (canContinue b) as [ok b1].
    destruct ok; simpl; [|exists []; split; reflexivity].
    assert (Hgo : forall tr2 pre,
               tr2 = (pre ++ tr)%list -> forallb isPollEvent pre = true ->
               exists ext,
                 snd (fetchLoop w canContinue activityId intervalMs m fuel
                        (attempt + 1)%Z b1 tr2) = (ext ++ tr)%list /\
                 forallb isPollEvent ext = true).
    { intros tr2 pre -> Hpre.
      destruct (IH (attempt + 1)%Z b1 (pre ++ tr)%list) as (ext & Hext & Hev).
      exists (ext ++ pre)%list. split.
      - rewrite Hext. now rewrite app_assoc.
      - rewrite forallb_app, Hev, Hpre. reflexivity. }
    destruct (w_laps w (List.length tr) activityId) as [[[|lap laps]|]|status];
      try (exists [EvLaps activityId (Ok (JArray (lap :: laps)))]; split; reflexivity);
      (destruct (attemptLt attempt m);
       [eapply (Hgo _ [EvSleep intervalMs; EvLaps activityId _]); reflexivity
       |eapply (Hgo _ [EvLaps activityId _]); reflexivity]).
Qed.

Lemma weekPagesLoop_page_events {B : Type} (w : World) (consumeRead : B -> bool * B)
  (after before : Z) (fuel : nat) (page : Z) (activities : list Activity)
  (b : B) (tr : Trace) :
  exists ext,
    snd (weekPagesLoop w consumeRead after before fuel page activities b tr)
    = (ext ++ tr)%list /\
    forallb isWeekPage ext = true.
Proof.
  revert page activities b tr.
  induction fuel as [|fuel IH]; intros page activities b tr; simpl.
  - exists []. split; reflexivity.
  - destruct (consumeRead b) as [ok b1].
    destruct ok; simpl; [|exists []; split; reflexivity].
    destruct (w_week w (List.length tr) page after before) as [batch|status] eqn:Hresp.
    + destruct (List.length batch <? 200)%nat.
      * exists [EvWeekPage page after before (Ok batch)]. split; reflexivity.
      * destruct (IH (page + 1)%Z (activities ++ batch)%list b1
                    (EvWeekPage page after before (Ok batch) :: tr)) as (ext & Hext & Hev).
        exists (ext ++ [EvWeekPage page after before (Ok batch)])%list. split.
        -- rewrite Hext. now rewrite <- app_assoc.
        -- rewrite forallb_app, Hev. reflexivity.
    + exists [EvWeekPage page after before (Failed status)]. split; reflexivity.
Qed.

Lemma addsQuietly_refl (n : nat) (tr : Trace) : addsQuietly n tr tr.
Proof. exists []. repeat split. simpl. lia. Qed.

Lemma addsQuietly_trans (n m : nat) (tr1 tr2 tr3 : Trace) :
  addsQuietly n tr1 tr2 -> addsQuietly m tr2 tr3 -> addsQuietly (n + m) tr1 tr3.
Proof.
  intros (e1 & -> & Hq1 & Hc1) (e2 & -> & Hq2 & Hc2).
  exists (e2 ++ e1)%list. split; [now rewrite app_assoc|]. split.
  - now rewrite forallb_app, Hq1, Hq2.
  - rewrite countPuts_app. lia.
Qed.

Lemma addsQuietly_weaken (n m : nat) (tr tr' : Trace) :
  (n <= m)%nat -> addsQuietly n tr tr' -> addsQuietly m tr tr'.
Proof.
  intros Hle (e & -> & Hq & Hc). exists e. repeat split; try assumption. lia.
Qed.

Lemma addsQuietly_event (e : Event) (tr : Trace) :
  isRefresh e = false -> addsQuietly (if isPut e then 1 else 0) tr (e :: tr).
Proof.
  intros He. exists [e]. split; [reflexivity|]. split.
  - simpl. now rewrite He.
  - destruct e; simpl; lia.
Qed.

Lemma addsQuietly_poll (ext tr : Trace) :
  forallb isPollEvent ext = true -> addsQuietly 0 tr (ext ++ tr).
Proof.
  intros Hev. exists ext. split; [reflexivity|].
  induction ext as [|e ext IH]; simpl in *; [split; [reflexivity | lia]|].
  apply andb_true_iff in Hev. destruct Hev as [He Hext].
  destruct (IH Hext) as [Hq Hc].
  destruct e; simpl in *; try discriminate; split; assumption.
Qed.

Lemma addsQuietly_pages (ext tr : Trace) :
  forallb isWeekPage ext = true -> addsQuietly 0 tr (ext ++ tr).
Proof.
  intros Hev. exists ext. split; [reflexivity|].
  induction ext as [|e ext IH]; simpl in *; [split; [reflexivity | lia]|].
  apply andb_true_iff in Hev. destruct Hev as [He Hext].
  destruct (IH Hext) as [Hq Hc].
  destruct e; simpl in *; try discriminate; split; assumption.
Qed.

Lemma processActivity_adds (fuel : nat) (w : World) (settings : Settings)
  (retryPolicy : RetryPolicy) (paceRange : PaceRange) (defaultNames : list string)
  (summary : Activity) (readsUsed : Z) (tr : Trace) :
  addsQuietly 1 tr
    (snd (processActivity fuel w settings retryPolicy paceRange defaultNames
            summary readsUsed tr)).
Proof.
  unfold processActivity.
  pose proof (addsQuietly_weaken 0 1 tr tr ltac:(lia) (addsQuietly_refl 0 tr)) as Hsame.
  destruct (Qle_bool _ _); [exact Hsame|].
  destruct (_ && _)%bool; [exact Hsame|].
  destruct (isAlreadyRenamed _); [exact Hsame|].
  destruct (negb (isDefaultName (act_name summary) defaultNames)); [exact Hsame|].
  set (resp := w_detail w (List.length tr) (act_id summary)).
  pose proof (addsQuietly_event (EvDetail (act_id summary) resp) tr eq_refl) as Hd.
  simpl in Hd.
  pose proof (addsQuietly_weaken 0 1 _ _ ltac:(lia) Hd) as Hd1.
  destruct resp as [detail|status]; [|exact Hd1].
  destruct (isRace detail); [exact Hd1|].
  destruct (negb (isDefaultName (act_name detail) defaultNames)); [exact Hd1|].
  unfold fetchLapsWithRetry.
  match goal with
  | |- context [fetchLoop ?w0 ?cc ?id ?iv ?m ?f ?a ?b0 ?t0] =>
      destruct (fetchLoop_poll_events w0 cc id iv m f a b0 t0) as (ext & Hext & Hev);
      destruct (fetchLoop w0 cc id iv m f a b0 t0) as [[res b2] tr2]
  end.
  simpl in Hext. subst tr2.
  pose proof (addsQuietly_trans 0 0 _ _ _ Hd (addsQuietly_poll ext _ Hev)) as Hp.
  destruct res; cbn [snd].
  - apply (addsQuietly_trans 0 1 _ _ _ Hp).
    apply (addsQuietly_event (EvPut _ _ _)). reflexivity.
  - apply (addsQuietly_weaken 0 1); [lia | exact Hp].
  - apply (addsQuietly_weaken 0 1); [lia | exact Hp].
Qed.

Lemma processActivities_adds (fuel : nat) (w : World) (settings : Settings)
  (retryPolicy : RetryPolicy) (paceRange : PaceRange) (defaultNames : list string)
  (activities : list Activity) (readsUsed : Z) (tr : Trace) :
  addsQuietly (List.length activities) tr
    (snd (processActivities fuel w settings retryPolicy paceRange defaultNames
            activities readsUsed tr)).
Proof.
  revert readsUsed tr.
  induction activities as [|summary rest IH]; intros readsUsed tr; simpl.
  - apply addsQuietly_refl.
  - pose proof (processActivity_adds fuel w settings retryPolicy paceRange defaultNames
                  summary readsUsed tr) as Hone.
    destruct (processActivity fuel w settings retryPolicy paceRange defaultNames
                summary readsUsed tr) as [[flow r1] tr1].
    simpl in Hone.
    destruct flow; simpl.
    + apply (addsQuietly_trans 1 (List.length rest) _ _ _ Hone (IH r1 tr1)).
    + apply (addsQuietly_weaken 1); [lia | exact Hone].
    + apply (addsQuietly_weaken 1); [lia | exact Hone].
Qed.

Lemma maybeFinalizePreviousWeek_adds {B : Type} (toNumber dateTime : string -> option Q)
  (fuel : nat) (now : DateTime) (settings : Settings) (w : World)
  (consumeRead : B -> bool * B) (b : B) (tr : Trace) :
  addsQuietly 1 tr
    (snd (maybeFinalizePreviousWeek toNumber dateTime fuel now settings w
            consumeRead b tr)).
Proof.
  unfold maybeFinalizePreviousWeek.
  destruct (negb (Qle_bool _ _));
    [apply (addsQuietly_weaken 0); [lia | apply addsQuietly_refl]|].
  match goal with
  | |- context [weekPagesLoop w consumeRead ?a ?bf fuel 1 [] b tr] =>
      destruct (weekPagesLoop_page_events w consumeRead a bf fuel 1 [] b tr)
        as (ext & Hext & Hev);
      destruct (weekPagesLoop w consumeRead a bf fuel 1 [] b tr) as [[pages b1] tr1]
  end.
  simpl in Hext. subst tr1.
  pose proof (addsQuietly_pages ext tr Hev) as Hp.
  destruct pages as [activities| |]; cbn [snd];
    try (apply (addsQuietly_weaken 0); [lia | exact Hp]).
  destruct (weekTotalRename dateTime settings activities) as [[id newName]|]; cbn [snd].
  - apply (addsQuietly_trans 0 1 _ _ _ Hp).
    apply (addsQuietly_event (EvPut _ _ _)). reflexivity.
  - apply (addsQuietly_weaken 0); [lia | exact Hp].
Qed.

(** X14.  In every run that issues a request, the first request is the
    token refresh and there is no other refresh.  A run writes at most
    once for each activity of the day's listing, and once more when the
    weekly totals are switched on; it writes nothing when the refresh or
    the listing fails. *)
Theorem main_trace_shape (toNumber dateTime : string -> option Q) (fuel : nat)
  (settings : Settings) (creds : Credentials) (now : DateTime) (w : World) :
  let tr := snd (main toNumber dateTime fuel settings creds now w) in
  (tr = [] \/
   exists later, tr = (later ++ [EvRefresh (w_refresh w)])%list /\
                 forallb (fun e => negb (isRefresh e)) later = true) /\
  (countPuts tr
   <= match w_refresh w, w_list w (dayStart now) with
      | Ok _, Ok activities =>
          List.length activities + (if weekTotals settings then 1 else 0)
      | _, _ => 0
      end)%nat.
Proof.
  unfold main.
  destruct (isWithinActiveHours toNumber settings now); simpl;
    [|split; [now left | lia]].
  destruct (credentialsMissing creds); [split; [now left | simpl; lia]|].
  destruct (paceRangeFromSettings toNumber settings) as [paceRange|];
    [|split; [now left | simpl; lia]].
  destruct (w_refresh w) as [token|status] eqn:Hrefresh;
    [|split; [right; exists []; split; reflexivity | simpl; lia]].
  destruct (w_list w (dayStart now)) as [activities|status];
    [|split; [right; exists [EvListToday (dayStart now) (Failed status)];
              split; reflexivity | simpl; lia]].
  set (tr1 := [EvListToday (dayStart now) (Ok activities); EvRefresh (Ok token)]).
  assert (Hshape : forall n tr,
             addsQuietly n tr1 tr ->
             (tr = [] \/
              exists later, tr = (later ++ [EvRefresh (Ok token)])%list /\
                            forallb (fun e => negb (isRefresh e)) later = true) /\
             (countPuts tr <= n)%nat).
  { intros n tr (ext & -> & Hq & Hc). split.
    - right. exists (ext ++ [EvListToday (dayStart now) (Ok activities)])%list. split.
      + unfold tr1. now rewrite <- app_assoc.
      + now rewrite forallb_app, Hq.
    - rewrite countPuts_app. unfold tr1. simpl. lia. }
  match goal with
  | |- context [processActivities ?f ?w0 ?s ?rp ?pr ?dn activities ?r tr1] =>
      pose proof (processActivities_adds f w0 s rp pr dn activities r tr1) as Hloop;
      destruct (processActivities f w0 s rp pr dn activities r tr1) as [[o r2] tr2]
  end.
  simpl in Hloop.
  destruct (weekTotals settings).
  - destruct o;
      try (cbn [snd]; apply Hshape; apply (addsQuietly_weaken (List.length activities));
           [lia | exact Hloop]);
      (match goal with
       | |- context [maybeFinalizePreviousWeek ?tn ?dt ?f ?n ?s ?w0 ?cc ?r ?t] =>
           pose proof (maybeFinalizePreviousWeek_adds tn dt f n s w0 cc r t) as Hw;
           destruct (maybeFinalizePreviousWeek tn dt f n s w0 cc r t) as [[o3 r3] tr3]
       end;
       cbn [snd] in *; apply Hshape;
       apply (addsQuietly_trans _ _ _ _ _ Hloop Hw)).
  - destruct o; cbn [snd]; apply Hshape;
      (apply (addsQuietly_weaken (List.length activities)); [lia | exact Hloop]).
Qed.

(** ** The pace format *)

Lemma clock_not_dash (a b : string) : (a ++ ":" ++ b)%string <> "-"%string.
Proof.
  destruct a as [|c [|c' r]]; simpl; intros H; inversion H.
Qed.

(** X15.  [formatPace] prints ["-"] when the distance is not positive,
    and for a positive distance exactly when the pace is not finite.  For
    a time that is not negative and a pace below [2^46] seconds per unit
    it prints the pace in seconds, the double product [pace * 60] rounded
    to a whole number, as [M:SS] with [0 <= SS < 60], in two digits,
    followed by the unit. *)
Theorem formatPace_shape (meters seconds : Q) (unitSystem : string) :
  (meters <= 0 -> formatPace meters seconds unitSystem = "-"%string) /\
  (forall pace,
     paceMinutesPerUnit meters seconds unitSystem = Some pace ->
     (formatPace meters seconds unitSystem = "-"%string <-> isFinite pace = false) /\
     (0 <= seconds -> fl (pace * 60) < 2 ^ 46 ->
      exists (m s : Z) (d1 d2 : ascii),
        (0 <= m)%Z /\ (0 <= s < 60)%Z /\
        (60 * m + s)%Z = jsRound (fl (pace * 60)) /\
        String d1 (String d2 EmptyString) = padStart2 (string_of_Z s) /\
        isDigit d1 = true /\ isDigit d2 = true /\
        formatPace meters seconds unitSystem
        = (string_of_Z m ++ ":" ++ String d1 (String d2 EmptyString) ++ " "
           ++ (if String.eqb unitSystem "mi" then "min/mi" else "min/km"))%string)).
Proof.
  split.
  - intros Hm. unfold formatPace, paceMinutesPerUnit.
    apply Qle_bool_iff in Hm. now rewrite Hm.
  - intros pace Hpace. split.
    + unfold formatPace. rewrite Hpace.
      destruct (isFinite pace); simpl; [|tauto].
      split; [|discriminate].
      destruct (isFinite (fl (pace * 60))); simpl.
      * intros H. exfalso. revert H. apply clock_not_dash.
      * destruct (Qle_bool 0 (fl (pace * 60))); discriminate.
    + intros Hs Hsmall.
      assert (Hp0 : 0 <= pace).
      { unfold paceMinutesPerUnit in Hpace.
        destruct (Qle_bool meters 0) eqn:Hb; [discriminate|].
        assert (Hm : 0 < meters).
        { destruct (Qlt_le_dec 0 meters) as [H | H]; [exact H|].
          apply Qle_bool_iff in H. congruence. }
        injection Hpace as <-.
        apply pace_sign; [now apply unit_positive | exact Hs]. }
      assert (Hprod0 : 0 <= pace * 60) by nra.
      pose proof (fl_nonneg _ Hprod0) as Hfl0.
      pose proof (fl_lower _ Hprod0) as Hlow.
      assert (H46 : 2 ^ 46 <= 2 ^ 100) by discriminate.
      assert (Hfin : isFinite pace = true) by (apply isFinite_small; lra).
      assert (Hfin' : isFinite (fl (pace * 60)) = true) by (apply isFinite_small; lra).
      unfold formatPace. rewrite Hpace, Hfin, Hfin'. cbn [negb].
      set (total := jsRound (fl (pace * 60))).
      assert (Ht : (0 <= total)%Z) by now apply jsRound_nonneg.
      assert (Ht' : (total <= 2 ^ 46)%Z).
      { unfold total, jsRound.
        assert (H : (Qfloor (fl (pace * 60) + (1 # 2)) <= Qfloor (2 ^ 46 + (1 # 2)))%Z)
          by (apply Qfloor_resp_le; lra).
        assert (Hc : Qfloor (2 ^ 46 + (1 # 2)) = (2 ^ 46)%Z) by (vm_compute; reflexivity).
        now rewrite Hc in H. }
      rewrite (floor_div_60 total (conj Ht Ht')).
      assert (Hrem : Z.rem total 60 = (total mod 60)%Z) by (apply Z.rem_mod_nonneg; lia).
      pose proof (Z.mod_pos_bound total 60 ltac:(lia)) as Hmod.
      pose proof (Z.div_mod total 60 ltac:(lia)) as Hdiv.
      destruct (padStart2_seconds (Z.rem total 60)) as (d1 & d2 & Hpad & Hd1 & Hd2);
        [rewrite Hrem; exact Hmod|].
      exists (total / 60)%Z, (Z.rem total 60), d1, d2.
      repeat split; try assumption; try (rewrite Hrem; lia).
      * apply Z.div_pos; lia.
      * now rewrite Hpad.
      * unfold unitIsMi. now rewrite Hpad.
Qed.

Lemma formatPace_shape_witness :
  exists (m s : Z) (d1 d2 : ascii),
    (0 <= m)%Z /\ (0 <= s < 60)%Z /\
    (60 * m + s)%Z = 182%Z /\
    String d1 (String d2 EmptyString) = padStart2 (string_of_Z s) /\
    isDigit d1 = true /\ isDigit d2 = true /\
    formatPace 400 73 "km"
    = (string_of_Z m ++ ":" ++ String d1 (String d2 EmptyString) ++ " " ++ "min/km")%string.
Proof.
  destruct (formatPace_shape 400 73 "km") as [_ H].
  destruct (H (fl (fl (73 / 60) / fl (400 / 1000))) eq_refl) as [_ Hclock].
  apply Hclock; [discriminate | vm_compute; reflexivity].
Defined.

(** ** What the loop reads, polls and writes *)

Lemma fetchLoop_vetted {B : Type} (defaults : list string) (w : World)
  (canContinue : B -> bool * B) (activityId : Z) (intervalMs : Q) (m : Attempts)
  (fuel : nat) (attempt : Z) (b : B) (tr : Trace) :
  existsb (showsVetted defaults activityId) tr = true ->
  pollsVetted defaults tr = true ->
  existsb (showsVetted defaults activityId)
    (snd (fetchLoop w canContinue activityId intervalMs m fuel attempt b tr)) = true /\
  pollsVetted defaults
    (snd (fetchLoop w canContinue activityId intervalMs m fuel attempt b tr)) = true.
Proof.
  revert attempt b tr.
  induction fuel as [|fuel IH]; intros attempt b tr Hex Hv; simpl.
  - destruct (attemptLe attempt m); simpl; split; assumption.
  - destruct (attemptLe attempt m); simpl; [|split; assumption].
    destruct (canContinue b) as [ok b1]. destruct ok; simpl; [|split; assumption].
    assert (Hex1 : forall resp,
               existsb (showsVetted defaults activityId) (EvLaps activityId resp :: tr)
               = true) by (intros resp; exact Hex).
    assert (Hv1 : forall resp,
               pollsVetted defaults (EvLaps activityId resp :: tr) = true)
      by (intros resp; simpl; now rewrite Hex, Hv).
    destruct (w_laps w (List.length tr) activityId) as [[[|lap laps]|]|status];
      try (split; [apply Hex1 | apply Hv1]);
      (destruct (attemptLt attempt m); apply IH; simpl; rewrite ?Hex, ?Hv; reflexivity).
Qed.

Lemma detailReadsEligible_app (defaults : list string) (activities : list Activity)
  (ext tr : Trace) :
  forallb (fun e => match e with EvDetail _ _ => false | _ => true end) ext = true ->
  detailReadsEligible defaults activities (ext ++ tr)
  = detailReadsEligible defaults activities tr.
Proof.
  induction ext as [|e ext IH]; simpl; [reflexivity|].
  intros H. apply andb_true_iff in H. destruct H as [He Hext].
  destruct e; simpl in He; try discriminate; now apply IH.
Qed.

Lemma poll_events_no_detail (ext : Trace) :
  forallb isPollEvent ext = true ->
  forallb (fun e => match e with EvDetail _ _ => false | _ => true end) ext = true.
Proof.
  induction ext as [|e ext IH]; simpl; [reflexivity|].
  intros H. apply andb_true_iff in H. destruct H as [He Hext].
  destruct e; simpl in He; try discriminate; now apply IH.
Qed.

Lemma page_events_no_detail (ext : Trace) :
  forallb isWeekPage ext = true ->
  forallb (fun e => match e with EvDetail _ _ => false | _ => true end) ext = true.
Proof.
  induction ext as [|e ext IH]; simpl; [reflexivity|].
  intros H. apply andb_true_iff in H. destruct H as [He Hext].
  destruct e; simpl in He; try discriminate; now apply IH.
Qed.

Lemma processActivity_details (fuel : nat) (w : World) (settings : Settings)
  (retryPolicy : RetryPolicy) (paceRange : PaceRange) (defaultNames : list string)
  (listed : list Activity) (summary : Activity) (readsUsed : Z) (tr : Trace) :
  In summary listed ->
  detailReadsEligible defaultNames listed tr = true ->
  detailReadsEligible defaultNames listed
    (snd (processActivity fuel w settings retryPolicy paceRange defaultNames
            summary readsUsed tr)) = true.
Proof.
  intros Hin Hd. unfold processActivity.
  destruct (Qle_bool _ _); [assumption|].
  destruct (negb (looksLikeRun (act_type summary))
            && negb (looksLikeRun (sport_type summary)))%bool eqn:Hrun; [assumption|].
  destruct (isAlreadyRenamed (act_name summary)) eqn:Hren; [assumption|].
  destruct (isDefaultName (act_name summary) defaultNames) eqn:Hdef; simpl; [|assumption].
  assert (Hel : existsb (eligibleSummary defaultNames (act_id summary)) listed = true).
  { apply existsb_exists. exists summary. split; [exact Hin|].
    unfold eligibleSummary, isRun. rewrite Z.eqb_refl, Hren, Hdef.
    rewrite <- negb_orb in Hrun. apply negb_false_iff in Hrun. now rewrite Hrun. }
  assert (Hd1 : forall resp,
             detailReadsEligible defaultNames listed
               (EvDetail (act_id summary) resp :: tr) = true)
    by (intros resp; simpl; now rewrite Hel, Hd).
  destruct (w_detail w (List.length tr) (act_id summary)) as [detail|status];
    [|apply Hd1].
  destruct (isRace detail); [apply Hd1|].
  destruct (negb (isDefaultName (act_name detail) defaultNames)); [apply Hd1|].
  unfold fetchLapsWithRetry.
  match goal with
  | |- context [fetchLoop ?w0 ?cc ?id ?iv ?m ?f ?a ?b0 ?t0] =>
      destruct (fetchLoop_poll_events w0 cc id iv m f a b0 t0) as (ext & Hext & Hev);
      destruct (fetchLoop w0 cc id iv m f a b0 t0) as [[res b2] tr2]
  end.
  simpl in Hext.
  assert (Hd2 : detailReadsEligible defaultNames listed tr2 = true).
  { rewrite Hext, detailReadsEligible_app by (now apply poll_events_no_detail).
    apply Hd1. }
  destruct res; cbn [snd]; exact Hd2.
Qed.

Lemma processActivity_vetted (fuel : nat) (w : World) (settings : Settings)
  (retryPolicy : RetryPolicy) (paceRange : PaceRange) (defaultNames : list string)
  (summary : Activity) (readsUsed : Z) (tr : Trace) :
  pollsVetted defaultNames tr = true ->
  pollsVetted defaultNames
    (snd (processActivity fuel w settings retryPolicy paceRange defaultNames
            summary readsUsed tr)) = true.
Proof.
  intros Hv. unfold processActivity.
  destruct (Qle_bool _ _); [assumption|].
  destruct (_ && _)%bool; [assumption|].
  destruct (isAlreadyRenamed (act_name summary)); [assumption|].
  destruct (negb (isDefaultName (act_name summary) defaultNames)); [assumption|].
  destruct (w_detail w (List.length tr) (act_id summary)) as [detail|status];
    [|exact Hv].
  destruct (isRace detail) eqn:Hrace; [exact Hv|].
  destruct (isDefaultName (act_name detail) defaultNames) eqn:Hdef'; simpl; [|exact Hv].
  unfold fetchLapsWithRetry.
  assert (Hshow : existsb (showsVetted defaultNames (act_id detail))
                    (EvDetail (act_id summary) (Ok detail) :: tr) = true)
    by (simpl; now rewrite Z.eqb_refl, Hrace, Hdef').
  match goal with
  | |- context [fetchLoop ?w0 ?cc ?id ?iv ?m ?f ?a ?b0 ?t0] =>
      destruct (fetchLoop_vetted defaultNames w0 cc id iv m f a b0 t0 Hshow Hv)
        as (Hex2 & Hv2);
      destruct (fetchLoop w0 cc id iv m f a b0 t0) as [[res b2] tr2]
  end.
  simpl in Hex2, Hv2.
  destruct res; cbn [snd]; try assumption.
  cbn [pollsVetted]. now rewrite Hex2, Hv2.
Qed.

Lemma processActivities_details (fuel : nat) (w : World) (settings : Settings)
  (retryPolicy : RetryPolicy) (paceRange : PaceRange) (defaultNames : list string)
  (listed activities : list Activity) (readsUsed : Z) (tr : Trace) :
  incl activities listed ->
  detailReadsEligible defaultNames listed tr = true ->
  detailReadsEligible defaultNames listed
    (snd (processActivities fuel w settings retryPolicy paceRange defaultNames
            activities readsUsed tr)) = true.
Proof.
  revert readsUsed tr.
  induction activities as [|summary rest IH]; intros readsUsed tr Hincl Hd; simpl.
  - assumption.
  - pose proof (processActivity_details fuel w settings retryPolicy paceRange defaultNames
                  listed summary readsUsed tr (Hincl _ (or_introl eq_refl)) Hd) as Hd1.
    destruct (processActivity fuel w settings retryPolicy paceRange defaultNames
                summary readsUsed tr) as [[flow r1] tr1].
    simpl in Hd1.
    destruct flow; simpl; try assumption.
    apply IH; try assumption. intros a Ha. apply Hincl. now right.
Qed.

Lemma processActivities_vetted (fuel : nat) (w : World) (settings : Settings)
  (retryPolicy : RetryPolicy) (paceRange : PaceRange) (defaultNames : list string)
  (activities : list Activity) (readsUsed : Z) (tr : Trace) :
  pollsVetted defaultNames tr = true ->
  pollsVetted defaultNames
    (snd (processActivities fuel w settings retryPolicy paceRange defaultNames
            activities readsUsed tr)) = true.
Proof.
  revert readsUsed tr.
  induction activities as [|summary rest IH]; intros readsUsed tr Hv; simpl.
  - assumption.
  - pose proof (processActivity_vetted fuel w settings retryPolicy paceRange defaultNames
                  summary readsUsed tr Hv) as Hv1.
    destruct (processActivity fuel w settings retryPolicy paceRange defaultNames
                summary readsUsed tr) as [[flow r1] tr1].
    simpl in Hv1.
    destruct flow; simpl; auto.
Qed.

(** X16.  The details a run reads are those of activities of the day's
    listing that look like runs, are not already renamed and carry a
    default name.  In the loop over that listing, every laps request and
    every write targets an activity whose details were read with no race
    flag and a default name; so it is for the whole run when the weekly
    totals are switched off. *)
Theorem loop_reads_vetted (toNumber dateTime : string -> option Q) (fuel : nat)
  (settings : Settings) (creds : Credentials) (now : DateTime) (w : World) :
  let defaults := orElse (defaultRunNames settings) [] in
  let listed := match w_list w (dayStart now) with Ok l => l | Failed _ => [] end in
  let tr := snd (main toNumber dateTime fuel settings creds now w) in
  detailReadsEligible defaults listed tr = true /\
  (forall retryPolicy paceRange activities readsUsed tr0,
     pollsVetted defaults tr0 = true ->
     pollsVetted defaults
       (snd (processActivities fuel w settings retryPolicy paceRange defaults
               activities readsUsed tr0)) = true) /\
  (weekTotals settings = false -> pollsVetted defaults tr = true).
Proof.
  intros defaults listed tr.
  split; [|split].
  - unfold tr, main.
    destruct (isWithinActiveHours toNumber settings now); simpl; [|reflexivity].
    destruct (credentialsMissing creds); [reflexivity|].
    destruct (paceRangeFromSettings toNumber settings) as [paceRange|]; [|reflexivity].
    destruct (w_refresh w) as [token|status]; [|reflexivity].
    unfold listed.
    destruct (w_list w (dayStart now)) as [activities|status]; [|reflexivity].
    match goal with
    | |- context [processActivities ?f ?w0 ?s ?rp ?pr ?dn activities ?r ?t] =>
        pose proof (processActivities_details f w0 s rp pr dn activities activities r t
                      (incl_refl _) eq_refl) as Hd;
        destruct (processActivities f w0 s rp pr dn activities r t) as [[o r2] tr2]
    end.
    simpl in Hd.
    destruct (weekTotals settings); [|destruct o; exact Hd].
    destruct o; try exact Hd;
      (unfold maybeFinalizePreviousWeek;
       destruct (negb (Qle_bool _ _)); [exact Hd|];
       match goal with
       | |- context [weekPagesLoop w ?cc ?a ?bf fuel 1 [] r2 tr2] =>
           destruct (weekPagesLoop_page_events w cc a bf fuel 1 [] r2 tr2)
             as (ext & Hext & Hev);
           destruct (weekPagesLoop w cc a bf fuel 1 [] r2 tr2) as [[pages b1] tr3]
       end;
       simpl in Hext; subst tr3;
       assert (Hd3 : detailReadsEligible defaults activities (ext ++ tr2) = true)
         by (rewrite detailReadsEligible_app by (now apply page_events_no_detail);
             exact Hd);
       destruct pages as [acts| |]; cbn [snd]; try exact Hd3;
       destruct (weekTotalRename dateTime settings acts) as [[id newName]|];
       cbn [snd]; exact Hd3).
  - intros retryPolicy paceRange activities readsUsed tr0 Hv.
    now apply processActivities_vetted.
  - intros Hoff. unfold tr, main.
    destruct (isWithinActiveHours toNumber settings now); simpl; [|reflexivity].
    destruct (credentialsMissing creds); [reflexivity|].
    destruct (paceRangeFromSettings toNumber settings) as [paceRange|]; [|reflexivity].
    destruct (w_refresh w) as [token|status]; [|reflexivity].
    destruct (w_list w (dayStart now)) as [activities|status]; [|reflexivity].
    rewrite Hoff.
    match goal with
    | |- context [processActivities ?f ?w0 ?s ?rp ?pr ?dn ?acts ?r ?t] =>
        pose proof (processActivities_vetted f w0 s rp pr dn acts r t eq_refl) as Hloop;
        destruct (processActivities f w0 s rp pr dn acts r t) as [[o r2] tr2]
    end.
    simpl in Hloop. destruct o; exact Hloop.
Qed.

Lemma loop_reads_vetted_witness :
  pollsVetted ["Morning Run"%string]
    (snd (main decimalNumber sampleDate 40
            (mkSettings "06:00" "22:00" "5:30" "7:30" "mi" None None
               (Some ["Morning Run"%string]) false "monday")
            sampleCredentials earlyMonday easyWorld)) = true.
Proof.
  apply (loop_reads_vetted decimalNumber sampleDate 40
           (mkSettings "06:00" "22:00" "5:30" "7:30" "mi" None None
              (Some ["Morning Run"%string]) false "monday")
           sampleCredentials earlyMonday easyWorld).
  reflexivity.
Defined.

(** ** Replacing a week-total suffix *)

Lemma lacksChar_app (c : ascii) (a b : string) :
  lacksChar c (a ++ b) = (lacksChar c a && lacksChar c b)%bool.
Proof.
  induction a as [|x r IH]; simpl; [reflexivity|]. now rewrite IH, andb_assoc.
Qed.

Lemma digits_lack_paren (s : string) : allDigits s = true -> lacksChar ")" s = true.
Proof.
  induction s as [|c r IH]; simpl; [reflexivity|].
  intros H. apply andb_true_iff in H. destruct H as [Hc Hr].
  rewrite (IH Hr), andb_true_r.
  destruct (Ascii.eqb c ")") eqn:E; [|reflexivity].
  apply Ascii.eqb_eq in E. subst c. discriminate.
Qed.

Lemma toFixed1_lacks_paren (x : Q) : lacksChar ")" (toFixed1 x) = true.
Proof.
  unfold toFixed1. cbv zeta.
  set (ax := if negb (Qle_bool 0 x) then - x else x).
  assert (Hax : 0 <= ax).
  { unfold ax. destruct (Qle_bool 0 x) eqn:E; cbn [negb].
    - now apply Qle_bool_iff in E.
    - destruct (Qlt_le_dec x 0) as [H | H]; [lra|].
      apply Qle_bool_iff in H. congruence. }
  assert (Hn : (0 <= Qfloor (ax * 10 + (1 # 2)))%Z).
  { change 0%Z with (Qfloor 0). apply Qfloor_resp_le. lra. }
  set (n := Qfloor (ax * 10 + (1 # 2))) in *.
  rewrite !lacksChar_app.
  rewrite (digits_lack_paren (string_of_Z (n / 10)))
    by (apply string_of_Z_digits, Z.div_pos; lia).
  rewrite (digits_lack_paren (string_of_Z (n mod 10)))
    by (apply string_of_Z_digits, Z.mod_pos_bound; lia).
  destruct (negb (Qle_bool 0 x)); reflexivity.
Qed.

Lemma spanNotParen_close (a b : string) :
  lacksChar ")" a = true ->
  spanNotParen (a ++ String ")" b) = (a, String ")" b).
Proof.
  induction a as [|c r IH]; simpl; [reflexivity|].
  intros H. apply andb_true_iff in H. destruct H as [Hc Hr].
  apply negb_true_iff in Hc. rewrite Hc, (IH Hr). reflexivity.
Qed.

(** The pattern matches a formatted suffix, with blanks before it or not. *)
Lemma matches_suffix (totalMeters : Q) (unitSystem : string) :
  matchesWeekTotalTail (formatWeekTotalSuffix totalMeters unitSystem) = true /\
  matchesWeekTotalTail (" " ++ formatWeekTotalSuffix totalMeters unitSystem) = true.
Proof.
  assert (H : matchesWeekTotalTail (formatWeekTotalSuffix totalMeters unitSystem) = true).
  { unfold matchesWeekTotalTail, formatWeekTotalSuffix.
    set (value := toFixed1 _).
    set (label := (if unitIsMi unitSystem then "mi" else "km")%string).
    simpl.
    assert (E : (value ++ String " " (label ++ ")"))%string
                = ((value ++ " " ++ label) ++ String ")" EmptyString)%string).
    { rewrite <- !string_app_assoc. reflexivity. }
    rewrite E, spanNotParen_close.
    - destruct (value ++ " " ++ label)%string eqn:Hv; [|reflexivity].
      destruct value; discriminate.
    - rewrite !lacksChar_app. unfold value. rewrite toFixed1_lacks_paren.
      unfold label. destruct (unitIsMi unitSystem); reflexivity. }
  split; [exact H|]. exact H.
Qed.

(** Where the pattern matches, the text begins, after blanks, with ["("]. *)
Lemma matches_begins_paren (s : string) :
  matchesWeekTotalTail s = true -> exists r, trimStart s = String "(" r.
Proof.
  unfold matchesWeekTotalTail.
  destruct (trimStart s) as [|c r]; [discriminate|].
  cbn [toLowerCase startsWith].
  destruct (Ascii.eqb "(" (lowerChar c)) eqn:E; [|discriminate].
  intros _. apply Ascii.eqb_eq in E. exists r. f_equal.
  unfold lowerChar in E.
  destruct ((65 <=? nat_of_ascii c)%nat && (nat_of_ascii c <=? 90)%nat)%bool eqn:Hup;
    [|now symmetry].
  exfalso. apply andb_true_iff in Hup. destruct Hup as [H1 H2].
  apply Nat.leb_le in H1. apply Nat.leb_le in H2.
  apply (f_equal nat_of_ascii) in E. rewrite nat_ascii_embedding in E by lia.
  change (nat_of_ascii "(") with 40%nat in E. lia.
Qed.

Lemma trimStart_head (x tail : string) :
  endsNonSpace x = true -> lacksChar "(" x = true ->
  exists c r, trimStart (x ++ tail) = String c r /\ c <> "("%char.
Proof.
  induction x as [|a r IH]; [discriminate|].
  intros He Hl. cbn [append trimStart].
  cbn [lacksChar] in Hl. apply andb_true_iff in Hl. destruct Hl as [Ha Hr].
  destruct (isSpace a) eqn:Hs.
  - destruct r as [|a' r'].
    + cbn [endsNonSpace] in He. rewrite Hs in He. discriminate.
    + apply IH; [exact He | exact Hr].
  - exists a, (r ++ tail)%string. split; [reflexivity|].
    now apply negb_true_iff, Ascii.eqb_neq in Ha.
Qed.

Lemma no_match_inside (x tail : string) :
  lacksChar "(" x = true -> endsNonSpace x = true ->
  matchesWeekTotalTail (x ++ tail) = false.
Proof.
  intros Hl He.
  destruct (matchesWeekTotalTail (x ++ tail)) eqn:Hm; [|reflexivity].
  destruct (matches_begins_paren _ Hm) as [r Hr].
  destruct (trimStart_head x tail He Hl) as (c & q & Hc & Hne).
  rewrite Hr in Hc. injection Hc as <- _. congruence.
Qed.

Lemma strip_lacking (s : string) : lacksChar "(" s = true -> stripWeekTotal s = s.
Proof.
  induction s as [|c r IH]; intros Hl.
  - reflexivity.
  - assert (Hm : matchesWeekTotalTail (String c r) = false).
    { destruct (matchesWeekTotalTail (String c r)) eqn:Hm; [|reflexivity].
      destruct (matches_begins_paren _ Hm) as [q Hq].
      exfalso. clear Hm IH. revert Hq Hl.
      generalize (String c r). intros s.
      induction s as [|a t IHs]; simpl; [discriminate|].
      destruct (isSpace a).
      - intros Hq Hl. apply andb_true_iff in Hl. now apply IHs.
      - intros [= -> _]. discriminate. }
    cbn [stripWeekTotal]. rewrite Hm.
    simpl in Hl. apply andb_true_iff in Hl. now rewrite (IH (proj2 Hl)).
Qed.

Lemma strip_suffixed (x : string) (totalMeters : Q) (unitSystem : string) :
  lacksChar "(" x = true -> endsNonSpace x = true ->
  stripWeekTotal (x ++ " " ++ formatWeekTotalSuffix totalMeters unitSystem) = x.
Proof.
  induction x as [|c r IH]; [discriminate|].
  intros Hl He.
  pose proof (no_match_inside (String c r)
                (" " ++ formatWeekTotalSuffix totalMeters unitSystem) Hl He) as Hm.
  change ((String c r ++ " " ++ formatWeekTotalSuffix totalMeters unitSystem)%string)
    with (String c (r ++ " " ++ formatWeekTotalSuffix totalMeters unitSystem)) in *.
  cbn [stripWeekTotal]. rewrite Hm.
  f_equal.
  destruct r as [|c' r'].
  - cbn [append].
    destruct (matches_suffix totalMeters unitSystem) as [_ H].
    cbn [append] in H.
    destruct (formatWeekTotalSuffix totalMeters unitSystem) eqn:E;
      cbn [stripWeekTotal]; now rewrite H.
  - apply IH.
    + simpl in Hl. apply andb_true_iff in Hl. apply Hl.
    + exact He.
Qed.

Lemma trim_trimmed (s : string) :
  beginsNonSpace s = true -> endsNonSpace s = true -> trim s = s.
Proof.
  intros Hb He. unfold trim.
  destruct s as [|c r]; [discriminate|].
  simpl in Hb. apply negb_true_iff in Hb.
  cbn [trimStart]. rewrite Hb. now apply trimEnd_ends_nonspace.
Qed.

(** The name that [appendWeekTotalSuffix] gives to a trimmed name. *)
Lemma appendWeekTotalSuffix_trimmed (base suffix : string) :
  stripWeekTotal base = base ->
  beginsNonSpace base = true -> endsNonSpace base = true ->
  endsNonSpace suffix = true ->
  appendWeekTotalSuffix base suffix = (base ++ " " ++ suffix)%string.
Proof.
  intros Hs Hb He Hse. unfold appendWeekTotalSuffix.
  rewrite Hs, (trim_trimmed base Hb He).
  apply trim_trimmed.
  - destruct base; [discriminate | exact Hb].
  - rewrite string_app_assoc. now apply endsNonSpace_app.
Qed.

(** X17.  On a name without ["("] and without blanks at its ends, a
    second week-total suffix replaces the first: appending one suffix and
    then another gives what appending the other alone gives, the name, a
    blank and that suffix. *)
Theorem appendWeekTotalSuffix_replaces (base : string) (total1 total2 : Q)
  (unit1 unit2 : string) :
  lacksChar "(" base = true ->
  beginsNonSpace base = true -> endsNonSpace base = true ->
  let suffix1 := formatWeekTotalSuffix total1 unit1 in
  let suffix2 := formatWeekTotalSuffix total2 unit2 in
  appendWeekTotalSuffix (appendWeekTotalSuffix base suffix1) suffix2
  = appendWeekTotalSuffix base suffix2 /\
  appendWeekTotalSuffix base suffix2 = (base ++ " " ++ suffix2)%string.
Proof.
  intros Hl Hb He suffix1 suffix2.
  pose proof (strip_lacking base Hl) as Hs.
  assert (H2 : appendWeekTotalSuffix base suffix2 = (base ++ " " ++ suffix2)%string)
    by (apply appendWeekTotalSuffix_trimmed; auto; apply suffix_ends).
  split; [|exact H2].
  rewrite (appendWeekTotalSuffix_trimmed base suffix1 Hs Hb He (suffix_ends _ _)).
  rewrite H2. unfold appendWeekTotalSuffix.
  unfold suffix1. rewrite (strip_suffixed base total1 unit1 Hl He).
  rewrite (trim_trimmed base Hb He).
  apply trim_trimmed.
  - destruct base; [discriminate | exact Hb].
  - rewrite string_app_assoc. apply endsNonSpace_app, suffix_ends.
Qed.

Lemma appendWeekTotalSuffix_replaces_witness :
  appendWeekTotalSuffix
    (appendWeekTotalSuffix "Easy Run" (formatWeekTotalSuffix 10000 "km"))
    (formatWeekTotalSuffix 12000 "km")
  = appendWeekTotalSuffix "Easy Run" (formatWeekTotalSuffix 12000 "km").
Proof.
  apply (appendWeekTotalSuffix_replaces "Easy Run" 10000 12000 "km" "km"); reflexivity.
Defined.
